(** * OpenDrop release widget: release selection, installer selection, cache

    A shallow embedding of [scripts/opendrop-release.js] and the properties
    of its release-selection and caching logic.

    Modelling conventions.
    - A JavaScript value that can come out of [JSON.parse] or
      [response.json()] is a [JsVal]; [undefined] is added because property
      reads produce it.  The numbers of such a value are integers, held as
      [Z]; a numeric result that JavaScript would give as [NaN] is [None].
    - The numbers of a version are doubles: [Number()] rounds the integer a
      run of digits writes to the nearest double, and gives [Infinity] beyond
      the range.  They are held as a [Double], with the rounding and the
      arithmetic of infinities and [NaN] written out.
    - A string is a sequence of code units below 256.
    - A conversion to a string ([String(v)], [new Date(v)], an assignment to
      [href], the subtraction of a value) raises a [TypeError] on an object
      that has a [toString] entry of its own, which a value read from JSON
      can have.  What converts returns a [Res]: a value or an exception.
    - What the script leaves to the platform ([Date.parse], the numeric
      reading of a string, the exponent notation of a large number,
      [JSON.stringify] and [JSON.parse]) is the [Platform] interface; the
      properties hold for every platform. *)

From Stdlib Require Import ZArith QArith List Bool Ascii String DecimalString Lia.
From stdpp Require Import gmap strings.
Import ListNotations.

Set Warnings "-register-all".
Local Open Scope Z_scope.

(* ===================================================================== *)
(** ** Values *)
(* ===================================================================== *)

Inductive JsVal : Type :=
| JUndefined
| JNull
| JBool (b : bool)
| JNum (n : Z)
| JStr (s : string)
| JArr (items : list JsVal)
| JObj (fields : list (string * JsVal)).

(** [ToBoolean]: what [if (v)], [!v], [a && b] and [a || b] test. *)
Definition truthy (v : JsVal) : bool :=
  match v with
  | JUndefined | JNull => false
  | JBool b => b
  | JNum n => negb (n =? 0)
  | JStr s => negb (String.eqb s "")
  | JArr _ | JObj _ => true
  end.

(** [a && b] and [a || b] on values. *)
Definition js_and (a b : JsVal) : JsVal := if truthy a then b else a.
Definition js_or (a b : JsVal) : JsVal := if truthy a then a else b.

Fixpoint lookup_field (k : string) (fields : list (string * JsVal)) : JsVal :=
  match fields with
  | [] => JUndefined
  | (k', v) :: rest => if String.eqb k k' then v else lookup_field k rest
  end.

(** The property read [v.k] (and [v?.k]).  The script reads a property
    with a plain dot only from a value it has just tested truthy, so the
    [TypeError] of a read from [null] or [undefined] cannot arise; there
    the model gives [undefined], which is what [?.] gives.  None of the
    names the script reads is defined on a string, a number, a boolean or an
    array. *)
Definition get_prop (v : JsVal) (k : string) : JsVal :=
  match v with
  | JObj fields => lookup_field k fields
  | _ => JUndefined
  end.

(** Whether an object has an entry of its own under [k]. *)
Definition has_own (k : string) (fields : list (string * JsVal)) : bool :=
  existsb (fun kv => String.eqb k (fst kv)) fields.

(** A value that is not an object: [undefined], [null], a boolean, a number
    or a string. *)
Definition primitive (v : JsVal) : bool :=
  match v with
  | JArr _ | JObj _ => false
  | _ => true
  end.

Definition Z_to_string (n : Z) : string := NilZero.string_of_int (Z.to_int n).

(* ===================================================================== *)
(** ** Exceptions *)
(* ===================================================================== *)

Inductive Exn : Type :=
| TypeError            (* a value that does not convert to a primitive *)
| SecurityError        (* storage is not available to the page *)
| QuotaExceededError   (* a write does not fit *)
| SyntaxError          (* text that is not JSON *)
| NetworkError.        (* the request did not complete *)

(** What an expression comes to: a value, or a thrown exception. *)
Inductive Res (A : Type) : Type :=
| Ok (a : A)
| Throw (e : Exn).
Arguments Ok {A} a.
Arguments Throw {A} e.

Definition res_bind {A B} (r : Res A) (k : A -> Res B) : Res B :=
  match r with
  | Ok a => k a
  | Throw e => Throw e
  end.

Notation "x <~ r ;; k" := (res_bind r (fun x => k))
  (at level 100, r at level 99, k at level 200, right associativity).

(* ===================================================================== *)
(** ** Numbers *)
(* ===================================================================== *)

(** The doubles the script computes with: integers, the two infinities and
    [NaN].  [Finite z] stands for the double of value [z]. *)
Inductive Double : Type :=
| Finite (z : Z)
| PosInf
| NegInf
| NaN.

(** The nearest double to an integer [n >= 0], ties to the even significand.
    Up to 2^53 every integer is a double; from there on the doubles are the
    multiples of [2 ^ (Z.log2 n - 52)] in the binade of [n]. *)
Definition round_to_even (n : Z) : Z :=
  if n <? 2 ^ 53 then n
  else
    let ulp := 2 ^ (Z.log2 n - 52) in
    let q := n / ulp in
    let r := n mod ulp in
    if 2 * r <? ulp then q * ulp
    else if ulp <? 2 * r then (q + 1) * ulp
    else if Z.even q then q * ulp
    else (q + 1) * ulp.

(** The double an integer rounds to; from 2^1024 on it is an infinity. *)
Definition Double_of_Z (n : Z) : Double :=
  let m := round_to_even (Z.abs n) in
  if m <? 2 ^ 1024 then Finite (Z.sgn n * m)
  else if 0 <? n then PosInf
  else NegInf.

(** [x === y] on numbers: [NaN] is equal to nothing. *)
Definition Double_eqb (x y : Double) : bool :=
  match x, y with
  | Finite a, Finite b => a =? b
  | PosInf, PosInf | NegInf, NegInf => true
  | _, _ => false
  end.

(** [x < y] on numbers: false when either is [NaN]. *)
Definition Double_ltb (x y : Double) : bool :=
  match x, y with
  | Finite a, Finite b => a <? b
  | NegInf, Finite _ | NegInf, PosInf | Finite _, PosInf => true
  | _, _ => false
  end.

(** [x > 0] and [x === 0]. *)
Definition is_positive (x : Double) : bool := Double_ltb (Finite 0) x.
Definition is_zero (x : Double) : bool := Double_eqb x (Finite 0).

(** [x - y] on numbers: the difference of two doubles is rounded, and the
    difference of two equal infinities is [NaN]. *)
Definition Double_sub (x y : Double) : Double :=
  match x, y with
  | NaN, _ | _, NaN => NaN
  | Finite a, Finite b => Double_of_Z (a - b)
  | PosInf, PosInf | NegInf, NegInf => NaN
  | PosInf, _ | _, NegInf => PosInf
  | NegInf, _ | _, PosInf => NegInf
  end.

(** The times of the script are integers of milliseconds, or [NaN]: [None].
    [a - b], [a > b] and [a < b] on them; a comparison with [NaN] is
    false. *)
Definition num_sub (a b : option Z) : option Z :=
  match a, b with
  | Some x, Some y => Some (x - y)
  | _, _ => None
  end.

Definition num_gt (a b : option Z) : bool :=
  match a, b with
  | Some x, Some y => x >? y
  | _, _ => false
  end.

Definition num_lt (a b : option Z) : bool :=
  match a, b with
  | Some x, Some y => x <? y
  | _, _ => false
  end.

(* ===================================================================== *)
(** ** The platform *)
(* ===================================================================== *)

(** What the script calls and does not define.  [None] is [NaN] for the two
    numeric readings and a [SyntaxError] for [JSON_parse]; the empty text is
    not JSON.  [Number_exponential] is how a number of magnitude 10^21 or
    more is written (in exponent notation: [1e+21]).  [JSON_stringify] is
    only applied to an object, for which it gives text. *)
Class Platform : Type := {
  Date_parse : string -> option Z;
  StringToNumber : string -> option Z;
  Number_exponential : Z -> string;
  JSON_stringify : JsVal -> string;
  JSON_parse : string -> option JsVal;
  JSON_parse_empty : JSON_parse "" = None
}.

(* ===================================================================== *)
(** ** Conversions *)
(* ===================================================================== *)

Section Conversions.
Context `{Platform}.

(** [String(n)] for a number: plain decimal digits below 10^21. *)
Definition Number_toString (n : Z) : string :=
  if Z.abs n <? 10 ^ 21 then Z_to_string n else Number_exponential n.

(** [String(v)].  An array is joined with commas, [undefined] and [null]
    counting as empty.  An object without a [toString] of its own inherits
    the one that gives "[object Object]"; one with a [toString] entry of its
    own has there a value that is not a function (it came out of JSON), the
    inherited [valueOf] gives the object back, and the conversion raises. *)
Fixpoint ToString (v : JsVal) : Res string :=
  match v with
  | JUndefined => Ok "undefined"
  | JNull => Ok "null"
  | JBool true => Ok "true"
  | JBool false => Ok "false"
  | JNum n => Ok (Number_toString n)
  | JStr s => Ok s
  | JArr items =>
      (fix join (l : list JsVal) : Res string :=
         match l with
         | [] => Ok ""
         | x :: rest =>
             sx <~ match x with
                   | JUndefined | JNull => Ok ""
                   | _ => ToString x
                   end ;;
             match rest with
             | [] => Ok sx
             | _ :: _ => tl <~ join rest ;; Ok (sx +:+ "," +:+ tl)
             end
         end) items
  | JObj fields =>
      if has_own "toString" fields then Throw TypeError else Ok "[object Object]"
  end.

(** [TimeClip]: a time value is at most 8.64e15 ms from the epoch. *)
Definition TimeClip (t : Z) : option Z :=
  if Z.abs t <=? 8640000000000000 then Some t else None.

(** [new Date(v).getTime()]: a string is parsed, anything else is read as a
    number of milliseconds; an array or object is first turned to a string. *)
Definition Date_getTime (v : JsVal) : Res (option Z) :=
  match v with
  | JUndefined => Ok None
  | JNull => Ok (Some 0)
  | JBool b => Ok (Some (if b then 1 else 0))
  | JNum n => Ok (TimeClip n)
  | JStr s => Ok (Date_parse s)
  | JArr _ | JObj _ => s <~ ToString v ;; Ok (Date_parse s)
  end.

(** [ToNumber], as the subtraction [Date.now() - v] applies it. *)
Definition ToNumber (v : JsVal) : Res (option Z) :=
  match v with
  | JUndefined => Ok None
  | JNull => Ok (Some 0)
  | JBool b => Ok (Some (if b then 1 else 0))
  | JNum n => Ok (Some n)
  | JStr s => Ok (StringToNumber s)
  | JArr _ | JObj _ => s <~ ToString v ;; Ok (StringToNumber s)
  end.

End Conversions.

(* ===================================================================== *)
(** ** Strings *)
(* ===================================================================== *)

Definition code (c : ascii) : N := N_of_ascii c.

(** White space and line terminators below 256, as [trim] removes them. *)
Definition is_space (c : ascii) : bool :=
  let n := code c in
  (((9 <=? n) && (n <=? 13)) || (n =? 32) || (n =? 160))%N.

Definition is_digit (c : ascii) : bool :=
  let n := code c in ((48 <=? n) && (n <=? 57))%N.

Fixpoint trim_start (s : string) : string :=
  match s with
  | String c rest => if is_space c then trim_start rest else s
  | EmptyString => EmptyString
  end.

Fixpoint trim_end (s : string) : string :=
  match s with
  | String c rest =>
      match trim_end rest with
      | EmptyString => if is_space c then EmptyString else String c EmptyString
      | t => String c t
      end
  | EmptyString => EmptyString
  end.

Definition trim (s : string) : string := trim_end (trim_start s).

(** [toLowerCase] on one code unit: A-Z, and the upper-case letters of the
    range 192-222 (215 is the multiplication sign). *)
Definition lower (c : ascii) : ascii :=
  let n := code c in
  if (((65 <=? n) && (n <=? 90))
      || ((192 <=? n) && (n <=? 222) && negb (n =? 215)))%N
  then ascii_of_N (n + 32) else c.

Fixpoint toLowerCase (s : string) : string :=
  match s with
  | String c rest => String (lower c) (toLowerCase rest)
  | EmptyString => EmptyString
  end.

(** How a regular expression with the [i] flag (and without [u]) compares a
    pattern letter with an input code unit: both are mapped by
    [toUpperCase], except that a code unit of 128 or more is never mapped
    to one below 128.  For the letters a-z of the script's patterns this
    leaves the letter itself and its capital. *)
Definition ci_eqb (p c : ascii) : bool :=
  let n := code c in
  Ascii.eqb p (if ((65 <=? n) && (n <=? 90))%N then ascii_of_N (n + 32) else c).

Fixpoint startsWith (s pre : string) : bool :=
  match pre, s with
  | EmptyString, _ => true
  | String p pre', String c s' => Ascii.eqb p c && startsWith s' pre'
  | String _ _, EmptyString => false
  end.

(** [s.endsWith(suf)]: the last [length suf] code units of [s] are [suf]. *)
Fixpoint endsWith (s suf : string) : bool :=
  match s with
  | EmptyString => String.eqb suf ""
  | String _ rest => String.eqb s suf || endsWith rest suf
  end.

(** [pat] (lower-case letters) matches at the head of [s], ignoring case. *)
Fixpoint ci_prefix (pat s : string) : bool :=
  match pat, s with
  | EmptyString, _ => true
  | String p pat', String c s' => ci_eqb p c && ci_prefix pat' s'
  | String _ _, EmptyString => false
  end.

(** [/pat/i.test(s)] for a pattern of plain lower-case letters: it occurs
    somewhere in [s], ignoring case. *)
Fixpoint ci_test (pat s : string) : bool :=
  ci_prefix pat s ||
  match s with
  | String _ rest => ci_test pat rest
  | EmptyString => false
  end.

(** [s.replace(/^v/i, '')]. *)
Definition strip_v (s : string) : string :=
  match s with
  | String c rest => if ci_eqb "v" c then rest else s
  | EmptyString => EmptyString
  end.

(* ===================================================================== *)
(** ** Versions *)
(* ===================================================================== *)

Record Semver : Type := mkSemver { major : Double; minor : Double; patch : Double }.

(** The longest run of digits at the head of [s], and what follows it. *)
Fixpoint span_digits (s : string) : string * string :=
  match s with
  | String c rest =>
      if is_digit c
      then let '(ds, tl) := span_digits rest in (String c ds, tl)
      else (EmptyString, s)
  | EmptyString => (EmptyString, EmptyString)
  end.

(** [/(\d+)\.(\d+)\.(\d+)/] tried at the head of [s]: the three groups.
    Each [\d+] is greedy; giving back digits never helps, since what then
    follows the group is a digit and not the dot (for the last group,
    nothing follows). *)
Definition match_here (s : string) : option (string * string * string) :=
  match span_digits s with
  | (String _ _ as d1, String "." r1) =>
      match span_digits r1 with
      | (String _ _ as d2, String "." r2) =>
          match span_digits r2 with
          | (String _ _ as d3, _) => Some (d1, d2, d3)
          | _ => None
          end
      | _ => None
      end
  | _ => None
  end.

(** [s.match(/(\d+)\.(\d+)\.(\d+)/)]: the match at the leftmost position
    that has one. *)
Fixpoint regex_match (s : string) : option (string * string * string) :=
  match match_here s with
  | Some m => Some m
  | None =>
      match s with
      | String _ rest => regex_match rest
      | EmptyString => None
      end
  end.

Definition digit_value (c : ascii) : Z := Z.of_N (code c) - 48.

(** The integer a string of decimal digits writes. *)
Fixpoint decimal_value_from (acc : Z) (ds : string) : Z :=
  match ds with
  | String c rest => decimal_value_from (10 * acc + digit_value c) rest
  | EmptyString => acc
  end.

Definition decimal_value (ds : string) : Z := decimal_value_from 0 ds.

(** [Number(ds)] for a string of decimal digits, leading zeros included: the
    double nearest to the integer written, ties to the even significand. *)
Definition Number_digits (ds : string) : Double := Double_of_Z (decimal_value ds).

Section Versions.
Context `{Platform}.

Definition parseSemver (tag : JsVal) : Res (option Semver) :=
  if negb (truthy tag) then Ok None
  else
    text <~ ToString tag ;;
    let cleaned := strip_v (trim text) in
    match regex_match cleaned with
    | None => Ok None
    | Some (m1, m2, m3) =>
        Ok (Some {| major := Number_digits m1;
                    minor := Number_digits m2;
                    patch := Number_digits m3 |})
    end.

End Versions.

Definition compareSemver (a b : Semver) : Double :=
  if negb (Double_eqb (major a) (major b)) then Double_sub (major a) (major b)
  else if negb (Double_eqb (minor a) (minor b)) then Double_sub (minor a) (minor b)
  else Double_sub (patch a) (patch b).

(* ===================================================================== *)
(** ** Configuration *)
(* ===================================================================== *)

Module CONFIG.
Definition owner : string := "nfantinodyer".
Definition repo : string := "nfdgames".
Definition cacheKey : string := "opendrop_latest_release_v1".
Definition cacheTTL : Z := 6 * 60 * 60 * 1000.
End CONFIG.

Module URLS.
Definition releasesPage : string :=
  "https://github.com/" +:+ CONFIG.owner +:+ "/" +:+ CONFIG.repo +:+ "/releases".
Definition latestRelease : string :=
  "https://github.com/" +:+ CONFIG.owner +:+ "/" +:+ CONFIG.repo +:+ "/releases/latest".
Definition api : string :=
  "https://api.github.com/repos/" +:+ CONFIG.owner +:+ "/" +:+ CONFIG.repo
    +:+ "/releases?per_page=100".
End URLS.

Module ELEMENTS.
Definition badgeText : string := "releaseBadgeText".
Definition badgeLink : string := "releaseBadgeLink".
Definition versionText : string := "windowsVersionText".
Definition heroDownload : string := "heroDownloadBtn".
Definition windowsDownload : string := "windowsDownloadBtn".
End ELEMENTS.

(* ===================================================================== *)
(** ** Release selection *)
(* ===================================================================== *)

Section Selection.
Context `{Platform}.

(** [r => r && !r.draft] *)
Definition is_nonDraft (r : JsVal) : bool :=
  truthy r && negb (truthy (get_prop r "draft")).

(** [r => !r.prerelease] *)
Definition is_stable (r : JsVal) : bool :=
  negb (truthy (get_prop r "prerelease")).

(** [new Date(release.published_at || 0).getTime()] *)
Definition published_time (release : JsVal) : Res (option Z) :=
  Date_getTime (js_or (get_prop release "published_at") (JNum 0)).

(** One turn of the loop over the candidates; [best] is [None] for
    [null] and the pair for [{ release, semver }].  [cmp > 0] and
    [cmp === 0] are both false when [cmp] is [NaN]. *)
Definition consider (best : option (JsVal * Semver)) (release : JsVal)
  : Res (option (JsVal * Semver)) :=
  parsed <~ parseSemver (get_prop release "tag_name") ;;
  match parsed with
  | None => Ok best
  | Some semver =>
      match best with
      | None => Ok (Some (release, semver))
      | Some (best_release, best_semver) =>
          let cmp := compareSemver semver best_semver in
          if is_positive cmp then Ok (Some (release, semver))
          else if is_zero cmp then
            aTime <~ published_time release ;;
            bTime <~ published_time best_release ;;
            Ok (if num_gt aTime bTime then Some (release, semver) else best)
          else Ok best
      end
  end.

(** The loop [for (const release of candidates)], from a given [best]. *)
Fixpoint scan (best : option (JsVal * Semver)) (candidates : list JsVal)
  : Res (option (JsVal * Semver)) :=
  match candidates with
  | [] => Ok best
  | release :: rest => best' <~ consider best release ;; scan best' rest
  end.

(** The candidate pool: the stable non-drafts if there is one, else all
    non-drafts. *)
Definition candidates_of (releases : list JsVal) : list JsVal :=
  let nonDrafts := List.filter is_nonDraft releases in
  let stable := List.filter is_stable nonDrafts in
  if (0 <? length stable)%nat then stable else nonDrafts.

Definition pickBestRelease (releases : JsVal) : Res JsVal :=
  match releases with
  | JArr rs =>
      if (length rs =? 0)%nat then Ok JNull
      else
        let candidates := candidates_of rs in
        best <~ scan None candidates ;;
        match best, candidates with
        | None, first :: _ => Ok first
        | None, [] => Ok JNull
        | Some (release, _), _ => Ok release
        end
  | _ => Ok JNull
  end.

End Selection.

(* ===================================================================== *)
(** ** Installer selection *)
(* ===================================================================== *)

(** [a.name] where the script takes it for a string: in [isExe] behind the
    test [typeof a.name === 'string'], and in the two searches, which run
    over the assets [isExe] kept.  The empty string stands for a name that
    is not a string, which these uses never meet. *)
Definition name_of (a : JsVal) : string :=
  match get_prop a "name" with
  | JStr name => name
  | _ => ""
  end.

Definition is_string (v : JsVal) : bool :=
  match v with JStr _ => true | _ => false end.

(** [a => a && typeof a.name === 'string' && a.name.toLowerCase().endsWith('.exe')] *)
Definition isExe (a : JsVal) : bool :=
  truthy a && is_string (get_prop a "name")
  && endsWith (toLowerCase (name_of a)) ".exe".

(** [/opendrop/i.test(a.name)], on an asset [isExe] kept. *)
Definition is_opendrop (a : JsVal) : bool :=
  ci_test "opendrop" (name_of a).

(** [/server|setup|installer|windows/i.test(a.name)], on an asset [isExe]
    kept. *)
Definition has_role (a : JsVal) : bool :=
  let name := name_of a in
  ci_test "server" name || ci_test "setup" name
  || ci_test "installer" name || ci_test "windows" name.

Definition pickWindowsAsset (assets : JsVal) : JsVal :=
  match assets with
  | JArr l =>
      if (length l =? 0)%nat then JNull
      else
        let exes := List.filter isExe l in
        match exes with
        | [] => JNull
        | first :: _ =>
            match List.find (fun a => is_opendrop a && has_role a) exes with
            | Some preferred => preferred
            | None =>
                match List.find is_opendrop exes with
                | Some opendropAny => opendropAny
                | None => first
                end
            end
        end
  | _ => JNull
  end.

(* ===================================================================== *)
(** ** The page: storage, document, console *)
(* ===================================================================== *)

(** [localStorage]: whether the page may use it, what it holds, and how
    many code units (keys and values together) it may hold. *)
Record Storage : Type := mkStorage {
  available : bool;
  items : gmap string string;
  capacity : nat
}.

Definition usage (m : gmap string string) : nat :=
  map_fold (fun k v acc => (String.length k + String.length v + acc)%nat) 0%nat m.

(** An element of the page, as far as the script writes it.  [href] is the
    value last assigned to it: the page keeps its text. *)
Record Element : Type := mkElement {
  textContent : string;
  href : JsVal;
  dataset_fallbackHref : JsVal
}.

Inductive Warning : Type :=
| WarnStatus (msg : string) (status : Z)
| WarnPlain (msg : string)
| WarnError (msg : string) (e : Exn).

Record World : Type := mkWorld {
  storage : Storage;
  document : gmap string Element;
  console : list Warning
}.

(** A computation on the page: it ends normally or by a thrown exception,
    and what it did to the page before stays done in both cases. *)
Definition M (A : Type) : Type := World -> Res A * World.

Definition ret {A} (a : A) : M A := fun w => (Ok a, w).

Definition throw {A} (e : Exn) : M A := fun w => (Throw e, w).

Definition bind {A B} (m : M A) (k : A -> M B) : M B :=
  fun w =>
    match m w with
    | (Ok a, w') => k a w'
    | (Throw e, w') => (Throw e, w')
    end.

(** An expression evaluated for its value: it leaves the page as it is. *)
Definition lift {A} (r : Res A) : M A := fun w => (r, w).

(** [try { m } catch (e) { handler e }] *)
Definition try_catch {A} (m : M A) (handler : Exn -> M A) : M A :=
  fun w =>
    match m w with
    | (Ok a, w') => (Ok a, w')
    | (Throw e, w') => handler e w'
    end.

Notation "x <- m ;; k" := (bind m (fun x => k))
  (at level 100, m at level 99, k at level 200, right associativity).
Notation "m ;;; k" := (bind m (fun _ => k))
  (at level 100, k at level 200, right associativity).

(** [localStorage.getItem(key)]: the stored string, or [null]. *)
Definition localStorage_getItem (key : string) : M JsVal :=
  fun w =>
    if available (storage w) then
      match items (storage w) !! key with
      | Some s => (Ok (JStr s), w)
      | None => (Ok JNull, w)
      end
    else (Throw SecurityError, w).

(** [localStorage.setItem(key, value)] *)
Definition localStorage_setItem (key value : string) : M unit :=
  fun w =>
    let st := storage w in
    if available st then
      let items' := <[key := value]> (items st) in
      if (usage items' <=? capacity st)%nat then
        (Ok tt, mkWorld (mkStorage true items' (capacity st)) (document w) (console w))
      else (Throw QuotaExceededError, w)
    else (Throw SecurityError, w).

(** [console.warn(...)] *)
Definition console_warn (x : Warning) : M unit :=
  fun w => (Ok tt, mkWorld (storage w) (document w) (console w ++ [x])).

Definition modify_document (f : gmap string Element -> gmap string Element) : M unit :=
  fun w => (Ok tt, mkWorld (storage w) (f (document w)) (console w)).

(** [document.getElementById(id)]: the element, or [null]. *)
Definition getElementById (id : string) : M (option Element) :=
  fun w => (Ok (document w !! id), w).

(* ===================================================================== *)
(** ** Presentation *)
(* ===================================================================== *)

Definition with_text (text : string) (el : Element) : Element :=
  mkElement text (href el) (dataset_fallbackHref el).

Definition with_href (h : JsVal) (el : Element) : Element :=
  mkElement (textContent el) h (dataset_fallbackHref el).

(** One write to the element with a given id, when the page has it. *)
Definition write_element (f : Element -> Element) (id : string)
           (doc : gmap string Element) : gmap string Element :=
  match doc !! id with
  | Some el => <[id := f el]> doc
  | None => doc
  end.

(** The bullet of the labels, U+2022, is not a code unit below 256: it
    stands here as its three UTF-8 bytes. *)
Definition bullet : string := "•".

Section Presentation.
Context `{Platform}.

(** [el.href = v] on the element of the page with this id: the value is
    turned to a string, which can raise, and then the element has it. *)
Definition assign_href (id : string) (v : JsVal) : M unit :=
  lift (ToString v) ;;;
  modify_document (write_element (with_href v) id).

(** The two setters take the id the script looks the element up by; an id
    that is not in the page is the [null] both return on. *)
Definition setHrefSafe (id : string) (h : JsVal) : M unit :=
  el <- getElementById id ;;
  match el with
  | None => ret tt
  | Some el =>
      assign_href id
        (js_or (js_or h (dataset_fallbackHref el)) (JStr URLS.latestRelease))
  end.

Definition setTextSafe (id : string) (text : string) : M unit :=
  modify_document (write_element (with_text text) id).

Definition updateReleaseUI (release : JsVal) : M unit :=
  if negb (truthy release) then ret tt
  else
    let tag := js_or (get_prop release "tag_name") (JStr "") in
    text <- lift (ToString tag) ;;
    let cleaned := strip_v (trim text) in
    let versionLabel :=
      if truthy (JStr cleaned)
      then "Version " +:+ cleaned +:+ " " +:+ bullet +:+ " Now Available"
      else "Now Available" in
    setTextSafe ELEMENTS.badgeText versionLabel ;;;
    (badgeLink <- getElementById ELEMENTS.badgeLink ;;
     match badgeLink with
     | None => ret tt
     | Some _ =>
         assign_href ELEMENTS.badgeLink
           (js_or (get_prop release "html_url") (JStr URLS.latestRelease))
     end) ;;;
    (versionText <- getElementById ELEMENTS.versionText ;;
     match versionText with
     | None => ret tt
     | Some _ =>
         let display :=
           if truthy (JStr cleaned)
           then "v" +:+ cleaned +:+ " " +:+ bullet +:+ " 64-bit"
           else "64-bit" in
         setTextSafe ELEMENTS.versionText display
     end) ;;;
    let asset := pickWindowsAsset (get_prop release "assets") in
    let downloadUrl :=
      js_or (js_or (get_prop asset "browser_download_url")
                   (get_prop release "html_url"))
            (JStr URLS.latestRelease) in
    setHrefSafe ELEMENTS.heroDownload downloadUrl ;;;
    setHrefSafe ELEMENTS.windowsDownload downloadUrl.

End Presentation.

(* ===================================================================== *)
(** ** The cache *)
(* ===================================================================== *)

Section Cache.
Context `{Platform}.

Definition JSON_parse_M (text : string) : M JsVal :=
  match JSON_parse text with
  | Some v => ret v
  | None => throw SyntaxError
  end.

(** [cached?.ts && (Date.now() - cached.ts) < CONFIG.cacheTTL && cached?.release];
    the subtraction is made only when [cached.ts] is truthy. *)
Definition isValid (now : Z) (cached : JsVal) : Res JsVal :=
  let ts := get_prop cached "ts" in
  if truthy ts then
    n <~ ToNumber ts ;;
    Ok (js_and (JBool (num_lt (num_sub (Some now) n) (Some CONFIG.cacheTTL)))
               (get_prop cached "release"))
  else Ok ts.

(** [now] is what [Date.now()] gives during the call.  What [getItem]
    gives, when truthy, is a string. *)
Definition getCachedRelease (now : Z) : M JsVal :=
  try_catch
    (cachedRaw <- localStorage_getItem CONFIG.cacheKey ;;
     if negb (truthy cachedRaw) then ret JNull
     else
       text <- lift (ToString cachedRaw) ;;
       cached <- JSON_parse_M text ;;
       valid <- lift (isValid now cached) ;;
       ret (if truthy valid then get_prop cached "release" else JNull))
    (fun _ => ret JNull).

Definition cacheRelease (now : Z) (release : JsVal) : M unit :=
  try_catch
    (localStorage_setItem CONFIG.cacheKey
       (JSON_stringify (JObj [("ts", JNum now); ("release", release)])))
    (fun _ => ret tt).

End Cache.

(* ===================================================================== *)
(** ** Fetching *)
(* ===================================================================== *)

(** The response of the API: [ok], [status], and what [json()] gives
    ([None] when the body is not JSON and [json()] rejects). *)
Record Response : Type := mkResponse {
  ok : bool;
  status : Z;
  body : option JsVal
}.

(** How [fetch] settles: rejected (the request did not complete) or
    resolved with a response. *)
Inductive FetchOutcome : Type :=
| Rejected
| Resolved (r : Response).

Definition await_fetch (net : FetchOutcome) : M Response :=
  match net with
  | Rejected => throw NetworkError
  | Resolved r => ret r
  end.

Definition await_json (r : Response) : M JsVal :=
  match body r with
  | Some v => ret v
  | None => throw SyntaxError
  end.

Section Orchestrator.
Context `{Platform}.

(** [now_get] and [now_put] are the readings of [Date.now()] in
    [getCachedRelease] and in [cacheRelease]; [net] is how the request
    settles if it is made.  The presentation of a cached release is outside
    the [try]: what it raises leaves the function. *)
Definition fetchLatestRelease (now_get now_put : Z) (net : FetchOutcome) : M unit :=
  cached <- getCachedRelease now_get ;;
  if truthy cached then updateReleaseUI cached
  else
    try_catch
      (response <- await_fetch net ;;
       if negb (ok response) then
         console_warn (WarnStatus "GitHub API request failed:" (status response))
       else
         releases <- await_json response ;;
         best <- lift (pickBestRelease releases) ;;
         if negb (truthy best) then
           console_warn (WarnPlain "No suitable release found")
         else
           updateReleaseUI best ;;;
           cacheRelease now_put best)
      (fun error => console_warn (WarnError "Failed to fetch releases:" error)).

End Orchestrator.

(* ===================================================================== *)
(** ** A platform to run the model on *)
(* ===================================================================== *)

(** One [Platform], for running the script's functions on examples: dates
    in the form the releases API writes them ([YYYY-MM-DDTHH:MM:SSZ]), decimal
    integers for the numeric reading of a string, and JSON over [JsVal]. *)
Module Reference.

Definition dquote : ascii := ascii_of_N 34.
Definition backslash : ascii := ascii_of_N 92.

(** [n] decimal digits at the head of [s], as a number. *)
Fixpoint take_digits (n : nat) (acc : Z) (s : string) : option (Z * string) :=
  match n with
  | O => Some (acc, s)
  | S n' =>
      match s with
      | String c rest =>
          if is_digit c then take_digits n' (10 * acc + digit_value c) rest
          else None
      | EmptyString => None
      end
  end.

Definition expect (c : ascii) (s : string) : option string :=
  match s with
  | String c' rest => if Ascii.eqb c c' then Some rest else None
  | EmptyString => None
  end.

Definition is_leap (y : Z) : bool :=
  ((y mod 4 =? 0) && negb (y mod 100 =? 0)) || (y mod 400 =? 0).

Definition days_in_month (y m : Z) : Z :=
  if m =? 2 then (if is_leap y then 29 else 28)
  else if (m =? 4) || (m =? 6) || (m =? 9) || (m =? 11) then 30
  else 31.

(** Days from 1970-01-01 to the given day of the civil calendar. *)
Definition days_from_civil (y m d : Z) : Z :=
  let y' := if m <=? 2 then y - 1 else y in
  let era := y' / 400 in
  let yoe := y' - era * 400 in
  let mp := (m + 9) mod 12 in
  let doy := (153 * mp + 2) / 5 + d - 1 in
  let doe := yoe * 365 + yoe / 4 - yoe / 100 + doy in
  era * 146097 + doe - 719468.

Definition date_parse (s : string) : option Z :=
  '(y, s) ← take_digits 4 0 s;
  s ← expect "-" s;
  '(m, s) ← take_digits 2 0 s;
  s ← expect "-" s;
  '(d, s) ← take_digits 2 0 s;
  s ← expect "T" s;
  '(hh, s) ← take_digits 2 0 s;
  s ← expect ":" s;
  '(mm, s) ← take_digits 2 0 s;
  s ← expect ":" s;
  '(ss, s) ← take_digits 2 0 s;
  s ← expect "Z" s;
  if String.eqb s ""
     && (1 <=? m) && (m <=? 12) && (1 <=? d) && (d <=? days_in_month y m)
     && (hh <=? 23) && (mm <=? 59) && (ss <=? 59)
  then Some (((days_from_civil y m d * 24 + hh) * 60 + mm) * 60000 + ss * 1000)
  else None.

(** An optionally signed run of digits, white space around it allowed;
    the empty string reads as 0. *)
Definition string_to_number (s : string) : option Z :=
  match trim s with
  | EmptyString => Some 0
  | String c rest as t =>
      let '(neg, body) := if Ascii.eqb c "-" then (true, rest) else (false, t) in
      match span_digits body with
      | (String _ _ as ds, EmptyString) =>
          Some (if neg then - decimal_value ds else decimal_value ds)
      | _ => None
      end
  end.

(** The exponent notation of a double [x] of 10^21 or more: the fewest
    digits [s] (at most 17) for which [s * 10 ^ e] rounds to [x], one before
    the point, and the power of ten.  Of two such [s] the one nearer to [x]
    is taken, and the even one when they are as near. *)
Definition rounds_to (x v : Z) : bool :=
  match Double_of_Z v with
  | Finite m => m =? x
  | _ => false
  end.

Definition nearer (x p lo : Z) : Z :=
  let hi := lo + 1 in
  if x - lo * p <? hi * p - x then lo
  else if hi * p - x <? x - lo * p then hi
  else if Z.even lo then lo else hi.

Fixpoint shortest_digits (x nd : Z) (ks : list Z) : option (Z * Z) :=
  match ks with
  | [] => None
  | k :: rest =>
      let p := 10 ^ (nd - k) in
      let lo := x / p in
      let found :=
        match rounds_to x (lo * p), rounds_to x ((lo + 1) * p) with
        | true, true => Some (nearer x p lo)
        | true, false => Some lo
        | false, true => Some (lo + 1)
        | false, false => None
        end in
      match found with
      | Some s => if s =? 10 ^ k then Some (1, nd) else Some (s, nd - 1)
      | None => shortest_digits x nd rest
      end
  end.

Definition exponential (n : Z) : string :=
  let sign := if n <? 0 then "-" else "" in
  let x := Z.abs n in
  let nd := Z.of_nat (String.length (Z_to_string x)) in
  let '(s, power) :=
    match shortest_digits x nd [1; 2; 3; 4; 5; 6; 7; 8; 9; 10; 11; 12; 13; 14; 15; 16; 17] with
    | Some sp => sp
    | None => (x, nd - 1)
    end in
  match Z_to_string s with
  | String d EmptyString => sign +:+ String d "e+" +:+ Z_to_string power
  | String d fraction =>
      sign +:+ String d ("." +:+ fraction) +:+ "e+" +:+ Z_to_string power
  | EmptyString => "NaN"
  end.

(** *** JSON text from a value *)

Definition hex_digit (n : N) : ascii :=
  if (n <? 10)%N then ascii_of_N (48 + n) else ascii_of_N (87 + n).

Definition escape (c : ascii) : string :=
  let n := code c in
  if Ascii.eqb c dquote then String backslash (String dquote EmptyString)
  else if Ascii.eqb c backslash then String backslash (String backslash EmptyString)
  else if (n =? 8)%N then String backslash "b"
  else if (n =? 9)%N then String backslash "t"
  else if (n =? 10)%N then String backslash "n"
  else if (n =? 12)%N then String backslash "f"
  else if (n =? 13)%N then String backslash "r"
  else if (n <? 32)%N then
    String backslash
      (String "u" (String "0" (String "0"
         (String (hex_digit (n / 16)) (String (hex_digit (n mod 16)) EmptyString)))))
  else String c EmptyString.

Fixpoint quote_body (s : string) : string :=
  match s with
  | String c rest => escape c +:+ quote_body rest
  | EmptyString => String dquote EmptyString
  end.

Definition quote (s : string) : string := String dquote (quote_body s).

(** A number is written as [String] writes it. *)
Definition number_text (n : Z) : string :=
  if Z.abs n <? 10 ^ 21 then Z_to_string n else exponential n.

(** A member whose value is [undefined] is left out of an object; in an
    array [undefined] is written [null]. *)
Fixpoint stringify (v : JsVal) : string :=
  match v with
  | JUndefined => "undefined"
  | JNull => "null"
  | JBool true => "true"
  | JBool false => "false"
  | JNum n => number_text n
  | JStr s => quote s
  | JArr l =>
      "[" +:+
      (fix elements (l : list JsVal) : string :=
         match l with
         | [] => "]"
         | x :: rest =>
             let sx := match x with JUndefined => "null" | _ => stringify x end in
             match rest with
             | [] => sx +:+ "]"
             | _ :: _ => sx +:+ "," +:+ elements rest
             end
         end) l
  | JObj fields =>
      "{" +:+
      (fix members (first : bool) (l : list (string * JsVal)) : string :=
         match l with
         | [] => "}"
         | (k, JUndefined) :: rest => members first rest
         | (k, x) :: rest =>
             (if first then "" else ",") +:+ quote k +:+ ":" +:+ stringify x
             +:+ members false rest
         end) true fields
  end.

(** *** A value from JSON text *)

Definition is_json_space (c : ascii) : bool :=
  let n := code c in ((n =? 32) || (n =? 9) || (n =? 10) || (n =? 13))%N.

Fixpoint skip_ws (s : string) : string :=
  match s with
  | String c rest => if is_json_space c then skip_ws rest else s
  | EmptyString => EmptyString
  end.

Definition hex_value (c : ascii) : option N :=
  let n := code c in
  if ((48 <=? n) && (n <=? 57))%N then Some (n - 48)%N
  else if ((97 <=? n) && (n <=? 102))%N then Some (n - 87)%N
  else if ((65 <=? n) && (n <=? 70))%N then Some (n - 55)%N
  else None.

Definition unescape (e : ascii) : option ascii :=
  if Ascii.eqb e dquote then Some dquote
  else if Ascii.eqb e backslash then Some backslash
  else if Ascii.eqb e "/" then Some "/"%char
  else if Ascii.eqb e "b" then Some (ascii_of_N 8)
  else if Ascii.eqb e "t" then Some (ascii_of_N 9)
  else if Ascii.eqb e "n" then Some (ascii_of_N 10)
  else if Ascii.eqb e "f" then Some (ascii_of_N 12)
  else if Ascii.eqb e "r" then Some (ascii_of_N 13)
  else None.

(** The rest of a string literal, after its opening quote.  An escape
    [\uXXXX] is read when it names a code unit below 256. *)
Fixpoint parse_string_body (s : string) : option (string * string) :=
  match s with
  | EmptyString => None
  | String c rest =>
      if Ascii.eqb c dquote then Some (EmptyString, rest)
      else if Ascii.eqb c backslash then
        match rest with
        | String "u" (String h1 (String h2 (String h3 (String h4 rest')))) =>
            a ← hex_value h1; b ← hex_value h2;
            c ← hex_value h3; d ← hex_value h4;
            if ((a =? 0) && (b =? 0))%N then
              '(t, tl) ← parse_string_body rest';
              Some (String (ascii_of_N (16 * c + d)) t, tl)
            else None
        | String e rest' =>
            x ← unescape e;
            '(t, tl) ← parse_string_body rest';
            Some (String x t, tl)
        | EmptyString => None
        end
      else if (code c <? 32)%N then None
      else
        '(t, tl) ← parse_string_body rest;
        Some (String c t, tl)
  end.

(** An integer literal; a fraction or an exponent is not read. *)
Definition parse_number (s : string) : option (Z * string) :=
  let '(neg, body) :=
    match s with
    | String "-" rest => (true, rest)
    | _ => (false, s)
    end in
  match span_digits body with
  | (String d ds' as ds, tl) =>
      let leading_zero := Ascii.eqb d "0" && negb (String.eqb ds' "") in
      let more := match tl with
                  | String c _ => Ascii.eqb c "." || Ascii.eqb c "e" || Ascii.eqb c "E"
                  | EmptyString => false
                  end in
      if leading_zero || more then None
      else Some (if neg then - decimal_value ds else decimal_value ds, tl)
  | _ => None
  end.

Definition after_prefix (pre s : string) : option string :=
  if startsWith s pre then Some (String.substring (String.length pre)
                                   (String.length s - String.length pre) s)
  else None.

(** [obj[k] = v] while an object is read: a repeated key keeps its place
    and takes the later value. *)
Fixpoint set_field (k : string) (v : JsVal) (fields : list (string * JsVal))
  : list (string * JsVal) :=
  match fields with
  | [] => [(k, v)]
  | (k', v') :: rest =>
      if String.eqb k k' then (k, v) :: rest else (k', v') :: set_field k v rest
  end.

Fixpoint parse_value (fuel : nat) (s : string) : option (JsVal * string) :=
  match fuel with
  | O => None
  | S fuel' =>
      match skip_ws s with
      | String "[" rest =>
          match skip_ws rest with
          | String "]" rest' => Some (JArr [], rest')
          | _ => parse_elements fuel' rest []
          end
      | String "{" rest =>
          match skip_ws rest with
          | String "}" rest' => Some (JObj [], rest')
          | _ => parse_members fuel' rest []
          end
      | String c rest as t =>
          if Ascii.eqb c dquote then
            '(str, tl) ← parse_string_body rest; Some (JStr str, tl)
          else if Ascii.eqb c "n" then tl ← after_prefix "null" t; Some (JNull, tl)
          else if Ascii.eqb c "t" then tl ← after_prefix "true" t; Some (JBool true, tl)
          else if Ascii.eqb c "f" then tl ← after_prefix "false" t; Some (JBool false, tl)
          else '(n, tl) ← parse_number t; Some (JNum n, tl)
      | EmptyString => None
      end
  end
with parse_elements (fuel : nat) (s : string) (acc : list JsVal)
  : option (JsVal * string) :=
  match fuel with
  | O => None
  | S fuel' =>
      match parse_value fuel' s with
      | Some (v, rest) =>
          match skip_ws rest with
          | String "," rest' => parse_elements fuel' rest' (acc ++ [v])
          | String "]" rest' => Some (JArr (acc ++ [v]), rest')
          | _ => None
          end
      | None => None
      end
  end
with parse_members (fuel : nat) (s : string) (acc : list (string * JsVal))
  : option (JsVal * string) :=
  match fuel with
  | O => None
  | S fuel' =>
      match skip_ws s with
      | String c rest =>
          if Ascii.eqb c dquote then
            match parse_string_body rest with
            | Some (k, rest1) =>
                match skip_ws rest1 with
                | String ":" rest2 =>
                    match parse_value fuel' rest2 with
                    | Some (v, rest3) =>
                        match skip_ws rest3 with
                        | String "," rest4 => parse_members fuel' rest4 (set_field k v acc)
                        | String "}" rest4 => Some (JObj (set_field k v acc), rest4)
                        | _ => None
                        end
                    | None => None
                    end
                | _ => None
                end
            | None => None
            end
          else None
      | EmptyString => None
      end
  end.

Definition parse (s : string) : option JsVal :=
  match parse_value (2 * String.length s + 2) s with
  | Some (v, rest) => if String.eqb (skip_ws rest) "" then Some v else None
  | None => None
  end.

Definition platform : Platform := {|
  Date_parse := date_parse;
  StringToNumber := string_to_number;
  Number_exponential := exponential;
  JSON_stringify := stringify;
  JSON_parse := parse;
  JSON_parse_empty := eq_refl
|}.

End Reference.

(* ===================================================================== *)
(** ** Words of the specification *)
(* ===================================================================== *)

(** The properties below are stated with these declarative readings of
    "digits", "surrounding white space", "first substring of the form
    d.d.d", "ends with, ignoring case" and "contains, ignoring case"; the
    functions above are then shown to compute them. *)

Fixpoint all_digits (s : string) : bool :=
  match s with
  | String c rest => is_digit c && all_digits rest
  | EmptyString => true
  end.

Fixpoint all_space (s : string) : bool :=
  match s with
  | String c rest => is_space c && all_space rest
  | EmptyString => true
  end.

Definition head_is (p : ascii -> bool) (s : string) : bool :=
  match s with
  | String c _ => p c
  | EmptyString => false
  end.

Fixpoint last_is (p : ascii -> bool) (s : string) : bool :=
  match s with
  | String c EmptyString => p c
  | String _ rest => last_is p rest
  | EmptyString => false
  end.

(** A non-empty run of decimal digits. *)
Definition digits (s : string) : Prop := s <> EmptyString /\ all_digits s = true.

(** [t] is [s] without the white space around it. *)
Definition trimmed_of (s t : string) : Prop :=
  exists l r, s = l +:+ t +:+ r
              /\ all_space l = true /\ all_space r = true
              /\ head_is is_space t = false /\ last_is is_space t = false.

(** [t] is [u] without one leading "v" or "V", if it has one. *)
Definition v_stripped_of (u t : string) : Prop :=
  u = String "v" t \/ u = String "V" t
  \/ (u = t /\ head_is (fun c => Ascii.eqb c "v" || Ascii.eqb c "V") t = false).

(** [s] reads [d1.d2.d3] right after [pre]. *)
Definition version_at (s pre d1 d2 d3 post : string) : Prop :=
  s = pre +:+ d1 +:+ "." +:+ d2 +:+ "." +:+ d3 +:+ post
  /\ digits d1 /\ digits d2 /\ digits d3.

Definition has_version (s : string) : Prop :=
  exists pre d1 d2 d3 post, version_at s pre d1 d2 d3 post.

(** The first substring of the form d.d.d: none starts further left, and it
    runs on to the last digit of its third group. *)
Definition first_version (s d1 d2 d3 : string) : Prop :=
  exists pre post,
    version_at s pre d1 d2 d3 post
    /\ head_is is_digit post = false
    /\ forall pre' e1 e2 e3 post',
         version_at s pre' e1 e2 e3 post' ->
         (String.length pre <= String.length pre')%nat.

(** The letter a code unit counts as when case is ignored: A-Z as a-z. *)
Definition fold_case (c : ascii) : ascii :=
  let n := code c in
  if ((65 <=? n) && (n <=? 90))%N then ascii_of_N (n + 32) else c.

Fixpoint fold_case_string (s : string) : string :=
  match s with
  | String c rest => String (fold_case c) (fold_case_string rest)
  | EmptyString => EmptyString
  end.

(** [name] ends with [ext], ignoring case ([ext] in lower case). *)
Definition ends_with_ci (name ext : string) : Prop :=
  exists pre suf, name = pre +:+ suf /\ fold_case_string suf = ext.

(** [name] contains [word], ignoring case ([word] in lower case). *)
Definition contains_ci (name word : string) : Prop :=
  exists pre mid post, name = pre +:+ mid +:+ post /\ fold_case_string mid = word.

(** The name of an asset, when it has one that is a string. *)
Definition asset_name (a : JsVal) : option string :=
  match get_prop a "name" with
  | JStr s => Some s
  | _ => None
  end.

(** An asset that is an installer: its name ends with ".exe", ignoring case. *)
Definition is_installer (a : JsVal) : Prop :=
  exists name, asset_name a = Some name /\ ends_with_ci name ".exe".

(** It names the product and a role. *)
Definition names_product (a : JsVal) : Prop :=
  exists name, asset_name a = Some name /\ contains_ci name "opendrop".

Definition names_role (a : JsVal) : Prop :=
  exists name, asset_name a = Some name
    /\ (contains_ci name "server" \/ contains_ci name "setup"
        \/ contains_ci name "installer" \/ contains_ci name "windows").

(** [x] is the first element of [l] with property [P]. *)
Definition first_with {A} (P : A -> Prop) (l : list A) (x : A) : Prop :=
  exists before after, l = before ++ x :: after /\ P x /\ forall y, In y before -> ~ P y.

(** The version three runs of digits stand for. *)
Definition semver_of (d1 d2 d3 : string) : Semver :=
  mkSemver (Number_digits d1) (Number_digits d2) (Number_digits d3).

(** Every code unit is below 128. *)
Fixpoint below_128 (s : string) : bool :=
  match s with
  | String c rest => (code c <? 128)%N && below_128 rest
  | EmptyString => true
  end.

(** The three tiers of the specification. *)
Definition preferred_installer (a : JsVal) : Prop :=
  is_installer a /\ names_product a /\ names_role a.

Definition product_installer (a : JsVal) : Prop :=
  is_installer a /\ names_product a.


(** *** The numbers of a version *)

(** A number that is a finite double. *)
Definition finite (d : Double) : Prop := exists z, d = Finite z.

(** What a run of digits can read as: an integer that is not negative, or
    [Infinity]. *)
Definition version_number (d : Double) : Prop :=
  d = PosInf \/ exists z, d = Finite z /\ 0 <= z.

(** A version none of whose numbers is [NaN]. *)
Definition numeric (v : Semver) : Prop :=
  major v <> NaN /\ minor v <> NaN /\ patch v <> NaN.

(* ===================================================================== *)
(** ** Readings of the cache and of the request *)
(* ===================================================================== *)

(** The stored entry [cacheRelease] writes. *)
Definition cache_entry (now : Z) (release : JsVal) : JsVal :=
  JObj [("ts", JNum now); ("release", release)].

Section CacheReadings.
Context `{Platform}.

(** The test [isValid] of a decoded entry passes: it raises nothing and
    gives a truthy value. *)
Definition fresh (now : Z) (cached : JsVal) : bool :=
  match isValid now cached with
  | Ok valid => truthy valid
  | Throw _ => false
  end.

(** What [getCachedRelease] gives, read off the storage. *)
Definition cached_value (now : Z) (st : Storage) : JsVal :=
  if available st then
    match items st !! CONFIG.cacheKey with
    | Some raw =>
        if String.eqb raw "" then JNull
        else
          match JSON_parse raw with
          | Some cached =>
              if fresh now cached then get_prop cached "release" else JNull
          | None => JNull
          end
    | None => JNull
    end
  else JNull.

(** The world after a write that storage takes. *)
Definition stored (now : Z) (release : JsVal) (w : World) : World :=
  mkWorld
    (mkStorage true
       (<[CONFIG.cacheKey := JSON_stringify (cache_entry now release)]> (items (storage w)))
       (capacity (storage w)))
    (document w) (console w).

(** Storage takes the write: it is available and the entry fits. *)
Definition write_accepted (now : Z) (release : JsVal) (w : World) : bool :=
  available (storage w)
  && (usage (<[CONFIG.cacheKey := JSON_stringify (cache_entry now release)]>
               (items (storage w)))
      <=? capacity (storage w))%nat.

(** The cache has nothing to give: [getCachedRelease] ends with a falsy
    value. *)
Definition cache_miss (now : Z) (w : World) : Prop :=
  exists v, getCachedRelease now w = (Ok v, w) /\ truthy v = false.

(** The request fails in transport: no response, or a response whose status
    is not a success. *)
Definition transport_failure (net : FetchOutcome) : Prop :=
  net = Rejected \/ exists r, net = Resolved r /\ ok r = false.

End CacheReadings.

(* ===================================================================== *)
(** ** Sample data *)
(* ===================================================================== *)

Module Sample.

Definition portable : JsVal := JObj [("name", JStr "opendrop-portable.EXE")].

Definition installer : JsVal :=
  JObj [("name", JStr "OpenDrop-Setup.exe");
        ("browser_download_url",
         JStr "https://github.com/nfantinodyer/nfdgames/releases/download/v1.2.0/OpenDrop-Setup.exe")].

Definition release : JsVal :=
  JObj [("tag_name", JStr "v1.2.0");
        ("draft", JBool false);
        ("prerelease", JBool false);
        ("published_at", JStr "2024-01-15T12:00:00Z");
        ("html_url", JStr "https://github.com/nfantinodyer/nfdgames/releases/tag/v1.2.0");
        ("assets", JArr [JObj [("name", JStr "notes.txt")]; portable; installer])].

(** The same version under three other tags: published a day after
    [release], an hour before it, and with no date. *)
Definition rebuilt : JsVal :=
  JObj [("tag_name", JStr "1.2.0");
        ("published_at", JStr "2024-01-16T12:00:00Z")].

Definition first_build : JsVal :=
  JObj [("tag_name", JStr "release-1.2.0");
        ("published_at", JStr "2024-01-15T11:00:00Z")].

Definition undated : JsVal := JObj [("tag_name", JStr "V1.2.0")].

Definition draft : JsVal :=
  JObj [("tag_name", JStr "v2.0.0"); ("draft", JBool true)].

Definition beta : JsVal :=
  JObj [("tag_name", JStr "v1.3.0-beta"); ("prerelease", JBool true)].

Definition nightly : JsVal := JObj [("tag_name", JStr "nightly")].

Definition latest : JsVal := JObj [("tag_name", JStr "latest")].

(** A tag whose first number is one more than 2^53, and a tag whose patch
    number has 309 digits. *)
Definition wide_tag : string := "v9007199254740993.0.0".

Fixpoint nines (n : nat) : string :=
  match n with
  | O => EmptyString
  | S n' => String "9" (nines n')
  end.

Definition long_tag : string := "1.0." +:+ nines 309.



(** A release whose page address is an object with a [toString] entry. *)
Definition odd_release : JsVal :=
  JObj [("tag_name", JStr "v1.2.0");
        ("html_url", JObj [("toString", JNum 1)])].

(** A release whose tag is such an object. *)
Definition odd_tag : JsVal :=
  JObj [("tag_name", JObj [("toString", JNum 1)])].

(** A response that is not a success: the API's rate limit. *)
Definition rate_limited : Response := mkResponse false 403 None.

(** A response with three releases. *)
Definition listing : Response :=
  mkResponse true 200 (Some (JArr [draft; beta; release])).

Definition page : gmap string Element :=
  list_to_map
    [(ELEMENTS.badgeText, mkElement "Coming soon" JUndefined JUndefined);
     (ELEMENTS.badgeLink, mkElement "" (JStr URLS.releasesPage) JUndefined);
     (ELEMENTS.versionText, mkElement "64-bit" JUndefined JUndefined);
     (ELEMENTS.heroDownload,
      mkElement "Download" (JStr "#download") (JStr URLS.releasesPage));
     (ELEMENTS.windowsDownload, mkElement "Download for Windows" (JStr "#") JUndefined)].

(** Storage with room, and storage with room for nothing. *)
Definition world : World := mkWorld (mkStorage true ∅ 5000) page [].
Definition full_world : World := mkWorld (mkStorage true ∅ 0) page [].
Definition blocked_world : World := mkWorld (mkStorage false ∅ 5000) page [].

(** 2024-01-15T12:00:00Z, in milliseconds. *)
Definition noon : Z := 1705320000000.

(** Storage holding the entry written at time 0. *)
Definition epoch_text : string := Reference.stringify (cache_entry 0 release).
Definition epoch_world : World :=
  mkWorld (mkStorage true {[CONFIG.cacheKey := epoch_text]} 5000) page [].

(** Storage holding a fresh entry of [odd_release]. *)
Definition odd_world : World :=
  mkWorld (mkStorage true
             {[CONFIG.cacheKey := Reference.stringify (cache_entry noon odd_release)]}
             5000)
          page [].

End Sample.

(* ===================================================================== *)
(** ** Ranking of releases *)
(* ===================================================================== *)

(** The order on numbers that are not [NaN]. *)
Definition Double_lt (x y : Double) : Prop := Double_ltb x y = true.

(** The order on versions: by major, then minor, then patch. *)
Definition lex_lt (a b : Semver) : Prop :=
  Double_lt (major a) (major b)
  \/ (major a = major b
      /\ (Double_lt (minor a) (minor b)
          \/ (minor a = minor b /\ Double_lt (patch a) (patch b)))).

(** The opposite of a number. *)
Definition Double_opp (x : Double) : Double :=
  match x with
  | Finite z => Finite (- z)
  | PosInf => NegInf
  | NegInf => PosInf
  | NaN => NaN
  end.

(** A version with a publication time ranks above another, as the loop
    compares them: its version compares greater, or the versions compare
    equal and its time is later. *)
Definition ranks_above (k1 k2 : Semver * Z) : Prop :=
  is_positive (compareSemver (fst k1) (fst k2)) = true
  \/ (is_zero (compareSemver (fst k1) (fst k2)) = true /\ snd k1 > snd k2).

Section Ranking.
Context `{Platform}.

(** The version a release carries in its tag, when it parses. *)
Definition version_of (release : JsVal) : Res (option Semver) :=
  parseSemver (get_prop release "tag_name").

(** Version and time of a release, when it has both. *)
Definition rank_of (release : JsVal) : option (Semver * Z) :=
  match version_of release, published_time release with
  | Ok (Some v), Ok (Some t) => Some (v, t)
  | _, _ => None
  end.

(** Every release of the list whose tag parses has a time that is a number. *)
Definition all_dated (l : list JsVal) : Prop :=
  forall c v, In c l -> version_of c = Ok (Some v) ->
              exists t, published_time c = Ok (Some t).

(** A release whose tag and date are not objects, as the API writes them:
    reading them raises nothing. *)
Definition plain_release (release : JsVal) : Prop :=
  primitive (get_prop release "tag_name") = true
  /\ primitive (get_prop release "published_at") = true.

(** The running best of the loop, when it holds a release, holds such a
    one. *)
Definition plain_best (best : option (JsVal * Semver)) : Prop :=
  forall b vb, best = Some (b, vb) -> plain_release b.

End Ranking.

(* ===================================================================== *)
(** ** Readings of the presentation *)
(* ===================================================================== *)

Section PresentationReadings.
Context `{Platform}.

(** [String(v)] gives text. *)
Definition coercible (v : JsVal) : bool :=
  match ToString v with
  | Ok _ => true
  | Throw _ => false
  end.

(** [String(release.tag_name || '')] *)
Definition tag_text (release : JsVal) : Res string :=
  ToString (js_or (get_prop release "tag_name") (JStr "")).

End PresentationReadings.

(** The tag as [updateReleaseUI] shows it, from its text: trimmed, without
    a leading "v". *)
Definition cleaned_of (text : string) : string := strip_v (trim text).

(** The address [updateReleaseUI] gives the badge. *)
Definition page_url (release : JsVal) : JsVal :=
  js_or (get_prop release "html_url") (JStr URLS.latestRelease).

(** The address [updateReleaseUI] gives the two download buttons. *)
Definition download_url (release : JsVal) : JsVal :=
  js_or (js_or (get_prop (pickWindowsAsset (get_prop release "assets"))
                         "browser_download_url")
               (get_prop release "html_url"))
        (JStr URLS.latestRelease).

(** The five elements the script writes, in the order it writes them. *)
Definition written_ids : list string :=
  [ELEMENTS.badgeText; ELEMENTS.badgeLink; ELEMENTS.versionText;
   ELEMENTS.heroDownload; ELEMENTS.windowsDownload].

(** The element [updateReleaseUI] leaves under [id], from the one that was
    there, when it runs to its end; [text] is the text of the tag. *)
Definition shown (text : string) (release : JsVal) (id : string) (el : Element)
  : Element :=
  let cleaned := cleaned_of text in
  if decide (id = ELEMENTS.badgeText) then
    with_text (if truthy (JStr cleaned)
               then "Version " +:+ cleaned +:+ " " +:+ bullet +:+ " Now Available"
               else "Now Available") el
  else if decide (id = ELEMENTS.badgeLink) then with_href (page_url release) el
  else if decide (id = ELEMENTS.versionText) then
    with_text (if truthy (JStr cleaned)
               then "v" +:+ cleaned +:+ " " +:+ bullet +:+ " 64-bit"
               else "64-bit") el
  else if decide (id = ELEMENTS.heroDownload) then with_href (download_url release) el
  else if decide (id = ELEMENTS.windowsDownload) then with_href (download_url release) el
  else el.

(** The same when only the first [n] of the five writes are made. *)
Definition shown_first (n : nat) (text : string) (release : JsVal)
           (id : string) (el : Element) : Element :=
  if existsb (String.eqb id) (firstn n written_ids) then shown text release id el
  else el.

(** The page after the first [n] writes. *)
Definition stage (n : nat) (text : string) (release : JsVal)
           (doc : gmap string Element) : gmap string Element :=
  map_imap (fun id el => Some (shown_first n text release id el)) doc.

Definition with_document (doc : gmap string Element) (w : World) : World :=
  mkWorld (storage w) doc (console w).

(** A release whose tag, page address and installer address are not
    objects, as the API writes them: presenting it raises nothing. *)
Definition plain_presentation (release : JsVal) : Prop :=
  primitive (get_prop release "tag_name") = true
  /\ primitive (get_prop release "html_url") = true
  /\ primitive (get_prop (pickWindowsAsset (get_prop release "assets"))
                         "browser_download_url") = true.

(** Whether the page has an element with this id. *)
Definition has_element (doc : gmap string Element) (id : string) : bool :=
  match doc !! id with
  | Some _ => true
  | None => false
  end.

Section PresentationOutcome.
Context `{Platform}.

(** The write of [updateReleaseUI] that raises, if one does, as the number
    of writes made before it: the address of the badge after one write, the
    address of a download button after three. *)
Definition failing_write (release : JsVal) (doc : gmap string Element) : option nat :=
  if has_element doc ELEMENTS.badgeLink && negb (coercible (page_url release))
  then Some 1%nat
  else if (has_element doc ELEMENTS.heroDownload
           || has_element doc ELEMENTS.windowsDownload)
          && negb (coercible (download_url release))
  then Some 3%nat
  else None.

(** What [updateReleaseUI] does with a truthy release, read off the page. *)
Definition presentation (release : JsVal) (w : World) : Res unit * World :=
  match tag_text release with
  | Throw e => (Throw e, w)
  | Ok text =>
      match failing_write release (document w) with
      | Some n => (Throw TypeError, with_document (stage n text release (document w)) w)
      | None => (Ok tt, with_document (stage 5 text release (document w)) w)
      end
  end.

(** The update runs to its end. *)
Definition completes (release : JsVal) (w : World) : Prop :=
  fst (updateReleaseUI release w) = Ok tt.

(** The page an update leaves. *)
Definition page_after (release : JsVal) (w : World) : gmap string Element :=
  document (snd (updateReleaseUI release w)).

End PresentationOutcome.

(** Whether a value is [null]. *)
Definition JsVal_is_null (v : JsVal) : bool :=
  match v with JNull => true | _ => false end.


(* ===================================================================== *)
(** ** The navigation bar (common utilities) *)
(* ===================================================================== *)

(** [initNavScroll] of the common utilities.  The class list of an element
    is the list of its class tokens, in order; [window.scrollY] is a
    rational (every finite double is one). *)
Module Common.

Definition SCROLL_THRESHOLD : Q := 50%Q.

(** [a > b] on numbers. *)
Definition Qgt_bool (a b : Q) : bool := negb (Qle_bool a b).

(** [classList.add(token)]: the token goes to the end unless it is there. *)
Definition classList_add (token : string) (classes : list string) : list string :=
  if existsb (String.eqb token) classes then classes else classes ++ [token].

(** [classList.remove(token)] *)
Definition classList_remove (token : string) (classes : list string) : list string :=
  List.filter (fun c => negb (String.eqb c token)) classes.

(** [updateNav], on the class list of the [nav] element. *)
Definition updateNav (scrollY : Q) (classes : list string) : list string :=
  if Qgt_bool scrollY SCROLL_THRESHOLD
  then classList_add "scrolled" classes
  else classList_remove "scrolled" classes.

(** The window: where it is scrolled to, the class list of the first [nav]
    element ([None] when the page has none), and how many [updateNav]
    listeners its scroll event has. *)
Record Window : Type := mkWindow {
  scrollY : Q;
  nav : option (list string);
  scroll_listeners : nat
}.

Definition initNavScroll (win : Window) : Window :=
  match nav win with
  | None => win
  | Some classes =>
      mkWindow (scrollY win)
               (Some (updateNav (scrollY win) classes))
               (S (scroll_listeners win))
  end.

(** The page is scrolled to [y]: every listener runs, each reading the new
    position. *)
Definition scroll (y : Q) (win : Window) : Window :=
  mkWindow y
           (Nat.iter (scroll_listeners win) (updateNav y) <$> nav win)
           (scroll_listeners win).

(** What holds of the window once [initNavScroll] has run on a page with a
    [nav] element of classes [classes], and after every scroll since. *)
Definition nav_in_step (classes : list string) (win : Window) : Prop :=
  (0 < scroll_listeners win)%nat
  /\ exists now_classes,
       nav win = Some now_classes
       /\ (In "scrolled" now_classes <-> (50 < scrollY win)%Q)
       /\ classList_remove "scrolled" now_classes = classList_remove "scrolled" classes.

End Common.

(* ===================================================================== *)
(** ** More sample data *)
(* ===================================================================== *)

Module MoreSamples.

(** A feed in no particular order: a draft, a release without a version,
    four releases of version 1.2.0 and a prerelease. *)
Definition feed : list JsVal :=
  [Sample.draft; Sample.nightly; Sample.first_build; Sample.release;
   Sample.rebuilt; Sample.undated; Sample.beta].

(** A successful response that holds only a draft. *)
Definition only_a_draft : Response :=
  mkResponse true 200 (Some (JArr [Sample.draft])).

(** Successful responses whose one release has an address that does not
    convert to text, and whose first release has such a tag. *)
Definition odd_listing : Response :=
  mkResponse true 200 (Some (JArr [Sample.odd_release])).

Definition odd_tags : Response :=
  mkResponse true 200 (Some (JArr [Sample.odd_tag; Sample.rebuilt])).

(** The world after a first visit at noon. *)
Definition visited : World :=
  snd (@fetchLatestRelease Reference.platform Sample.noon Sample.noon
         (Resolved Sample.listing) Sample.world).

(** A page scrolled a little, with a navigation bar. *)
Definition window : Common.Window :=
  Common.mkWindow 12%Q (Some ["navbar"; "dark"]) 0.

End MoreSamples.

(** ** Strings: lemmas *)
(* ===================================================================== *)

#[local] Arguments String.append !s1 s2 : simpl nomatch.
#[local] Arguments String.length !s : simpl nomatch.

Lemma append_nil_r (s : string) : s +:+ "" = s.
Proof. induction s as [|c s IH]; simpl; [reflexivity | now rewrite IH]. Qed.

Lemma append_assoc (a b c : string) : (a +:+ b) +:+ c = a +:+ b +:+ c.
Proof. induction a as [|x a IH]; simpl; [reflexivity | now rewrite IH]. Qed.

Lemma length_append (a b : string) :
  String.length (a +:+ b) = (String.length a + String.length b)%nat.
Proof. induction a as [|x a IH]; simpl; [reflexivity | now rewrite IH]. Qed.

Lemma append_same_length_inj (a a' b b' : string) :
  String.length a = String.length a' -> a +:+ b = a' +:+ b' -> a = a' /\ b = b'.
Proof.
  revert a'. induction a as [|x a IH]; intros [|x' a']; simpl; try discriminate.
  - intros _ E. now split.
  - intros L E. injection L as L. injection E as -> E.
    destruct (IH _ L E) as [-> ->]. now split.
Qed.

Lemma all_digits_app (a b : string) :
  all_digits (a +:+ b) = all_digits a && all_digits b.
Proof.
  induction a as [|c a IH]; simpl; [reflexivity|].
  rewrite IH. now rewrite andb_assoc.
Qed.

Lemma dot_not_digit : is_digit "." = false.
Proof. reflexivity. Qed.

(** *** [span_digits] takes exactly the leading digits *)

Lemma span_digits_spec (s ds tl : string) :
  span_digits s = (ds, tl) ->
  s = ds +:+ tl /\ all_digits ds = true /\ head_is is_digit tl = false.
Proof.
  revert ds tl. induction s as [|c s IH]; simpl; intros ds tl E.
  - injection E as <- <-. repeat split.
  - destruct (is_digit c) eqn:Hc.
    + destruct (span_digits s) as [ds' tl'] eqn:Hs.
      injection E as <- <-. destruct (IH _ _ eq_refl) as (-> & Hd & Ht).
      simpl. rewrite Hc, Hd. repeat split. exact Ht.
    + injection E as <- <-. simpl. rewrite Hc. repeat split.
Qed.

Lemma span_digits_app (ds tl : string) :
  all_digits ds = true -> head_is is_digit tl = false ->
  span_digits (ds +:+ tl) = (ds, tl).
Proof.
  induction ds as [|c ds IH]; simpl; intros Hd Ht.
  - destruct tl as [|c tl]; simpl in *; [reflexivity | now rewrite Ht].
  - apply andb_true_iff in Hd as [Hc Hd]. rewrite Hc, (IH Hd Ht). reflexivity.
Qed.

(** Any split of [s] into digits and a rest is completed by [span_digits]:
    it takes those digits and the digits the rest begins with. *)
Lemma span_digits_extend (ds tl : string) :
  all_digits ds = true ->
  exists more tl', span_digits (ds +:+ tl) = (ds +:+ more, tl')
                   /\ tl = more +:+ tl' /\ all_digits more = true
                   /\ head_is is_digit tl' = false.
Proof.
  intros Hd. destruct (span_digits tl) as [more tl'] eqn:E.
  destruct (span_digits_spec _ _ _ E) as (-> & Hm & Ht).
  exists more, tl'. repeat split; try assumption.
  rewrite <- append_assoc. apply span_digits_app; [|exact Ht].
  rewrite all_digits_app, Hd, Hm. reflexivity.
Qed.

(** *** The pattern at the head of a string *)

Lemma digits_cons (d : string) : digits d -> exists c r, d = String c r.
Proof. intros [Hne _]. destruct d as [|c r]; [contradiction | eauto]. Qed.

Lemma head_dot_not_digit (s : string) : head_is is_digit ("." +:+ s) = false.
Proof. reflexivity. Qed.

(** A version at the head of [s] is matched, its third group taking the
    digits that follow it. *)
Lemma match_here_complete (s e1 e2 e3 post' : string) :
  version_at s "" e1 e2 e3 post' ->
  exists more post,
    match_here s = Some (e1, e2, e3 +:+ more)
    /\ post' = more +:+ post /\ all_digits more = true
    /\ head_is is_digit post = false.
Proof.
  intros (-> & [N1 D1] & [N2 D2] & [N3 D3]). simpl.
  destruct (span_digits_extend e3 post' D3) as (more & post & E3 & -> & Hm & Hp).
  exists more, post. repeat split; try assumption.
  unfold match_here.
  rewrite (span_digits_app e1); [|exact D1|reflexivity].
  destruct e1 as [|c1 r1]; [contradiction|].
  rewrite (span_digits_app e2); [|exact D2|reflexivity].
  destruct e2 as [|c2 r2]; [contradiction|].
  rewrite E3. destruct e3 as [|c3 r3]; [contradiction|]. reflexivity.
Qed.

Lemma match_here_sound (s d1 d2 d3 : string) :
  match_here s = Some (d1, d2, d3) ->
  exists post, version_at s "" d1 d2 d3 post /\ head_is is_digit post = false.
Proof.
  unfold match_here.
  destruct (span_digits s) as [a r1] eqn:E1.
  destruct (span_digits_spec _ _ _ E1) as (-> & Da & _).
  destruct a as [|ca a']; [discriminate|].
  destruct r1 as [|x r1]; [discriminate|].
  destruct (Ascii.eqb_spec x ".") as [->|Hx].
  2:{ destruct x as [[] [] [] [] [] [] [] []]; try discriminate; contradiction. }
  destruct (span_digits r1) as [b r2] eqn:E2.
  destruct (span_digits_spec _ _ _ E2) as (-> & Db & _).
  destruct b as [|cb b']; [simpl; discriminate|].
  destruct r2 as [|y r2]; [simpl; discriminate|].
  destruct (Ascii.eqb_spec y ".") as [->|Hy].
  2:{ destruct y as [[] [] [] [] [] [] [] []]; try discriminate; contradiction. }
  destruct (span_digits r2) as [c post] eqn:E3.
  destruct (span_digits_spec _ _ _ E3) as (-> & Dc & Hp).
  destruct c as [|cc c']; [simpl; discriminate|].
  intros E. injection E as <- <- <-.
  exists post. split; [|exact Hp].
  split; [|repeat split; (discriminate || assumption)].
  reflexivity.
Qed.

Lemma match_here_exact (s d1 d2 d3 post : string) :
  version_at s "" d1 d2 d3 post -> head_is is_digit post = false ->
  match_here s = Some (d1, d2, d3).
Proof.
  intros V Hp.
  destruct (match_here_complete _ _ _ _ _ V) as (more & post' & E & -> & Hm & _).
  destruct more as [|c more].
  - now rewrite append_nil_r in E.
  - simpl in Hp, Hm. rewrite Hp in Hm. discriminate.
Qed.

(** *** The leftmost match *)

Lemma version_at_cons (c : ascii) (s pre d1 d2 d3 post : string) :
  version_at s pre d1 d2 d3 post ->
  version_at (String c s) (String c pre) d1 d2 d3 post.
Proof. intros (-> & D). split; [reflexivity | exact D]. Qed.

Lemma version_at_uncons (c c' : ascii) (s pre d1 d2 d3 post : string) :
  version_at (String c s) (String c' pre) d1 d2 d3 post ->
  version_at s pre d1 d2 d3 post.
Proof. intros (E & D). simpl in E. injection E as _ E. split; assumption. Qed.

Lemma regex_match_sound (s d1 d2 d3 : string) :
  regex_match s = Some (d1, d2, d3) -> first_version s d1 d2 d3.
Proof.
  induction s as [|c s IH].
  - discriminate.
  - simpl regex_match. destruct (match_here (String c s)) as [[[a b] m]|] eqn:E.
    + intros E'. injection E' as <- <- <-.
      destruct (match_here_sound _ _ _ _ E) as (post & V & Hp).
      exists EmptyString, post. split; [exact V|]. split; [exact Hp|].
      intros. simpl. lia.
    + intros R. destruct (IH R) as (pre & post & V & Hp & Hmin).
      exists (String c pre), post. split; [now apply version_at_cons|].
      split; [exact Hp|].
      intros pre' e1 e2 e3 post' V'.
      destruct pre' as [|c' pre'].
      * destruct (match_here_complete _ _ _ _ _ V') as (? & ? & E' & _).
        rewrite E in E'. discriminate.
      * apply version_at_uncons in V'. apply Hmin in V'. simpl. lia.
Qed.

Lemma regex_match_complete (s : string) :
  has_version s -> exists m, regex_match s = Some m.
Proof.
  intros (pre & e1 & e2 & e3 & post & V). revert s V.
  induction pre as [|c pre IH]; intros s V.
  - destruct (match_here_complete _ _ _ _ _ V) as (more & ? & E & _).
    destruct s; [vm_compute in E; discriminate|].
    cbn [regex_match]. rewrite E. eauto.
  - destruct s as [|c' s]; [destruct V as [V _]; discriminate|].
    cbn [regex_match]. destruct (match_here (String c' s)); [eauto|].
    apply (IH s). eapply version_at_uncons, V.
Qed.

Lemma first_version_unique (s d1 d2 d3 e1 e2 e3 : string) :
  first_version s d1 d2 d3 -> first_version s e1 e2 e3 ->
  (d1, d2, d3) = (e1, e2, e3).
Proof.
  intros (pre & post & V & Hp & Hmin) (pre' & post' & V' & Hp' & Hmin').
  pose proof (Hmin _ _ _ _ _ V') as L1. pose proof (Hmin' _ _ _ _ _ V) as L2.
  destruct V as (E & D), V' as (E' & D').
  assert (L : String.length pre = String.length pre') by lia.
  rewrite E in E'. destruct (append_same_length_inj _ _ _ _ L E') as [_ Et].
  assert (M : match_here (d1 +:+ "." +:+ d2 +:+ "." +:+ d3 +:+ post) = Some (d1, d2, d3)).
  { apply (match_here_exact _ _ _ _ post); [|exact Hp]. split; [reflexivity | exact D]. }
  assert (M' : match_here (e1 +:+ "." +:+ e2 +:+ "." +:+ e3 +:+ post') = Some (e1, e2, e3)).
  { apply (match_here_exact _ _ _ _ post'); [|exact Hp']. split; [reflexivity | exact D']. }
  rewrite Et in M. congruence.
Qed.

Lemma regex_match_Some_iff (s d1 d2 d3 : string) :
  regex_match s = Some (d1, d2, d3) <-> first_version s d1 d2 d3.
Proof.
  split; [apply regex_match_sound|].
  intros F.
  assert (Hv : has_version s).
  { destruct F as (pre & post & V & _). now exists pre, d1, d2, d3, post. }
  destruct (regex_match_complete s Hv) as ([[a b] c] & E).
  rewrite E. f_equal. eapply first_version_unique; [|exact F].
  now apply regex_match_sound.
Qed.

Lemma regex_match_None_iff (s : string) :
  regex_match s = None <-> ~ has_version s.
Proof.
  split.
  - intros E Hv. destruct (regex_match_complete s Hv) as (m & E'). congruence.
  - intros N. destruct (regex_match s) as [[[a b] c]|] eqn:E; [|reflexivity].
    exfalso. apply N. apply regex_match_sound in E.
    destruct E as (pre & post & V & _). now exists pre, a, b, c, post.
Qed.

(** *** [trim] and the leading "v" *)

Lemma trim_start_spec (s : string) :
  exists l, s = l +:+ trim_start s /\ all_space l = true
            /\ head_is is_space (trim_start s) = false.
Proof.
  induction s as [|c s (l & E & Hl & Hh)].
  - exists EmptyString. repeat split.
  - simpl. destruct (is_space c) eqn:Hc.
    + exists (String c l). simpl. rewrite Hc, Hl, <- E. repeat split. exact Hh.
    + exists EmptyString. simpl. rewrite Hc. repeat split.
Qed.

Lemma trim_end_spec (s : string) :
  exists r, s = trim_end s +:+ r /\ all_space r = true
            /\ last_is is_space (trim_end s) = false.
Proof.
  induction s as [|c s (r & E & Hr & Hl)].
  - exists EmptyString. repeat split.
  - simpl. destruct (trim_end s) as [|c' t] eqn:Et.
    + simpl in E. subst s. destruct (is_space c) eqn:Hc.
      * exists (String c r). simpl. rewrite Hc, Hr. repeat split.
      * exists r. simpl. rewrite Hc. repeat split. exact Hr.
    + exists r. rewrite E. repeat split; assumption.
Qed.

Lemma trim_end_head (p : ascii -> bool) (s : string) :
  head_is p s = false -> head_is p (trim_end s) = false.
Proof.
  destruct s as [|c s]; [reflexivity|]. simpl. intros Hc.
  destruct (trim_end s); [destruct (is_space c)|]; simpl; auto.
Qed.

Lemma trim_spec (s : string) : trimmed_of s (trim s).
Proof.
  unfold trim.
  destruct (trim_start_spec s) as (l & E & Hl & Hh).
  destruct (trim_end_spec (trim_start s)) as (r & E' & Hr & Hlast).
  exists l, r. repeat split; try assumption.
  - rewrite <- E'. exact E.
  - now apply trim_end_head.
Qed.

Lemma ci_eqb_v (c : ascii) :
  ci_eqb "v" c = Ascii.eqb c "v" || Ascii.eqb c "V".
Proof. destruct c as [[] [] [] [] [] [] [] []]; reflexivity. Qed.

Lemma strip_v_spec (u : string) : v_stripped_of u (strip_v u).
Proof.
  destruct u as [|c u]; unfold strip_v.
  - right. right. split; reflexivity.
  - rewrite ci_eqb_v. destruct (Ascii.eqb_spec c "v") as [->|Hv]; simpl.
    + now left.
    + destruct (Ascii.eqb_spec c "V") as [->|HV].
      * right. now left.
      * right. right. split; [reflexivity|]. simpl.
        apply orb_false_iff. split; now apply Ascii.eqb_neq.
Qed.


(** *** The value of a run of digits *)

Lemma digit_value_range (c : ascii) : is_digit c = true -> 0 <= digit_value c <= 9.
Proof.
  unfold is_digit, digit_value. intros H.
  apply andb_true_iff in H as [H1 H2].
  apply N.leb_le in H1, H2. lia.
Qed.

Lemma decimal_value_from_nonneg (ds : string) (acc : Z) :
  all_digits ds = true -> 0 <= acc -> 0 <= decimal_value_from acc ds.
Proof.
  revert acc. induction ds as [|c ds IH]; simpl; intros acc Hd Ha; [exact Ha|].
  apply andb_true_iff in Hd as [Hc Hd]. apply IH; [exact Hd|].
  pose proof (digit_value_range c Hc). lia.
Qed.

Lemma decimal_value_nonneg (ds : string) :
  all_digits ds = true -> 0 <= decimal_value ds.
Proof. intros H. apply decimal_value_from_nonneg; [exact H | lia]. Qed.

(** The decimal reading: a further digit multiplies by ten and adds. *)
Lemma decimal_value_snoc (ds : string) (c : ascii) :
  decimal_value (ds +:+ String c "") = 10 * decimal_value ds + digit_value c.
Proof.
  unfold decimal_value. generalize 0. induction ds as [|x ds IH]; intros acc; simpl.
  - reflexivity.
  - apply IH.
Qed.



Lemma first_version_digits (s d1 d2 d3 : string) :
  first_version s d1 d2 d3 ->
  all_digits d1 = true /\ all_digits d2 = true /\ all_digits d3 = true.
Proof. intros (pre & post & (_ & [_ D1] & [_ D2] & [_ D3]) & _). auto. Qed.

(* ===================================================================== *)
(** ** Numbers: rounding to a double *)
(* ===================================================================== *)

Lemma round_to_even_small (n : Z) : n < 2 ^ 53 -> round_to_even n = n.
Proof.
  intros L. unfold round_to_even.
  destruct (Z.ltb_spec n (2 ^ 53)); [reflexivity | lia].
Qed.

(** The binade of [n]: with [u] the spacing of the doubles there, [n] lies
    between [2^52 * u] and [2^53 * u]. *)
Lemma binade (n : Z) :
  2 ^ 53 <= n ->
  0 < 2 ^ (Z.log2 n - 52)
  /\ 2 ^ 52 * 2 ^ (Z.log2 n - 52) <= n < 2 ^ 53 * 2 ^ (Z.log2 n - 52).
Proof.
  intros L.
  assert (P53 : 0 < 2 ^ 53) by reflexivity.
  assert (Hn : 0 < n) by lia.
  assert (H53 : 53 <= Z.log2 n).
  { rewrite <- (Z.log2_pow2 53) by lia. now apply Z.log2_le_mono. }
  pose proof (Z.log2_spec n Hn) as [Lo Hi].
  split; [apply Z.pow_pos_nonneg; lia|].
  rewrite <- !Z.pow_add_r by lia.
  replace (52 + (Z.log2 n - 52)) with (Z.log2 n) by lia.
  replace (53 + (Z.log2 n - 52)) with (Z.succ (Z.log2 n)) by lia.
  now split.
Qed.

(** Rounding by cases: the significand [k] the double has, between 2^52
    and 2^53, and how far the double is from [n]: at most half the spacing,
    and the significand is even when it is exactly half. *)
Lemma round_to_even_nearest (n : Z) :
  2 ^ 53 <= n ->
  exists k,
    round_to_even n = k * 2 ^ (Z.log2 n - 52)
    /\ 2 ^ 52 <= k <= 2 ^ 53
    /\ 2 * Z.abs (round_to_even n - n) <= 2 ^ (Z.log2 n - 52)
    /\ (2 * Z.abs (round_to_even n - n) = 2 ^ (Z.log2 n - 52) -> Z.even k = true).
Proof.
  intros L. destruct (binade n L) as (Hu & Lo & Hi).
  unfold round_to_even. destruct (Z.ltb_spec n (2 ^ 53)) as [?|_]; [lia|].
  set (u := 2 ^ (Z.log2 n - 52)) in *. cbv zeta.
  pose proof (Z.div_mod n u ltac:(lia)) as D.
  pose proof (Z.mod_pos_bound n u Hu) as R.
  assert (Q1 : 2 ^ 52 <= n / u) by (apply Z.div_le_lower_bound; lia).
  assert (Q2 : n / u < 2 ^ 53) by (apply Z.div_lt_upper_bound; lia).
  set (q := n / u) in *. set (r := n mod u) in *.
  assert (E1 : q * u = u * q) by apply Z.mul_comm.
  assert (E2 : (q + 1) * u = u * q + u) by (rewrite Z.mul_add_distr_r; lia).
  destruct (Z.ltb_spec (2 * r) u) as [A|A].
  { exists q. split; [reflexivity|]. split; [lia|]. split; lia. }
  destruct (Z.ltb_spec u (2 * r)) as [B|B].
  { exists (q + 1). split; [reflexivity|]. split; [lia|]. split; lia. }
  destruct (Z.even q) eqn:Ev.
  - exists q. split; [reflexivity|]. split; [lia|]. split; [lia|]. intros _. exact Ev.
  - exists (q + 1). split; [reflexivity|]. split; [lia|]. split; [lia|]. intros _.
    rewrite Z.even_add, Ev. reflexivity.
Qed.

Lemma round_to_even_pos (n : Z) : 0 < n -> 0 < round_to_even n.
Proof.
  intros Hn. destruct (Z.lt_ge_cases n (2 ^ 53)) as [S|L].
  - now rewrite round_to_even_small.
  - destruct (round_to_even_nearest n L) as (k & -> & K & _).
    destruct (binade n L) as (Hu & _). apply Z.mul_pos_pos; lia.
Qed.

Lemma round_to_even_0 : round_to_even 0 = 0.
Proof. reflexivity. Qed.

(** Below 2^53 an integer is its own double. *)
Lemma Double_of_Z_exact (n : Z) : Z.abs n < 2 ^ 53 -> Double_of_Z n = Finite n.
Proof.
  intros L. unfold Double_of_Z. rewrite (round_to_even_small _ L). cbv zeta.
  assert (B : 2 ^ 53 < 2 ^ 1024) by reflexivity.
  destruct (Z.ltb_spec (Z.abs n) (2 ^ 1024)); [|lia].
  f_equal. rewrite Z.mul_comm. apply Z.abs_sgn.
Qed.

(** The double of an integer by cases on its sign. *)
Lemma Double_of_Z_cases (n : Z) :
  (n = 0 /\ Double_of_Z n = Finite 0)
  \/ (0 < n /\ (Double_of_Z n = PosInf \/ exists m, Double_of_Z n = Finite m /\ 0 < m))
  \/ (n < 0 /\ (Double_of_Z n = NegInf \/ exists m, Double_of_Z n = Finite m /\ m < 0)).
Proof.
  destruct (Z.lt_trichotomy n 0) as [N|[->|Pn]].
  - right. right. split; [exact N|]. unfold Double_of_Z. cbv zeta.
    pose proof (round_to_even_pos (Z.abs n) ltac:(lia)) as R.
    destruct (_ <? 2 ^ 1024).
    + right. eexists. split; [reflexivity|]. rewrite Z.sgn_neg by lia. lia.
    + left. destruct (Z.ltb_spec 0 n); [lia | reflexivity].
  - now left.
  - right. left. split; [exact Pn|]. unfold Double_of_Z. cbv zeta.
    pose proof (round_to_even_pos (Z.abs n) ltac:(lia)) as R.
    destruct (_ <? 2 ^ 1024).
    + right. eexists. split; [reflexivity|]. rewrite Z.sgn_pos by lia. lia.
    + left. destruct (Z.ltb_spec 0 n); [reflexivity | lia].
Qed.

Ltac sign_cases :=
  repeat match goal with
         | |- context [Z.ltb ?a ?b] => destruct (Z.ltb_spec a b)
         | |- context [Z.eqb ?a ?b] => destruct (Z.eqb_spec a b)
         end;
  try reflexivity; try lia.

Lemma is_positive_of_Z (n : Z) : is_positive (Double_of_Z n) = (0 <? n).
Proof.
  unfold is_positive.
  destruct (Double_of_Z_cases n) as [[E ->]|[[Pn [->|(m & -> & Hm)]]|[N [->|(m & -> & Hm)]]]];
    simpl; sign_cases.
Qed.

Lemma is_negative_of_Z (n : Z) : Double_ltb (Double_of_Z n) (Finite 0) = (n <? 0).
Proof.
  destruct (Double_of_Z_cases n) as [[E ->]|[[Pn [->|(m & -> & Hm)]]|[N [->|(m & -> & Hm)]]]];
    simpl; sign_cases.
Qed.

Lemma is_zero_of_Z (n : Z) : is_zero (Double_of_Z n) = (n =? 0).
Proof.
  unfold is_zero.
  destruct (Double_of_Z_cases n) as [[E ->]|[[Pn [->|(m & -> & Hm)]]|[N [->|(m & -> & Hm)]]]];
    simpl; sign_cases.
Qed.

Lemma Double_of_Z_not_NaN (n : Z) : Double_of_Z n <> NaN.
Proof.
  destruct (Double_of_Z_cases n) as [[_ ->]|[[_ [->|(m & -> & _)]]|[_ [->|(m & -> & _)]]]];
    discriminate.
Qed.

Lemma Double_of_Z_opp (n : Z) : Double_of_Z (- n) = Double_opp (Double_of_Z n).
Proof.
  unfold Double_of_Z. rewrite Z.abs_opp. cbv zeta.
  destruct (Z.ltb_spec (round_to_even (Z.abs n)) (2 ^ 1024)) as [S|L].
  - simpl. f_equal. rewrite Z.sgn_opp. lia.
  - destruct (Z.ltb_spec 0 n), (Z.ltb_spec 0 (- n)); try reflexivity; try lia.
    assert (n = 0) as -> by lia. vm_compute in L. now destruct L.
Qed.

(** What a run of digits reads as is an integer that is not negative, or
    [Infinity]. *)
Lemma Double_of_Z_nonneg (n : Z) : 0 <= n -> version_number (Double_of_Z n).
Proof.
  intros Hn.
  destruct (Double_of_Z_cases n) as [[_ ->]|[[_ [->|(m & -> & Hm)]]|[N _]]].
  - right. exists 0. split; [reflexivity | lia].
  - now left.
  - right. exists m. split; [reflexivity | lia].
  - lia.
Qed.

(** From 2^1024 on the double is [Infinity]; below 2^1023 it is finite. *)
Lemma Double_of_Z_overflow (n : Z) : 2 ^ 1024 <= n -> Double_of_Z n = PosInf.
Proof.
  intros L.
  assert (B : 2 ^ 53 < 2 ^ 1024) by reflexivity.
  assert (L53 : 2 ^ 53 <= n) by lia.
  destruct (round_to_even_nearest n L53) as (k & E & K & _).
  destruct (binade n L53) as (Hu & _).
  assert (Hn : 0 < n) by lia.
  assert (H1024 : 1024 <= Z.log2 n).
  { rewrite <- (Z.log2_pow2 1024) by lia. now apply Z.log2_le_mono. }
  assert (G : 2 ^ 1024 <= round_to_even n).
  { rewrite E. replace (2 ^ 1024) with (2 ^ 52 * 2 ^ 972) by reflexivity.
    apply Z.mul_le_mono_nonneg; try lia.
    apply Z.pow_le_mono_r; lia. }
  unfold Double_of_Z. rewrite Z.abs_eq by lia. cbv zeta.
  destruct (Z.ltb_spec (round_to_even n) (2 ^ 1024)); [lia|].
  destruct (Z.ltb_spec 0 n); [reflexivity | lia].
Qed.

Lemma Double_of_Z_in_range (n : Z) : 0 <= n < 2 ^ 1023 -> finite (Double_of_Z n).
Proof.
  intros [Hn L].
  assert (B : 2 ^ 53 < 2 ^ 1023) by reflexivity.
  assert (B' : 2 ^ 1023 < 2 ^ 1024) by reflexivity.
  destruct (Z.lt_ge_cases n (2 ^ 53)) as [S|L53].
  { exists n. apply Double_of_Z_exact. lia. }
  destruct (round_to_even_nearest n L53) as (k & E & K & _).
  destruct (binade n L53) as (Hu & _).
  assert (Hlog : Z.log2 n < 1023).
  { apply Z.log2_lt_pow2; lia. }
  assert (G : round_to_even n <= 2 ^ 1023).
  { rewrite E. replace (2 ^ 1023) with (2 ^ 53 * 2 ^ 970) by reflexivity.
    apply Z.mul_le_mono_nonneg; try lia.
    apply Z.pow_le_mono_r; lia. }
  unfold Double_of_Z. rewrite Z.abs_eq by lia. cbv zeta.
  destruct (Z.ltb_spec (round_to_even n) (2 ^ 1024)); [|lia].
  eexists. reflexivity.
Qed.

(** In the last binade the double stays below 2^1024 exactly when [n] is
    below the midpoint between the greatest double and 2^1024. *)
Lemma round_to_even_top (n : Z) :
  2 ^ 1023 <= n < 2 ^ 1024 ->
  (round_to_even n < 2 ^ 1024 <-> n < 2 ^ 1024 - 2 ^ 970).
Proof.
  intros [Lo Hi].
  assert (L : Z.log2 n = 1023) by (apply Z.log2_unique; [lia | split; assumption]).
  unfold round_to_even. rewrite L.
  change (1023 - 52) with 971.
  assert (B : 2 ^ 53 < 2 ^ 1023) by reflexivity.
  destruct (Z.ltb_spec n (2 ^ 53)) as [?|_]; [lia|].
  cbv zeta.
  pose proof (Z.div_mod n (2 ^ 971) ltac:(lia)) as D.
  pose proof (Z.mod_pos_bound n (2 ^ 971) ltac:(lia)) as R.
  assert (Q1 : 2 ^ 52 <= n / 2 ^ 971) by (apply Z.div_le_lower_bound; lia).
  assert (Q2 : n / 2 ^ 971 < 2 ^ 53) by (apply Z.div_lt_upper_bound; lia).
  set (q := n / 2 ^ 971) in *. set (r := n mod 2 ^ 971) in *.
  destruct (Z.ltb_spec (2 * r) (2 ^ 971)) as [A|A]; [lia|].
  destruct (Z.ltb_spec (2 ^ 971) (2 * r)) as [A'|A']; [lia|].
  destruct (Z.even q) eqn:Ev; [|lia].
  destruct (Z.eq_dec q (2 ^ 53 - 1)) as [E|E]; [|lia].
  rewrite E in Ev. vm_compute in Ev. discriminate.
Qed.

(** The double of an integer that is not negative is finite exactly below
    2^1024 - 2^970, and [Infinity] from there on. *)
Lemma Double_of_Z_finite_iff (n : Z) :
  0 <= n -> (finite (Double_of_Z n) <-> n < 2 ^ 1024 - 2 ^ 970).
Proof.
  intros Hn.
  assert (B : 2 ^ 1023 < 2 ^ 1024 - 2 ^ 970) by reflexivity.
  assert (B' : 2 ^ 1024 - 2 ^ 970 < 2 ^ 1024) by reflexivity.
  destruct (Z.lt_ge_cases n (2 ^ 1023)) as [S|L1].
  { split; [lia|]. intros _. apply Double_of_Z_in_range. lia. }
  destruct (Z.lt_ge_cases n (2 ^ 1024)) as [S|L2].
  - rewrite <- (round_to_even_top n) by lia.
    unfold Double_of_Z. rewrite Z.abs_eq by lia. cbv zeta.
    destruct (Z.ltb_spec (round_to_even n) (2 ^ 1024)) as [A|A].
    + split; [intros _; exact A | intros _; eexists; reflexivity].
    + split; [|lia]. destruct (0 <? n); intros (z & [=]).
  - rewrite (Double_of_Z_overflow n L2). split; [intros (z & [=]) | lia].
Qed.

Lemma Double_of_Z_infinite (n : Z) :
  2 ^ 1024 - 2 ^ 970 <= n -> Double_of_Z n = PosInf.
Proof.
  intros L. assert (B : 0 < 2 ^ 1024 - 2 ^ 970) by reflexivity.
  destruct (Double_of_Z_nonneg n ltac:(lia)) as [E|(z & E & _)]; [exact E|].
  assert (F : finite (Double_of_Z n)) by (now exists z).
  apply Double_of_Z_finite_iff in F; lia.
Qed.

(* ===================================================================== *)
(** ** Conversions: lemmas *)
(* ===================================================================== *)

(** Induction on a value, with the hypothesis for each item of an array. *)
Lemma JsVal_items_ind (P : JsVal -> Prop) :
  P JUndefined -> P JNull -> (forall b, P (JBool b)) -> (forall n, P (JNum n)) ->
  (forall s, P (JStr s)) ->
  (forall items, Forall P items -> P (JArr items)) ->
  (forall fields, P (JObj fields)) ->
  forall v, P v.
Proof.
  intros Hu Hn Hb Hz Hs Ha Ho. fix IH 1.
  intros [| |b|n|s|items|fields];
    [exact Hu | exact Hn | apply Hb | apply Hz | apply Hs | | apply Ho].
  apply Ha. induction items as [|x rest IHr]; constructor; [apply IH | exact IHr].
Qed.

Section ConversionFacts.
Context `{Platform}.

(** A conversion to a string raises nothing but a [TypeError]. *)
Lemma ToString_throw (v : JsVal) (e : Exn) : ToString v = Throw e -> e = TypeError.
Proof.
  revert e. induction v as [| |b|n|s|items IH|fields] using JsVal_items_ind;
    intros e; simpl; try discriminate.
  - destruct b; discriminate.
  - induction IH as [|x rest Hx _ IHrest]; [discriminate|].
    unfold res_bind at 1.
    destruct (match x with JUndefined | JNull => Ok "" | _ => ToString x end)
      as [sx|e'] eqn:Ex.
    + destruct rest as [|y rest']; [discriminate|].
      unfold res_bind at 1.
      match goal with
      | |- context [match ?j with Ok _ => _ | Throw _ => _ end] =>
          destruct j as [tl|e''] eqn:Ej
      end; [discriminate|].
      intros [= <-]. now apply IHrest.
    + intros [= <-]. destruct x; try discriminate; now apply Hx.
  - destruct (has_own "toString" fields); [now intros [= <-] | discriminate].
Qed.

(** The conversion of a value that is not an object raises nothing. *)
Lemma ToString_primitive (v : JsVal) : primitive v = true -> exists s, ToString v = Ok s.
Proof.
  destruct v as [| |[]| | | |]; simpl; try discriminate; eauto.
Qed.

Lemma ToString_throw_TypeError (v : JsVal) :
  (exists s, ToString v = Ok s) \/ ToString v = Throw TypeError.
Proof.
  destruct (ToString v) as [s|e] eqn:E; [eauto|].
  right. now rewrite (ToString_throw v e E).
Qed.

Lemma Date_getTime_throw (v : JsVal) (e : Exn) :
  Date_getTime v = Throw e -> e = TypeError /\ primitive v = false.
Proof.
  destruct v as [| |b|n|s|items|fields]; try discriminate; unfold Date_getTime, res_bind;
    match goal with
    | |- context [ToString ?x] => destruct (ToString x) as [s|e'] eqn:E
    end; try discriminate;
    intros [= <-]; (split; [now apply ToString_throw in E | reflexivity]).
Qed.

Lemma Date_getTime_primitive (v : JsVal) :
  primitive v = true -> exists t, Date_getTime v = Ok t.
Proof. destruct v; simpl; try discriminate; eauto. Qed.

Lemma ToNumber_throw (v : JsVal) (e : Exn) :
  ToNumber v = Throw e -> e = TypeError /\ primitive v = false.
Proof.
  destruct v as [| |b|n|s|items|fields]; try discriminate; unfold ToNumber, res_bind;
    match goal with
    | |- context [ToString ?x] => destruct (ToString x) as [s|e'] eqn:E
    end; try discriminate;
    intros [= <-]; (split; [now apply ToString_throw in E | reflexivity]).
Qed.

End ConversionFacts.

(* ===================================================================== *)
(** ** parseSemver *)
(* ===================================================================== *)

Section ParseFacts.
Context `{Platform}.

Lemma parseSemver_unfold (tag : JsVal) (text : string) :
  truthy tag = true -> ToString tag = Ok text ->
  parseSemver tag =
    Ok match regex_match (strip_v (trim text)) with
       | Some (m1, m2, m3) => Some (semver_of m1 m2 m3)
       | None => None
       end.
Proof.
  intros T E. unfold parseSemver. rewrite T, E. simpl.
  destruct (regex_match _) as [[[a b] c]|]; reflexivity.
Qed.

Lemma parseSemver_falsy (tag : JsVal) : truthy tag = false -> parseSemver tag = Ok None.
Proof. intros T. unfold parseSemver. now rewrite T. Qed.

(** [parseSemver] raises only what [String(tag)] raises, on a truthy tag. *)
Lemma parseSemver_throw (tag : JsVal) (e : Exn) :
  parseSemver tag = Throw e ->
  e = TypeError /\ truthy tag = true /\ ToString tag = Throw TypeError.
Proof.
  unfold parseSemver. destruct (truthy tag); [|discriminate]. simpl.
  destruct (ToString tag) as [text|e'] eqn:E; simpl.
  - destruct (regex_match _) as [[[a b] c]|]; discriminate.
  - intros [= <-]. pose proof (ToString_throw tag e' E) as ->. auto.
Qed.

Lemma parseSemver_primitive (tag : JsVal) :
  primitive tag = true -> exists r, parseSemver tag = Ok r.
Proof.
  intros Pr. destruct (truthy tag) eqn:T.
  - destruct (ToString_primitive tag Pr) as (text & E).
    rewrite (parseSemver_unfold tag text T E). eauto.
  - rewrite (parseSemver_falsy tag T). eauto.
Qed.

(** The result by cases: absent, or the numbers of a match. *)
Lemma parseSemver_Ok (tag : JsVal) (r : option Semver) :
  parseSemver tag = Ok r ->
  (truthy tag = false /\ r = None)
  \/ exists text, truthy tag = true /\ ToString tag = Ok text
       /\ r = match regex_match (strip_v (trim text)) with
              | Some (m1, m2, m3) => Some (semver_of m1 m2 m3)
              | None => None
              end.
Proof.
  destruct (truthy tag) eqn:T.
  - destruct (ToString tag) as [text|e] eqn:E.
    + rewrite (parseSemver_unfold tag text T E). intros [= <-]. right. now exists text.
    + unfold parseSemver. rewrite T, E. discriminate.
  - rewrite (parseSemver_falsy tag T). intros [= <-]. now left.
Qed.

Lemma Number_digits_version_number (ds : string) :
  all_digits ds = true -> version_number (Number_digits ds).
Proof. intros D. apply Double_of_Z_nonneg. now apply decimal_value_nonneg. Qed.

Lemma version_number_not_NaN (d : Double) : version_number d -> d <> NaN.
Proof. intros [->|(z & -> & _)]; discriminate. Qed.

(** The numbers of a parsed version are integers that are not negative, or
    [Infinity]. *)
Lemma parseSemver_numbers (tag : JsVal) (v : Semver) :
  parseSemver tag = Ok (Some v) ->
  version_number (major v) /\ version_number (minor v) /\ version_number (patch v).
Proof.
  intros [[_ [=]]|(text & _ & _ & E)]%parseSemver_Ok.
  destruct (regex_match _) as [[[a b] c]|] eqn:R; [|discriminate].
  injection E as ->. apply regex_match_sound, first_version_digits in R.
  destruct R as (Da & Db & Dc). simpl.
  repeat split; now apply Number_digits_version_number.
Qed.

Lemma parseSemver_numeric (tag : JsVal) (v : Semver) :
  parseSemver tag = Ok (Some v) -> numeric v.
Proof.
  intros (A & B & C)%parseSemver_numbers.
  repeat split; now apply version_number_not_NaN.
Qed.

(** C3, as the script has it: [parseSemver] gives absent for an empty or
    absent tag; otherwise it removes the white space around the text of the
    tag and one leading "v" or "V", and gives the three numbers of the first
    substring of the form digits.digits.digits of what is left, or absent
    when there is none.  It raises nothing on a string (or any value that
    is not an object); what it can raise is the [TypeError] of [String(tag)].
    Each number is the double nearest to the integer its digits write: that
    integer when it is below 2^53, [Infinity] from 2^1024 - 2^970 on, and in
    between a double with a significand of 53 bits at most half a spacing
    away, the even one of two as near.  The four tags of the specification
    parse as it says. *)
Theorem parseSemver_spec :
  (forall tag, truthy tag = false -> parseSemver tag = Ok None)
  /\ (forall tag text, truthy tag = true -> ToString tag = Ok text ->
        exists u cleaned,
          trimmed_of text u /\ v_stripped_of u cleaned
          /\ (forall v, parseSemver tag = Ok (Some v) <->
                exists d1 d2 d3,
                  first_version cleaned d1 d2 d3 /\ v = semver_of d1 d2 d3)
          /\ (parseSemver tag = Ok None <-> ~ has_version cleaned))
  /\ (forall tag, primitive tag = true -> exists r, parseSemver tag = Ok r)
  /\ (forall tag e, parseSemver tag = Throw e ->
        e = TypeError /\ truthy tag = true /\ ToString tag = Throw TypeError)
  /\ (forall tag v, parseSemver tag = Ok (Some v) ->
        version_number (major v) /\ version_number (minor v)
        /\ version_number (patch v))
  /\ (forall ds, all_digits ds = true ->
        Number_digits ds = Double_of_Z (decimal_value ds)
        /\ 0 <= decimal_value ds
        /\ (decimal_value ds < 2 ^ 53 -> Number_digits ds = Finite (decimal_value ds))
        /\ (2 ^ 53 <= decimal_value ds < 2 ^ 1024 - 2 ^ 970 ->
            exists k,
              Number_digits ds = Finite (k * 2 ^ (Z.log2 (decimal_value ds) - 52))
              /\ 2 ^ 52 <= k <= 2 ^ 53
              /\ 2 * Z.abs (k * 2 ^ (Z.log2 (decimal_value ds) - 52) - decimal_value ds)
                 <= 2 ^ (Z.log2 (decimal_value ds) - 52)
              /\ (2 * Z.abs (k * 2 ^ (Z.log2 (decimal_value ds) - 52) - decimal_value ds)
                  = 2 ^ (Z.log2 (decimal_value ds) - 52) -> Z.even k = true))
        /\ (2 ^ 1024 - 2 ^ 970 <= decimal_value ds -> Number_digits ds = PosInf))
  /\ decimal_value "" = 0
  /\ (forall ds c, decimal_value (ds +:+ String c "")
                   = 10 * decimal_value ds + digit_value c)
  /\ decimal_value "0123456789" = 123456789
  /\ parseSemver (JStr "v1.2.3") = Ok (Some (mkSemver (Finite 1) (Finite 2) (Finite 3)))
  /\ parseSemver (JStr "1.2.3") = Ok (Some (mkSemver (Finite 1) (Finite 2) (Finite 3)))
  /\ parseSemver (JStr "release-2.0.10-beta")
     = Ok (Some (mkSemver (Finite 2) (Finite 0) (Finite 10)))
  /\ parseSemver (JStr "not-a-version") = Ok None
  /\ parseSemver (JStr "") = Ok None
  /\ parseSemver JUndefined = Ok None
  /\ parseSemver JNull = Ok None.
Proof.
  split; [exact parseSemver_falsy|].
  split; [|split; [exact parseSemver_primitive|]].
  2: split; [exact parseSemver_throw|].
  2: split; [exact parseSemver_numbers|].
  2: split; [|split; [reflexivity|]; split; [exact decimal_value_snoc|]; repeat split].
  - intros tag text T E.
    exists (trim text), (strip_v (trim text)).
    split; [apply trim_spec|]. split; [apply strip_v_spec|].
    rewrite (parseSemver_unfold tag text T E).
    set (cleaned := strip_v (trim text)).
    split.
    + intros v. split.
      * destruct (regex_match cleaned) as [[[a b] c]|] eqn:R; [|discriminate].
        intros [= <-]. exists a, b, c.
        split; [now apply regex_match_Some_iff | reflexivity].
      * intros (d1 & d2 & d3 & F & ->).
        apply regex_match_Some_iff in F. now rewrite F.
    + rewrite <- regex_match_None_iff.
      destruct (regex_match cleaned) as [[[a b] c]|]; split; congruence.
  - intros ds D. pose proof (decimal_value_nonneg ds D) as N.
    split; [reflexivity|]. split; [exact N|]. split; [|split].
    + intros S. apply Double_of_Z_exact. lia.
    + intros [L U].
      destruct (round_to_even_nearest _ L) as (k & E & K & Near & Tie).
      exists k. rewrite <- E. split; [|split; [exact K | split; assumption]].
      destruct (proj2 (Double_of_Z_finite_iff (decimal_value ds) N) U) as (z & Ez).
      unfold Number_digits. rewrite Ez. f_equal.
      unfold Double_of_Z in Ez. rewrite Z.abs_eq in Ez by lia. cbv zeta in Ez.
      destruct (_ <? 2 ^ 1024); [|destruct (0 <? _); discriminate].
      injection Ez as <-. rewrite Z.sgn_pos; [lia|].
      assert (0 < 2 ^ 53) by reflexivity. lia.
    + apply Double_of_Z_infinite.
Qed.

End ParseFacts.

(* ===================================================================== *)
(** ** Numbers: comparison and subtraction *)
(* ===================================================================== *)

Lemma Double_eqb_eq (x y : Double) : Double_eqb x y = true -> x = y.
Proof.
  destruct x as [a| | |], y as [b| | |]; simpl; try discriminate; try reflexivity.
  now intros ->%Z.eqb_eq.
Qed.

Lemma Double_eqb_refl (x : Double) : x <> NaN -> Double_eqb x x = true.
Proof.
  intros N. destruct x as [a| | |]; simpl; try reflexivity; [apply Z.eqb_refl | congruence].
Qed.

Lemma Double_eqb_neq (x y : Double) : x <> NaN -> Double_eqb x y = false -> x <> y.
Proof. intros N E ->. rewrite (Double_eqb_refl y N) in E. discriminate. Qed.

Lemma Double_lt_irrefl (x : Double) : ~ Double_lt x x.
Proof.
  unfold Double_lt. destruct x as [a| | |]; simpl; try discriminate.
  intros L%Z.ltb_lt. lia.
Qed.

Lemma Double_lt_trans (x y z : Double) : Double_lt x y -> Double_lt y z -> Double_lt x z.
Proof.
  unfold Double_lt.
  destruct x as [a| | |], y as [b| | |], z as [c| | |]; simpl; try discriminate;
    try reflexivity.
  intros L1%Z.ltb_lt L2%Z.ltb_lt. apply Z.ltb_lt. lia.
Qed.

Lemma Double_lt_trichotomy (x y : Double) :
  x <> NaN -> y <> NaN -> Double_lt x y \/ x = y \/ Double_lt y x.
Proof.
  unfold Double_lt.
  destruct x as [a| | |], y as [b| | |]; simpl; try congruence; auto.
  intros _ _. destruct (Z.lt_trichotomy a b) as [L|[->|L]].
  - left. now apply Z.ltb_lt.
  - right. now left.
  - right. right. now apply Z.ltb_lt.
Qed.

Lemma Double_lt_not_NaN (x y : Double) : Double_lt x y -> x <> NaN /\ y <> NaN.
Proof.
  unfold Double_lt. destruct x as [a| | |], y as [b| | |]; simpl; try discriminate;
    intros _; split; discriminate.
Qed.

(** The sign of a difference. *)
Lemma Double_sub_positive (x y : Double) : is_positive (Double_sub x y) = Double_ltb y x.
Proof.
  destruct x as [a| | |], y as [b| | |]; try reflexivity.
  simpl Double_sub. rewrite is_positive_of_Z. simpl. sign_cases.
Qed.

Lemma Double_sub_negative (x y : Double) :
  Double_ltb (Double_sub x y) (Finite 0) = Double_ltb x y.
Proof.
  destruct x as [a| | |], y as [b| | |]; try reflexivity.
  simpl Double_sub. rewrite is_negative_of_Z. simpl. sign_cases.
Qed.

Lemma Double_sub_zero (x y : Double) :
  is_zero (Double_sub x y) = true <-> exists z, x = Finite z /\ y = Finite z.
Proof.
  destruct x as [a| | |], y as [b| | |];
    try (split; [discriminate | intros (z & E1 & E2); discriminate]).
  simpl Double_sub. rewrite is_zero_of_Z. split.
  - intros E%Z.eqb_eq. exists a. split; [reflexivity | f_equal; lia].
  - intros (z & [= ->] & [= ->]). apply Z.eqb_eq. lia.
Qed.

Lemma Double_sub_NaN (x y : Double) :
  x <> NaN -> y <> NaN -> (Double_sub x y = NaN <-> x = y /\ ~ finite x).
Proof.
  intros Nx Ny.
  destruct x as [a| | |], y as [b| | |]; try congruence; simpl Double_sub;
    try (split; [discriminate | intros [[=] _]]).
  - split; [intros E; destruct (Double_of_Z_not_NaN _ E)|].
    intros [_ F]. destruct F. now exists a.
  - split; [|reflexivity]. intros _. split; [reflexivity|]. intros (z & [=]).
  - split; [|reflexivity]. intros _. split; [reflexivity|]. intros (z & [=]).
Qed.

Lemma Double_sub_swap (x y : Double) : Double_sub y x = Double_opp (Double_sub x y).
Proof.
  destruct x as [a| | |], y as [b| | |]; try reflexivity.
  simpl Double_sub. rewrite <- Double_of_Z_opp. f_equal. lia.
Qed.

(* ===================================================================== *)
(** ** compareSemver *)
(* ===================================================================== *)

Lemma lex_lt_irrefl (a : Semver) : ~ lex_lt a a.
Proof.
  intros [L|[_ [L|[_ L]]]]; now apply Double_lt_irrefl in L.
Qed.

Lemma lex_lt_trans (a b c : Semver) : lex_lt a b -> lex_lt b c -> lex_lt a c.
Proof.
  destruct a as [a1 a2 a3], b as [b1 b2 b3], c as [c1 c2 c3]. unfold lex_lt. simpl.
  intros [L1|[-> [L1|[-> L1]]]] [L2|[-> [L2|[-> L2]]]];
    eauto 6 using Double_lt_trans.
Qed.

Lemma lex_lt_trichotomy (a b : Semver) :
  numeric a -> numeric b -> lex_lt a b \/ a = b \/ lex_lt b a.
Proof.
  destruct a as [a1 a2 a3], b as [b1 b2 b3]. unfold lex_lt, numeric. simpl.
  intros (A1 & A2 & A3) (B1 & B2 & B3).
  destruct (Double_lt_trichotomy a1 b1 A1 B1) as [L|[->|L]]; auto.
  destruct (Double_lt_trichotomy a2 b2 A2 B2) as [L|[->|L]]; auto 6.
  destruct (Double_lt_trichotomy a3 b3 A3 B3) as [L|[->|L]]; auto 8.
Qed.

(** [compareSemver] by cases on the first number that differs. *)
Lemma compareSemver_cases (a b : Semver) :
  numeric a -> numeric b ->
  (major a <> major b /\ compareSemver a b = Double_sub (major a) (major b))
  \/ (major a = major b /\ minor a <> minor b
      /\ compareSemver a b = Double_sub (minor a) (minor b))
  \/ (major a = major b /\ minor a = minor b
      /\ compareSemver a b = Double_sub (patch a) (patch b)).
Proof.
  intros (A1 & A2 & A3) _. unfold compareSemver.
  destruct (Double_eqb (major a) (major b)) eqn:E1; simpl.
  2:{ left. split; [now apply Double_eqb_neq | reflexivity]. }
  apply Double_eqb_eq in E1.
  destruct (Double_eqb (minor a) (minor b)) eqn:E2; simpl.
  2:{ right. left. split; [exact E1|]. split; [now apply Double_eqb_neq | reflexivity]. }
  apply Double_eqb_eq in E2. right. right. auto.
Qed.

Lemma Double_lt_neq (x y : Double) : Double_lt x y -> x <> y.
Proof. intros L ->. now apply Double_lt_irrefl in L. Qed.

(** [cmp > 0] exactly when the first version is the greater. *)
Lemma compareSemver_positive (a b : Semver) :
  numeric a -> numeric b ->
  (is_positive (compareSemver a b) = true <-> lex_lt b a).
Proof.
  intros Na Nb.
  destruct (compareSemver_cases a b Na Nb) as [(N1 & ->)|[(E1 & N2 & ->)|(E1 & E2 & ->)]];
    rewrite Double_sub_positive; fold (Double_lt (major b) (major a));
    fold (Double_lt (minor b) (minor a)); fold (Double_lt (patch b) (patch a));
    unfold lex_lt; split.
  - now left.
  - intros [L|[E _]]; [exact L | congruence].
  - intros L. right. split; [congruence|]. now left.
  - intros [L|[_ [L|[E _]]]];
      [destruct (Double_lt_neq _ _ L); congruence | exact L | congruence].
  - intros L. right. split; [congruence|]. right. split; [congruence | exact L].
  - intros [L|[_ [L|[_ L]]]];
      [destruct (Double_lt_neq _ _ L); congruence
      |destruct (Double_lt_neq _ _ L); congruence | exact L].
Qed.

(** [cmp < 0] exactly when the first version is the smaller. *)
Lemma compareSemver_negative (a b : Semver) :
  numeric a -> numeric b ->
  (Double_lt (compareSemver a b) (Finite 0) <-> lex_lt a b).
Proof.
  intros Na Nb. unfold Double_lt at 1.
  destruct (compareSemver_cases a b Na Nb) as [(N1 & ->)|[(E1 & N2 & ->)|(E1 & E2 & ->)]];
    rewrite Double_sub_negative; fold (Double_lt (major a) (major b));
    fold (Double_lt (minor a) (minor b)); fold (Double_lt (patch a) (patch b));
    unfold lex_lt; split.
  - now left.
  - intros [L|[E _]]; [exact L | congruence].
  - intros L. right. split; [congruence|]. now left.
  - intros [L|[_ [L|[E _]]]];
      [destruct (Double_lt_neq _ _ L); congruence | exact L | congruence].
  - intros L. right. split; [congruence|]. right. split; [congruence | exact L].
  - intros [L|[_ [L|[_ L]]]];
      [destruct (Double_lt_neq _ _ L); congruence
      |destruct (Double_lt_neq _ _ L); congruence | exact L].
Qed.

(** [cmp === 0] exactly when the versions are equal and their patch number
    is finite. *)
Lemma compareSemver_zero (a b : Semver) :
  numeric a -> numeric b ->
  (is_zero (compareSemver a b) = true <-> a = b /\ finite (patch a)).
Proof.
  intros Na Nb.
  destruct (compareSemver_cases a b Na Nb) as [(N1 & ->)|[(E1 & N2 & ->)|(E1 & E2 & ->)]];
    rewrite Double_sub_zero; split.
  - intros (z & E & E'). congruence.
  - intros [-> _]. congruence.
  - intros (z & E & E'). congruence.
  - intros [-> _]. congruence.
  - intros (z & E & E'). split; [|now exists z].
    destruct a, b. simpl in *. congruence.
  - intros [-> (z & E)]. now exists z.
Qed.

(** [cmp] is [NaN] exactly when the versions are equal and their patch
    number is not finite. *)
Lemma compareSemver_NaN (a b : Semver) :
  numeric a -> numeric b ->
  (compareSemver a b = NaN <-> a = b /\ ~ finite (patch a)).
Proof.
  intros Na Nb. pose proof Na as (A1 & A2 & A3). pose proof Nb as (B1 & B2 & B3).
  destruct (compareSemver_cases a b Na Nb) as [(N1 & ->)|[(E1 & N2 & ->)|(E1 & E2 & ->)]];
    rewrite Double_sub_NaN by assumption; split.
  - intros [E _]. congruence.
  - intros [-> _]. congruence.
  - intros [E _]. congruence.
  - intros [-> _]. congruence.
  - intros [E F]. split; [|exact F]. destruct a, b. simpl in *. congruence.
  - intros [-> F]. split; [reflexivity | exact F].
Qed.

Lemma compareSemver_swap (a b : Semver) :
  numeric a -> numeric b -> compareSemver b a = Double_opp (compareSemver a b).
Proof.
  intros Na Nb.
  destruct (compareSemver_cases a b Na Nb) as [(N1 & ->)|[(E1 & N2 & ->)|(E1 & E2 & ->)]];
    destruct (compareSemver_cases b a Nb Na) as [(N1' & ->)|[(E1' & N2' & ->)|(E1' & E2' & ->)]];
    try congruence; apply Double_sub_swap.
Qed.



(* ===================================================================== *)
(** ** pickBestRelease *)
(* ===================================================================== *)

Lemma filter_sublist {A} (f : A -> bool) (l : list A) : sublist (List.filter f l) l.
Proof.
  induction l as [|x l IH]; simpl; [constructor|].
  destruct (f x); now constructor.
Qed.

Section SelectionFacts.
Context `{Platform}.

(** The pool is the input with entries left out, in the input's order, and
    holds no draft; it holds a prerelease only when no release that is
    neither draft nor prerelease is in the input. *)
Lemma candidates_sublist (rs : list JsVal) : sublist (candidates_of rs) rs.
Proof.
  unfold candidates_of. destruct (0 <? _)%nat.
  - etransitivity; apply filter_sublist.
  - apply filter_sublist.
Qed.

Lemma candidates_nonDraft (rs : list JsVal) (c : JsVal) :
  In c (candidates_of rs) -> In c rs /\ is_nonDraft c = true.
Proof.
  unfold candidates_of. destruct (0 <? _)%nat; intros Hc.
  - apply filter_In in Hc as [Hc _]. now apply filter_In in Hc.
  - now apply filter_In in Hc.
Qed.

Lemma candidates_stable (rs : list JsVal) (x : JsVal) :
  In x rs -> is_nonDraft x = true -> is_stable x = true ->
  forall c, In c (candidates_of rs) -> is_stable c = true.
Proof.
  intros Hx Hd Hs c. unfold candidates_of.
  assert (Hin : In x (List.filter is_stable (List.filter is_nonDraft rs))).
  { apply filter_In. split; [|exact Hs]. apply filter_In. now split. }
  destruct (List.filter is_stable (List.filter is_nonDraft rs)) as [|y l] eqn:E;
    [destruct Hin|].
  change (In c (y :: l) -> is_stable c = true).
  rewrite <- E. intros Hc. now apply filter_In in Hc.
Qed.

Lemma candidates_nonempty (rs : list JsVal) (x : JsVal) :
  In x rs -> is_nonDraft x = true -> candidates_of rs <> [].
Proof.
  intros Hx Hd. unfold candidates_of.
  assert (Hin : In x (List.filter is_nonDraft rs)) by (apply filter_In; now split).
  destruct (List.filter is_stable (List.filter is_nonDraft rs)) as [|y l]; simpl.
  - intros E. rewrite E in Hin. destruct Hin.
  - discriminate.
Qed.

Lemma candidates_all_when_no_stable (rs : list JsVal) :
  (forall x, In x rs -> is_nonDraft x = true -> is_stable x = false) ->
  candidates_of rs = List.filter is_nonDraft rs.
Proof.
  intros Hno. unfold candidates_of.
  destruct (List.filter is_stable (List.filter is_nonDraft rs)) as [|y l] eqn:E;
    [reflexivity|].
  assert (Hy : In y (List.filter is_stable (List.filter is_nonDraft rs)))
    by (rewrite E; now left).
  apply filter_In in Hy as [Hy Hs]. apply filter_In in Hy as [Hy Hd].
  rewrite (Hno y Hy Hd) in Hs. discriminate.
Qed.

(** *** Reading the date *)


Lemma published_time_throw (r : JsVal) (e : Exn) :
  published_time r = Throw e ->
  e = TypeError /\ primitive (get_prop r "published_at") = false.
Proof.
  unfold published_time, js_or.
  destruct (truthy (get_prop r "published_at")); [apply Date_getTime_throw|].
  discriminate.
Qed.

Lemma published_time_plain (r : JsVal) :
  primitive (get_prop r "published_at") = true -> exists t, published_time r = Ok t.
Proof.
  intros Pr. unfold published_time, js_or.
  destruct (truthy (get_prop r "published_at")); [|simpl; eauto].
  now apply Date_getTime_primitive.
Qed.

(** *** One turn of the loop *)

(** A turn that ends normally, by cases on the candidate. *)
Lemma consider_Ok (best b' : option (JsVal * Semver)) (x : JsVal) :
  consider best x = Ok b' ->
  (version_of x = Ok None /\ b' = best)
  \/ exists vx, version_of x = Ok (Some vx)
       /\ ((best = None /\ b' = Some (x, vx))
           \/ exists b vb, best = Some (b, vb)
                /\ ((is_positive (compareSemver vx vb) = true /\ b' = Some (x, vx))
                    \/ (is_positive (compareSemver vx vb) = false
                        /\ is_zero (compareSemver vx vb) = true
                        /\ exists aTime bTime,
                             published_time x = Ok aTime
                             /\ published_time b = Ok bTime
                             /\ b' = if num_gt aTime bTime then Some (x, vx) else best)
                    \/ (is_positive (compareSemver vx vb) = false
                        /\ is_zero (compareSemver vx vb) = false
                        /\ b' = best))).
Proof.
  unfold consider, version_of.
  destruct (parseSemver (get_prop x "tag_name")) as [[vx|]|e]; simpl;
    [|intros [= <-]; now left | discriminate].
  intros E. right. exists vx. split; [reflexivity|].
  destruct best as [[b vb]|]; [|injection E as <-; now left].
  right. exists b, vb. split; [reflexivity|].
  destruct (is_positive (compareSemver vx vb)); [injection E as <-; now left|].
  destruct (is_zero (compareSemver vx vb)); [|injection E as <-; right; right; auto].
  right. left. split; [reflexivity|]. split; [reflexivity|].
  destruct (published_time x) as [aTime|]; [|discriminate].
  destruct (published_time b) as [bTime|]; [|discriminate].
  simpl in E. injection E as <-. now exists aTime, bTime.
Qed.

(** A turn raises nothing but a [TypeError], from the tag or from a date. *)
Lemma consider_throw (best : option (JsVal * Semver)) (x : JsVal) (e : Exn) :
  consider best x = Throw e -> e = TypeError.
Proof.
  unfold consider.
  destruct (parseSemver (get_prop x "tag_name")) as [[vx|]|e'] eqn:P; simpl;
    [|discriminate | intros [= <-]; now apply parseSemver_throw in P].
  destruct best as [[b vb]|]; [|discriminate].
  destruct (is_positive _); [discriminate|]. destruct (is_zero _); [|discriminate].
  destruct (published_time x) as [aTime|e'] eqn:Tx; simpl;
    [|intros [= <-]; now apply published_time_throw in Tx].
  destruct (published_time b) as [bTime|e'] eqn:Tb; simpl;
    [discriminate | intros [= <-]; now apply published_time_throw in Tb].
Qed.

Lemma consider_unparsed (best : option (JsVal * Semver)) (x : JsVal) :
  version_of x = Ok None -> consider best x = Ok best.
Proof. unfold consider, version_of. now intros ->. Qed.


Lemma consider_keeps (b : JsVal * Semver) (x : JsVal) (b' : option (JsVal * Semver)) :
  consider (Some b) x = Ok b' -> exists b'', b' = Some b''.
Proof.
  intros [[_ ->]|(vx & _ & [[[=] _]|(b0 & vb & _
    & [[_ ->]|[(_ & _ & aTime & bTime & _ & _ & ->)|(_ & _ & ->)]])])]%consider_Ok;
    eauto.
  destruct (num_gt _ _); eauto.
Qed.

(** What a turn ends with is what it started with or the candidate, with
    the candidate's parsed version. *)
Lemma consider_pick (best : option (JsVal * Semver)) (x r : JsVal) (sv : Semver) :
  consider best x = Ok (Some (r, sv)) ->
  best = Some (r, sv) \/ (r = x /\ version_of x = Ok (Some sv)).
Proof.
  intros [[_ <-]|(vx & Vx & [[_ [= <- <-]]|(b0 & vb & -> &
    [[_ [= <- <-]]|[(_ & _ & aTime & bTime & _ & _ & E)|(_ & _ & <-)]])])]%consider_Ok;
    auto.
  destruct (num_gt _ _); injection E as <- <-; auto.
Qed.

(** *** The loop *)

Lemma scan_keeps (l : list JsVal) (b : JsVal * Semver) (b' : option (JsVal * Semver)) :
  scan (Some b) l = Ok b' -> exists b'', b' = Some b''.
Proof.
  revert b. induction l as [|x l IH]; intros b; simpl; [intros [= <-]; eauto|].
  destruct (consider (Some b) x) as [b1|e] eqn:E; simpl; [|discriminate].
  destruct (consider_keeps _ _ _ E) as (b2 & ->). apply IH.
Qed.

Lemma scan_throw (l : list JsVal) (best : option (JsVal * Semver)) (e : Exn) :
  scan best l = Throw e -> e = TypeError.
Proof.
  revert best. induction l as [|x l IH]; intros best; simpl; [discriminate|].
  destruct (consider best x) as [b1|e'] eqn:E; simpl; [apply IH|].
  intros [= <-]. now apply consider_throw in E.
Qed.

Lemma scan_pick (l : list JsVal) (best : option (JsVal * Semver))
      (r : JsVal) (sv : Semver) :
  scan best l = Ok (Some (r, sv)) ->
  best = Some (r, sv) \/ (In r l /\ version_of r = Ok (Some sv)).
Proof.
  revert best. induction l as [|x l IH]; intros best; simpl; [intros [= <-]; now left|].
  destruct (consider best x) as [b1|e] eqn:E; simpl; [|discriminate].
  intros S. destruct (IH _ S) as [->|[Hin Hp]].
  - destruct (consider_pick _ _ _ _ E) as [->|[-> Hp]]; [now left|].
    right. split; [now left | exact Hp].
  - right. split; [now right | exact Hp].
Qed.

(** The loop passes the candidates whose tag does not parse. *)
Lemma scan_unparsed (l : list JsVal) (best : option (JsVal * Semver)) :
  (forall c, In c l -> version_of c = Ok None) -> scan best l = Ok best.
Proof.
  induction l as [|x l IH]; simpl; intros N; [reflexivity|].
  rewrite (consider_unparsed best x) by (apply N; now left). simpl.
  apply IH. intros c Hc. apply N. now right.
Qed.

Lemma scan_None (l : list JsVal) :
  scan None l = Ok None <-> forall c, In c l -> version_of c = Ok None.
Proof.
  split; [|apply scan_unparsed].
  induction l as [|x l IH]; simpl; [intros _ c []|].
  destruct (consider None x) as [b1|e] eqn:E; simpl; [|discriminate].
  intros S.
  destruct (consider_Ok _ _ _ E) as [[Vx ->]|(vx & Vx & [[_ ->]|(b & vb & [=] & _)])].
  - intros c [<-|Hc]; [exact Vx | now apply IH].
  - destruct (scan_keeps _ _ _ S) as (b'' & [=]).
Qed.

(** [pickBestRelease] on an array: the loop's pick, else the head of the
    pool. *)
Lemma pickBestRelease_array (rs : list JsVal) :
  pickBestRelease (JArr rs) =
    (best <~ scan None (candidates_of rs) ;;
     Ok match best with
        | Some (release, _) => release
        | None => hd JNull (candidates_of rs)
        end).
Proof.
  unfold pickBestRelease. destruct rs as [|x rs]; [reflexivity|].
  cbn [length Nat.eqb].
  destruct (scan None _) as [[[r sv]|]|e]; simpl; [reflexivity| |reflexivity].
  destruct (candidates_of (x :: rs)); reflexivity.
Qed.

Lemma pickBestRelease_in_pool (rs : list JsVal) (r : JsVal) :
  candidates_of rs <> [] -> pickBestRelease (JArr rs) = Ok r ->
  In r (candidates_of rs).
Proof.
  intros Hne. rewrite pickBestRelease_array.
  destruct (scan None _) as [[[r' sv]|]|e] eqn:E; simpl; [| |discriminate].
  - intros [= <-].
    destruct (scan_pick _ _ _ _ E) as [E'|[Hin _]]; [discriminate | exact Hin].
  - intros [= <-]. destruct (candidates_of rs); [contradiction | now left].
Qed.

Lemma pickBestRelease_empty_pool (rs : list JsVal) :
  candidates_of rs = [] -> pickBestRelease (JArr rs) = Ok JNull.
Proof. intros E. rewrite pickBestRelease_array, E. reflexivity. Qed.

Lemma pickBestRelease_not_array (v : JsVal) :
  (forall rs, v <> JArr rs) -> pickBestRelease v = Ok JNull.
Proof.
  destruct v as [| | | | | l |]; try reflexivity. intros N. now destruct (N l).
Qed.

(** [pickBestRelease] raises nothing but a [TypeError]. *)
Lemma pickBestRelease_throw (releases : JsVal) (e : Exn) :
  pickBestRelease releases = Throw e -> e = TypeError.
Proof.
  destruct releases as [| | | | | rs |]; try discriminate.
  rewrite pickBestRelease_array.
  destruct (scan None _) as [b|e'] eqn:E; simpl; [discriminate|].
  intros [= <-]. now apply scan_throw in E.
Qed.

(** *** When nothing is raised *)

Lemma version_of_plain (c : JsVal) :
  primitive (get_prop c "tag_name") = true -> exists r, version_of c = Ok r.
Proof. apply parseSemver_primitive. Qed.

Lemma consider_returns (best : option (JsVal * Semver)) (x : JsVal) :
  plain_release x -> plain_best best ->
  exists b', consider best x = Ok b' /\ plain_best b'.
Proof.
  intros [Tx Dx] Pb. unfold consider.
  destruct (version_of_plain x Tx) as ([vx|] & Vx); unfold version_of in Vx;
    rewrite Vx; simpl; [|eauto].
  assert (Px : plain_best (Some (x, vx))) by (intros ? ? [= <- <-]; now split).
  destruct best as [[b vb]|]; [|eauto].
  destruct (is_positive _); [eauto|]. destruct (is_zero _); [|eauto].
  destruct (published_time_plain x Dx) as (aTime & ->).
  destruct (Pb b vb eq_refl) as [_ Db].
  destruct (published_time_plain b Db) as (bTime & ->). simpl.
  destruct (num_gt aTime bTime); eauto.
Qed.

Lemma scan_returns (l : list JsVal) (best : option (JsVal * Semver)) :
  (forall c, In c l -> plain_release c) -> plain_best best ->
  exists b', scan best l = Ok b'.
Proof.
  revert best. induction l as [|x l IH]; intros best Pl Pb; simpl; [eauto|].
  destruct (consider_returns best x) as (b1 & -> & P1); [apply Pl; now left | exact Pb|].
  simpl. apply IH; [|exact P1]. intros c Hc. apply Pl. now right.
Qed.

(** On releases as the API writes them [pickBestRelease] returns. *)
Lemma pickBestRelease_returns (releases : JsVal) :
  (forall rs c, releases = JArr rs -> In c (candidates_of rs) -> plain_release c) ->
  exists r, pickBestRelease releases = Ok r.
Proof.
  destruct releases as [| | | | | rs |]; try (simpl; eauto; fail).
  intros Pl. rewrite pickBestRelease_array.
  destruct (scan_returns (candidates_of rs) None) as (b & ->);
    [intros c Hc; now apply (Pl rs) | intros ? ? [=] |].
  simpl. eauto.
Qed.

Lemma nonDraft_truthy (r : JsVal) : is_nonDraft r = true -> truthy r = true.
Proof. unfold is_nonDraft. now intros [? _]%andb_true_iff. Qed.

Lemma nonDraft_flag (r : JsVal) :
  is_nonDraft r = true -> truthy (get_prop r "draft") = false.
Proof.
  unfold is_nonDraft. intros [_ ?]%andb_true_iff. now apply negb_true_iff.
Qed.

(** What is returned is absent or comes from the pool. *)
Lemma pickBestRelease_Ok (releases r : JsVal) :
  pickBestRelease releases = Ok r ->
  (r = JNull /\ forall rs, releases = JArr rs -> candidates_of rs = [])
  \/ exists rs, releases = JArr rs /\ In r (candidates_of rs).
Proof.
  destruct releases as [| | | | | rs |];
    try (intros [= <-]; left; split; [reflexivity | discriminate]).
  intros E. destruct (candidates_of rs) as [|c l] eqn:Ec.
  - left. rewrite (pickBestRelease_empty_pool rs Ec) in E. injection E as <-.
    split; [reflexivity|]. now intros ? [= <-].
  - right. exists rs. split; [reflexivity|].
    apply pickBestRelease_in_pool; [rewrite Ec; discriminate | exact E].
Qed.

End SelectionFacts.

Section SelectionProperties.
Context `{Platform}.

(** C1: [pickBestRelease] never returns a release whose draft flag is set.
    Whatever the input, what it returns is absent or an entry of the input
    list that is not a draft; and when the list has an entry that is not a
    draft, what it returns is one.  It does return when the tags and dates
    of the pool are not objects; the one thing it can raise is the
    [TypeError] of a tag or date that does not convert. *)
Theorem pickBestRelease_never_draft (releases : JsVal) :
  (forall r, pickBestRelease releases = Ok r ->
     truthy (get_prop r "draft") = false
     /\ (r = JNull
         \/ exists rs, releases = JArr rs /\ In r rs /\ is_nonDraft r = true))
  /\ (forall rs x r, releases = JArr rs -> In x rs -> is_nonDraft x = true ->
        pickBestRelease releases = Ok r ->
        In r rs /\ truthy r = true /\ truthy (get_prop r "draft") = false)
  /\ ((forall rs c, releases = JArr rs -> In c (candidates_of rs) -> plain_release c) ->
      exists r, pickBestRelease releases = Ok r)
  /\ (forall e, pickBestRelease releases = Throw e -> e = TypeError).
Proof.
  split; [|split; [|split; [apply pickBestRelease_returns | apply pickBestRelease_throw]]].
  - intros r [[-> _]|(rs & -> & Hin)]%pickBestRelease_Ok.
    + split; [reflexivity | now left].
    + apply candidates_nonDraft in Hin as [Hin Hnd].
      split; [now apply nonDraft_flag|]. right. now exists rs.
  - intros rs x r -> Hx Hd E.
    pose proof (pickBestRelease_in_pool rs r (candidates_nonempty rs x Hx Hd) E) as Hin.
    apply candidates_nonDraft in Hin as [Hin Hnd].
    split; [exact Hin|]. split; [now apply nonDraft_truthy | now apply nonDraft_flag].
Qed.

(** C2: a prerelease is returned only when no entry of the input is neither
    draft nor prerelease.  When there is such a stable entry, what is
    returned is one: an entry of the input, not a draft, not a prerelease,
    whatever the versions; so of v1.0.0 (stable) and v1.1.0 (prerelease) it
    is v1.0.0.  A release is returned when the tags and dates of the pool are
    not objects. *)
Theorem pickBestRelease_prefers_stable :
  (forall rs r, pickBestRelease (JArr rs) = Ok r ->
     truthy (get_prop r "prerelease") = true ->
     forall x, In x rs -> is_nonDraft x = true -> is_stable x = false)
  /\ (forall rs x r, In x rs -> is_nonDraft x = true -> is_stable x = true ->
        pickBestRelease (JArr rs) = Ok r ->
        In r rs /\ is_nonDraft r = true
        /\ truthy (get_prop r "prerelease") = false)
  /\ (forall rs, (forall c, In c (candidates_of rs) -> plain_release c) ->
        exists r, pickBestRelease (JArr rs) = Ok r)
  /\ pickBestRelease
       (JArr [JObj [("tag_name", JStr "v1.0.0"); ("prerelease", JBool false)];
              JObj [("tag_name", JStr "v1.1.0"); ("prerelease", JBool true)]])
     = Ok (JObj [("tag_name", JStr "v1.0.0"); ("prerelease", JBool false)]).
Proof.
  assert (Hstable : forall rs x r,
            In x rs -> is_nonDraft x = true -> is_stable x = true ->
            pickBestRelease (JArr rs) = Ok r ->
            In r rs /\ is_nonDraft r = true
            /\ truthy (get_prop r "prerelease") = false).
  { intros rs x r Hx Hd Hs E.
    pose proof (pickBestRelease_in_pool rs r (candidates_nonempty rs x Hx Hd) E) as Hin.
    pose proof (candidates_stable rs x Hx Hd Hs _ Hin) as Hst.
    apply candidates_nonDraft in Hin as [Hin Hnd].
    repeat split; try assumption. now apply negb_true_iff in Hst. }
  split; [|split; [exact Hstable | split; [|reflexivity]]].
  - intros rs r E Hpre x Hx Hd. destruct (is_stable x) eqn:Hs; [|reflexivity].
    destruct (Hstable rs x r Hx Hd Hs E) as (_ & _ & Hno). congruence.
  - intros rs Pl. apply pickBestRelease_returns. intros ? c [= <-]. apply Pl.
Qed.

(** C8: when no candidate of the pool has a version that parses, the result
    is the first entry of the pool, and the pool keeps the order of the
    input; the result is absent exactly when the pool is empty. *)
Theorem pickBestRelease_fallback (rs : list JsVal) :
  sublist (candidates_of rs) rs
  /\ ((forall c, In c (candidates_of rs) ->
         parseSemver (get_prop c "tag_name") = Ok None) ->
      pickBestRelease (JArr rs) = Ok (hd JNull (candidates_of rs)))
  /\ (forall first rest, candidates_of rs = first :: rest ->
      (forall c, In c (first :: rest) ->
         parseSemver (get_prop c "tag_name") = Ok None) ->
      pickBestRelease (JArr rs) = Ok first)
  /\ (pickBestRelease (JArr rs) = Ok JNull <-> candidates_of rs = []).
Proof.
  assert (Hfall : (forall c, In c (candidates_of rs) ->
             parseSemver (get_prop c "tag_name") = Ok None) ->
          pickBestRelease (JArr rs) = Ok (hd JNull (candidates_of rs))).
  { intros Hnone. rewrite pickBestRelease_array.
    apply scan_None in Hnone. now rewrite Hnone. }
  split; [apply candidates_sublist|]. split; [exact Hfall|]. split.
  - intros first rest E Hnone. rewrite Hfall; rewrite E; [reflexivity | exact Hnone].
  - split.
    + intros E. destruct (candidates_of rs) as [|c l] eqn:Ec; [reflexivity|].
      assert (Hne : candidates_of rs <> []) by (rewrite Ec; discriminate).
      apply (pickBestRelease_in_pool rs JNull Hne) in E.
      apply candidates_nonDraft in E as [_ Hnd]. discriminate.
    + apply pickBestRelease_empty_pool.
Qed.





End SelectionProperties.

(* ===================================================================== *)
(** ** pickWindowsAsset *)
(* ===================================================================== *)

(** *** Ignoring case *)

(** [toLowerCase] and the folding of A-Z differ only on code units that
    neither maps below 128. *)
Lemma lower_fold_case (c k : ascii) :
  (code k <? 128)%N = true -> (lower c = k <-> fold_case c = k).
Proof.
  intros Hk.
  destruct c as [[] [] [] [] [] [] [] []];
    (split; intros <-; first [reflexivity | discriminate Hk]).
Qed.

Lemma toLowerCase_fold_case (s k : string) :
  below_128 k = true -> (toLowerCase s = k <-> fold_case_string s = k).
Proof.
  revert k. induction s as [|c s IH]; intros [|x k]; simpl; try tauto;
    try (intros _; split; discriminate).
  intros [Hx Hk]%andb_true_iff. specialize (IH k Hk).
  pose proof (lower_fold_case c x Hx) as Hc.
  split; intros [= E1 E2]; f_equal; tauto.
Qed.

Lemma endsWith_toLowerCase (s ext : string) :
  endsWith (toLowerCase s) ext = true <->
  exists pre suf, s = pre +:+ suf /\ toLowerCase suf = ext.
Proof.
  induction s as [|c s IH]; cbn [endsWith toLowerCase].
  - rewrite String.eqb_eq. split.
    + intros ->. now exists EmptyString, EmptyString.
    + intros ([|] & [|] & E & <-); try discriminate. reflexivity.
  - rewrite orb_true_iff, IH, String.eqb_eq. split.
    + intros [E|(pre & suf & -> & E)].
      * exists EmptyString, (String c s). now split.
      * exists (String c pre), suf. now split.
    + intros ([|c' pre] & suf & E & E').
      * left. simpl in E. subst suf. exact E'.
      * right. simpl in E. injection E as _ ->. now exists pre, suf.
Qed.

Lemma endsWith_ci (name ext : string) :
  below_128 ext = true ->
  (endsWith (toLowerCase name) ext = true <-> ends_with_ci name ext).
Proof.
  intros Hk. rewrite endsWith_toLowerCase. unfold ends_with_ci.
  split; intros (pre & suf & E & E'); exists pre, suf; (split; [exact E|]);
    now apply (toLowerCase_fold_case suf ext Hk).
Qed.

Lemma ci_prefix_spec (pat s : string) :
  ci_prefix pat s = true <->
  exists mid post, s = mid +:+ post /\ fold_case_string mid = pat.
Proof.
  revert s. induction pat as [|p pat IH]; intros s.
  - simpl. split; [|reflexivity]. intros _. now exists EmptyString, s.
  - destruct s as [|c s]; simpl.
    + split; [discriminate|]. intros ([|] & post & E & E'); discriminate.
    + rewrite andb_true_iff, IH. unfold ci_eqb. fold (fold_case c).
      rewrite Ascii.eqb_eq. split.
      * intros (-> & mid & post & -> & <-). now exists (String c mid), post.
      * intros ([|c' mid] & post & E & E'); [discriminate|].
        simpl in E, E'. injection E as <- ->. injection E' as <- <-.
        split; [reflexivity|]. now exists mid, post.
Qed.

Lemma ci_test_spec (pat s : string) : ci_test pat s = true <-> contains_ci s pat.
Proof.
  unfold contains_ci. induction s as [|c s IH].
  - simpl. rewrite orb_false_r, ci_prefix_spec. split.
    + intros (mid & post & E & E'). now exists EmptyString, mid, post.
    + intros ([|] & mid & post & E & E'); [|discriminate]. now exists mid, post.
  - cbn [ci_test]. rewrite orb_true_iff, IH, ci_prefix_spec. split.
    + intros [(mid & post & E & E')|(pre & mid & post & E & E')].
      * now exists EmptyString, mid, post.
      * exists (String c pre), mid, post. split; [now rewrite E | exact E'].
    + intros ([|c' pre] & mid & post & E & E').
      * left. now exists mid, post.
      * right. simpl in E. injection E as _ E. now exists pre, mid, post.
Qed.

(** *** The three tests on an asset *)

Lemma isExe_iff (a : JsVal) : isExe a = true <-> is_installer a.
Proof.
  unfold isExe, is_installer, asset_name, name_of. split.
  - intros [[_ Hs]%andb_true_iff He]%andb_true_iff.
    destruct (get_prop a "name") as [| | | |name| |]; try discriminate.
    exists name. split; [reflexivity|]. now apply (endsWith_ci name ".exe").
  - intros (name & En & He).
    destruct a as [| | | | | |fields]; try discriminate.
    destruct (get_prop (JObj fields) "name") as [| | | |s| |]; try discriminate.
    injection En as ->. simpl. now apply (endsWith_ci name ".exe").
Qed.

Lemma is_opendrop_iff (a : JsVal) :
  isExe a = true -> (is_opendrop a = true <-> names_product a).
Proof.
  intros (name & En & _)%isExe_iff.
  unfold is_opendrop, names_product, name_of. rewrite En.
  unfold asset_name in En.
  destruct (get_prop a "name") as [| | | |s| |]; try discriminate.
  injection En as ->. rewrite ci_test_spec. split.
  - intros C. now exists name.
  - now intros (n & [= <-] & C).
Qed.

Lemma has_role_iff (a : JsVal) :
  isExe a = true -> (has_role a = true <-> names_role a).
Proof.
  intros (name & En & _)%isExe_iff.
  unfold has_role, names_role, name_of. rewrite En.
  unfold asset_name in En.
  destruct (get_prop a "name") as [| | | |s| |]; try discriminate.
  injection En as ->. cbv zeta. rewrite !orb_true_iff, !ci_test_spec. split.
  - intros C. exists name. split; [reflexivity | tauto].
  - intros (n & [= <-] & C). tauto.
Qed.

(** *** First match *)

Lemma find_first_with {A} (f : A -> bool) (l : list A) (x : A) :
  List.find f l = Some x -> first_with (fun y => f y = true) l x.
Proof.
  induction l as [|y l IH]; simpl; [discriminate|].
  destruct (f y) eqn:Fy.
  - intros [= <-]. exists [], l. repeat split; [exact Fy | intros ? []].
  - intros E. destruct (IH E) as (before & after & -> & Fx & Hb).
    exists (y :: before), after. repeat split; [exact Fx|].
    intros z [<-|Hz]; [congruence | now apply Hb].
Qed.

Lemma first_with_iff {A} (P Q : A -> Prop) (l : list A) (x : A) :
  (forall y, P y <-> Q y) -> first_with P l x -> first_with Q l x.
Proof.
  intros PQ (before & after & E & Px & Hb).
  exists before, after. repeat split; [exact E | now apply PQ |].
  intros y Hy Qy. apply (Hb y Hy). now apply PQ.
Qed.

Lemma first_with_In {A} (P : A -> Prop) (l : list A) (x : A) :
  first_with P l x -> In x l /\ P x.
Proof.
  intros (before & after & -> & Px & _). split; [|exact Px].
  apply in_or_app. right. now left.
Qed.

Lemma find_filter {A} (p q : A -> bool) (l : list A) :
  List.find p (List.filter q l) = List.find (fun y => q y && p y) l.
Proof.
  induction l as [|y l IH]; simpl; [reflexivity|].
  destruct (q y); simpl; [|exact IH]. now rewrite IH.
Qed.

Lemma head_filter {A} (q : A -> bool) (l : list A) :
  List.find q l = match List.filter q l with [] => None | x :: _ => Some x end.
Proof.
  induction l as [|y l IH]; simpl; [reflexivity|]. now destruct (q y).
Qed.

(** [pickWindowsAsset] as three searches of the input list. *)
Lemma pickWindowsAsset_array (l : list JsVal) :
  pickWindowsAsset (JArr l) =
    match List.find isExe l with
    | None => JNull
    | Some first =>
        match List.find (fun a => isExe a && (is_opendrop a && has_role a)) l with
        | Some preferred => preferred
        | None =>
            match List.find (fun a => isExe a && is_opendrop a) l with
            | Some opendropAny => opendropAny
            | None => first
            end
        end
    end.
Proof.
  unfold pickWindowsAsset. rewrite !find_filter, (head_filter isExe l).
  destruct l as [|x l]; [reflexivity|]. cbn [length Nat.eqb].
  destruct (List.filter isExe (x :: l)); reflexivity.
Qed.

Lemma preferred_iff (a : JsVal) :
  isExe a && (is_opendrop a && has_role a) = true <-> preferred_installer a.
Proof.
  unfold preferred_installer. rewrite !andb_true_iff, <- isExe_iff. split.
  - intros (E & P & R). split; [exact E|].
    split; [now apply is_opendrop_iff | now apply has_role_iff].
  - intros (E & P & R). split; [exact E|].
    split; [now apply is_opendrop_iff | now apply has_role_iff].
Qed.

Lemma product_iff (a : JsVal) :
  isExe a && is_opendrop a = true <-> product_installer a.
Proof.
  unfold product_installer. rewrite andb_true_iff, <- isExe_iff.
  split; intros (E & P); (split; [exact E | now apply is_opendrop_iff]).
Qed.

Lemma find_none_not {A} (f : A -> bool) (P : A -> Prop) (l : list A) :
  (forall y, f y = true <-> P y) ->
  List.find f l = None -> forall y, In y l -> ~ P y.
Proof.
  intros FP E y Hy Py. apply FP in Py.
  rewrite (find_none f l E y Hy) in Py. discriminate.
Qed.

Lemma find_first_prop {A} (f : A -> bool) (P : A -> Prop) (l : list A) (x : A) :
  (forall y, f y = true <-> P y) ->
  List.find f l = Some x -> first_with P l x.
Proof.
  intros FP E. apply (first_with_iff (fun y => f y = true)); [exact FP|].
  now apply find_first_with.
Qed.

(** The result by cases, in the order the tiers are tried. *)
Lemma pickWindowsAsset_tiers (l : list JsVal) :
  (pickWindowsAsset (JArr l) = JNull /\ forall a, In a l -> ~ is_installer a)
  \/ first_with preferred_installer l (pickWindowsAsset (JArr l))
  \/ ((forall a, In a l -> ~ preferred_installer a)
      /\ first_with product_installer l (pickWindowsAsset (JArr l)))
  \/ ((forall a, In a l -> ~ product_installer a)
      /\ first_with is_installer l (pickWindowsAsset (JArr l))).
Proof.
  rewrite pickWindowsAsset_array.
  destruct (List.find isExe l) as [first|] eqn:F1.
  2:{ left. split; [reflexivity|]. exact (find_none_not _ _ l isExe_iff F1). }
  right.
  destruct (List.find (fun a => isExe a && (is_opendrop a && has_role a)) l)
    as [preferred|] eqn:F2.
  { left. exact (find_first_prop _ _ l _ preferred_iff F2). }
  right.
  destruct (List.find (fun a => isExe a && is_opendrop a) l) as [opendropAny|] eqn:F3.
  - left. split.
    + exact (find_none_not _ _ l preferred_iff F2).
    + exact (find_first_prop _ _ l _ product_iff F3).
  - right. split.
    + exact (find_none_not _ _ l product_iff F3).
    + exact (find_first_prop _ _ l _ isExe_iff F1).
Qed.

Lemma installer_not_null : ~ is_installer JNull.
Proof. intros (name & E & _). discriminate. Qed.

(** C5: [pickWindowsAsset] gives absent exactly when no asset of the list
    has a name ending with ".exe", ignoring case (a value that is not a list
    has no assets).  Otherwise it gives an asset of the list whose name ends
    so: the first one whose name also contains "opendrop" and one of
    "server", "setup", "installer", "windows"; when there is none, the first
    one whose name contains "opendrop"; when there is none either, the first
    one at all.  The three lists of the specification select as it says. *)
Theorem pickWindowsAsset_spec (assets : JsVal) :
  (pickWindowsAsset assets = JNull <->
     forall l a, assets = JArr l -> In a l -> ~ is_installer a)
  /\ (pickWindowsAsset assets = JNull \/ is_installer (pickWindowsAsset assets))
  /\ (forall l, assets = JArr l -> (exists a, In a l /\ is_installer a) ->
        In (pickWindowsAsset assets) l
        /\ is_installer (pickWindowsAsset assets)
        /\ ((exists a, In a l /\ preferred_installer a) ->
              first_with preferred_installer l (pickWindowsAsset assets))
        /\ ((forall a, In a l -> ~ preferred_installer a) ->
            (exists a, In a l /\ product_installer a) ->
              first_with product_installer l (pickWindowsAsset assets))
        /\ ((forall a, In a l -> ~ product_installer a) ->
              first_with is_installer l (pickWindowsAsset assets)))
  /\ pickWindowsAsset
       (JArr [JObj [("name", JStr "readme.txt")];
              JObj [("name", JStr "opendrop-setup.exe")];
              JObj [("name", JStr "tool.exe")]])
     = JObj [("name", JStr "opendrop-setup.exe")]
  /\ pickWindowsAsset (JArr [JObj [("name", JStr "foo.exe")]])
     = JObj [("name", JStr "foo.exe")]
  /\ pickWindowsAsset (JArr [JObj [("name", JStr "readme.txt")]]) = JNull.
Proof.
  split; [|split; [|split; [|repeat split]]].
  - destruct assets as [| | | | | l |]; try (split; [discriminate | reflexivity]).
    destruct (pickWindowsAsset_tiers l) as [[E N]|[F|[[_ F]|[_ F]]]].
    + split; [|intros _; exact E]. intros _ l' a [= <-]. apply N.
    + apply first_with_In in F as [Hin (I & _)].
      split; [intros E; rewrite E in I; destruct (installer_not_null I)|].
      intros N. destruct (N l _ eq_refl Hin I).
    + apply first_with_In in F as [Hin (I & _)].
      split; [intros E; rewrite E in I; destruct (installer_not_null I)|].
      intros N. destruct (N l _ eq_refl Hin I).
    + apply first_with_In in F as [Hin I].
      split; [intros E; rewrite E in I; destruct (installer_not_null I)|].
      intros N. destruct (N l _ eq_refl Hin I).
  - destruct assets as [| | | | | l |]; try (now left).
    destruct (pickWindowsAsset_tiers l) as [[E N]|[F|[[_ F]|[_ F]]]];
      [now left | right; apply first_with_In in F as [_ I] ..].
    + apply I.
    + apply I.
    + exact I.
  - intros l -> (a & Ha & Ia).
    destruct (pickWindowsAsset_tiers l) as [[E N]|[F|[[N F]|[N F]]]].
    + destruct (N a Ha Ia).
    + pose proof (first_with_In _ _ _ F) as [Hin P].
      split; [exact Hin|]. split; [apply P|]. split; [intros _; exact F|].
      split.
      * intros N. destruct (N _ Hin P).
      * intros N. destruct (N _ Hin). destruct P as (I & Pr & _). now split.
    + pose proof (first_with_In _ _ _ F) as [Hin P].
      split; [exact Hin|]. split; [apply P|]. split.
      * intros (b & Hb & Pb). destruct (N b Hb Pb).
      * split; [intros _ _; exact F|]. intros N'. destruct (N' _ Hin P).
    + pose proof (first_with_In _ _ _ F) as [Hin I].
      split; [exact Hin|]. split; [exact I|]. split.
      * intros (b & Hb & (Ib & Pb & _)). destruct (N b Hb). now split.
      * split; [|intros _; exact F].
        intros _ (b & Hb & Pb). destruct (N b Hb Pb).
Qed.

(* ===================================================================== *)
(** ** updateReleaseUI *)
(* ===================================================================== *)

Lemma lookup_write_element (f : Element -> Element) (id j : string)
      (doc : gmap string Element) :
  write_element f id doc !! j = if decide (id = j) then f <$> doc !! j else doc !! j.
Proof.
  unfold write_element. rewrite <- alter_alt, lookup_alter.
  case_decide; [subst|]; reflexivity.
Qed.

Lemma js_or_truthy_r (a b : JsVal) : truthy b = true -> truthy (js_or a b) = true.
Proof. intros B. unfold js_or. destruct (truthy a) eqn:A; assumption. Qed.

Lemma js_or_truthy_l (a b : JsVal) : truthy a = true -> js_or a b = a.
Proof. intros A. unfold js_or. now rewrite A. Qed.

Lemma latestRelease_truthy : truthy (JStr URLS.latestRelease) = true.
Proof. reflexivity. Qed.

Lemma download_url_truthy (release : JsVal) : truthy (download_url release) = true.
Proof. apply js_or_truthy_r, latestRelease_truthy. Qed.

Lemma has_element_Some (doc : gmap string Element) (id : string) :
  has_element doc id = true <-> exists el, doc !! id = Some el.
Proof.
  unfold has_element. destruct (doc !! id) as [el|]; split; eauto; try discriminate.
  intros (el & [=]).
Qed.

(** *** The page after the first writes *)

Lemma lookup_stage (n : nat) (text : string) (release : JsVal)
      (doc : gmap string Element) (j : string) :
  stage n text release doc !! j = shown_first n text release j <$> doc !! j.
Proof. unfold stage. rewrite map_lookup_imap. now destruct (doc !! j). Qed.

Lemma dom_stage (n : nat) (text : string) (release : JsVal) (doc : gmap string Element) :
  dom (stage n text release doc) = dom doc.
Proof.
  apply set_eq. intros j. rewrite !elem_of_dom, lookup_stage. now rewrite fmap_is_Some.
Qed.

Lemma has_element_stage (n : nat) (text : string) (release : JsVal)
      (doc : gmap string Element) (id : string) :
  has_element (stage n text release doc) id = has_element doc id.
Proof. unfold has_element. rewrite lookup_stage. now destruct (doc !! id). Qed.

Ltac ids_cases :=
  repeat match goal with
         | |- context [decide (?i = ?j)] =>
             destruct (decide (i = j)) as [?|?]; subst; try discriminate
         | |- context [String.eqb ?i ?j] =>
             destruct (String.eqb_spec i j) as [?|?]; subst; try discriminate
         end.

Lemma shown_first_0 (text : string) (release : JsVal) (j : string) (el : Element) :
  shown_first 0 text release j el = el.
Proof. reflexivity. Qed.

Lemma shown_other (text : string) (release : JsVal) (j : string) (el : Element) :
  ~ In j written_ids -> shown text release j el = el.
Proof.
  intros N. unfold shown.
  ids_cases; try reflexivity; exfalso; apply N; unfold written_ids; simpl; tauto.
Qed.

Lemma shown_first_other (n : nat) (text : string) (release : JsVal)
      (j : string) (el : Element) :
  ~ In j written_ids -> shown_first n text release j el = el.
Proof.
  intros N. unfold shown_first. rewrite (shown_other _ _ _ _ N).
  now destruct (existsb _ _).
Qed.

Lemma shown_first_5 (text : string) (release : JsVal) (j : string) (el : Element) :
  shown_first 5 text release j el = shown text release j el.
Proof.
  unfold shown_first. destruct (existsb _ _) eqn:E; [reflexivity|].
  symmetry. apply shown_other. intros Hin.
  assert (existsb (String.eqb j) (firstn 5 written_ids) = true); [|congruence].
  apply existsb_exists. exists j. split; [exact Hin | apply String.eqb_refl].
Qed.

Lemma stage_0 (text : string) (release : JsVal) (doc : gmap string Element) :
  stage 0 text release doc = doc.
Proof.
  apply map_eq. intros j. rewrite lookup_stage. now destruct (doc !! j).
Qed.

(** One more write: the element under the next id gets what [shown] says. *)
Lemma stage_write (n : nat) (id : string) (f : Element -> Element)
      (text : string) (release : JsVal) (doc : gmap string Element) :
  nth_error written_ids n = Some id ->
  (forall el, f el = shown text release id el) ->
  write_element f id (stage n text release doc) = stage (S n) text release doc.
Proof.
  intros Hn Hf. apply map_eq. intros j.
  rewrite lookup_write_element, !lookup_stage.
  destruct (doc !! j) as [el|]; [|now destruct (decide _)]. simpl.
  destruct n as [|[|[|[|[|n]]]]]; simpl in Hn; try discriminate;
    [injection Hn as <- ..| destruct n; discriminate];
    (destruct (decide (_ = j)) as [<-|N]; simpl; f_equal;
     [rewrite Hf; reflexivity|]);
    unfold shown_first; cbn [firstn written_ids existsb];
    ids_cases; try reflexivity; congruence.
Qed.

(** A write to an element the page does not have changes nothing. *)
Lemma stage_skip (n : nat) (id : string)
      (text : string) (release : JsVal) (doc : gmap string Element) :
  nth_error written_ids n = Some id -> doc !! id = None ->
  stage (S n) text release doc = stage n text release doc.
Proof.
  intros Hn D. rewrite <- (stage_write n id (shown text release id)) by auto.
  unfold write_element. now rewrite lookup_stage, D.
Qed.

Lemma shown_absorbs (n : nat) (t1 t2 : string) (r1 r2 : JsVal) (j : string) (el : Element) :
  shown t2 r2 j (shown_first n t1 r1 j el) = shown t2 r2 j el.
Proof.
  unfold shown_first. destruct (existsb _ _); [|reflexivity].
  unfold shown. ids_cases; reflexivity.
Qed.

Lemma shown_first_same (n m : nat) (text : string) (release : JsVal)
      (j : string) (el : Element) :
  (m <= n)%nat ->
  shown_first n text release j (shown_first m text release j el)
  = shown_first n text release j el.
Proof.
  intros L. unfold shown_first at 1 3.
  destruct (existsb _ (firstn n _)) eqn:E.
  - apply shown_absorbs.
  - unfold shown_first. destruct (existsb _ (firstn m _)) eqn:E'; [|reflexivity].
    apply existsb_exists in E' as (x & Hin & Hx).
    assert (existsb (String.eqb j) (firstn n written_ids) = true); [|congruence].
    apply existsb_exists. exists x. split; [|exact Hx].
    rewrite <- (firstn_skipn m (firstn n written_ids)), firstn_firstn.
    apply in_or_app. left. now rewrite Nat.min_l.
Qed.

Lemma shown_first_dataset (n : nat) (text : string) (release : JsVal)
      (j : string) (el : Element) :
  dataset_fallbackHref (shown_first n text release j el) = dataset_fallbackHref el.
Proof.
  unfold shown_first. destruct (existsb _ _); [|reflexivity].
  unfold shown. ids_cases; reflexivity.
Qed.

Lemma shown_first_href (n : nat) (text : string) (release : JsVal)
      (j : string) (el : Element) :
  In j [ELEMENTS.badgeText; ELEMENTS.versionText] ->
  href (shown_first n text release j el) = href el.
Proof.
  unfold shown_first. destruct (existsb _ _); [|reflexivity].
  intros [<-|[<-|[]]]; reflexivity.
Qed.

Lemma shown_first_text (n : nat) (text : string) (release : JsVal)
      (j : string) (el : Element) :
  In j [ELEMENTS.badgeLink; ELEMENTS.heroDownload; ELEMENTS.windowsDownload] ->
  textContent (shown_first n text release j el) = textContent el.
Proof.
  unfold shown_first. destruct (existsb _ _); [|reflexivity].
  intros [<-|[<-|[<-|[]]]]; reflexivity.
Qed.

Section PresentationFacts.
Context `{Platform}.

Lemma coercible_true (v : JsVal) : coercible v = true <-> exists s, ToString v = Ok s.
Proof.
  unfold coercible. destruct (ToString v) as [s|e]; split; eauto; try discriminate.
  intros (s & [=]).
Qed.

Lemma coercible_primitive (v : JsVal) : primitive v = true -> coercible v = true.
Proof. intros P. apply coercible_true. now apply ToString_primitive. Qed.

Lemma js_or_primitive (a b : JsVal) :
  primitive a = true -> primitive b = true -> primitive (js_or a b) = true.
Proof. intros A B. unfold js_or. now destruct (truthy a). Qed.

(** *** The steps *)

Lemma setTextSafe_run (id text : string) (w : World) :
  setTextSafe id text w
  = (Ok tt, with_document (write_element (with_text text) id (document w)) w).
Proof. reflexivity. Qed.

Lemma assign_href_run (id : string) (v : JsVal) (w : World) :
  assign_href id v w
  = if coercible v
    then (Ok tt, with_document (write_element (with_href v) id (document w)) w)
    else (Throw TypeError, w).
Proof.
  unfold assign_href, bind, lift, coercible.
  destruct (ToString v) as [s|e] eqn:E; [reflexivity|].
  now rewrite (ToString_throw v e E).
Qed.

Lemma setHrefSafe_run (id : string) (h : JsVal) (w : World) :
  setHrefSafe id h w
  = match document w !! id with
    | None => (Ok tt, w)
    | Some el =>
        assign_href id
          (js_or (js_or h (dataset_fallbackHref el)) (JStr URLS.latestRelease)) w
    end.
Proof.
  unfold setHrefSafe, bind, getElementById. now destruct (document w !! id).
Qed.

Lemma setHrefSafe_truthy (id : string) (h : JsVal) (w : World) :
  truthy h = true ->
  setHrefSafe id h w
  = if has_element (document w) id then assign_href id h w else (Ok tt, w).
Proof.
  intros T. rewrite setHrefSafe_run. unfold has_element.
  destruct (document w !! id) as [el|]; [|reflexivity].
  now rewrite (js_or_truthy_l h _ T), (js_or_truthy_l h _ T).
Qed.

Lemma with_document_same (w : World) : with_document (document w) w = w.
Proof. now destruct w. Qed.

Lemma with_document_twice (d1 d2 : gmap string Element) (w : World) :
  with_document d2 (with_document d1 w) = with_document d2 w.
Proof. reflexivity. Qed.

Lemma write_element_absent (f : Element -> Element) (id : string)
      (doc : gmap string Element) :
  doc !! id = None -> write_element f id doc = doc.
Proof. intros E. unfold write_element. now rewrite E. Qed.

Lemma updateReleaseUI_falsy (release : JsVal) (w : World) :
  truthy release = false -> updateReleaseUI release w = (Ok tt, w).
Proof. intros F. unfold updateReleaseUI. now rewrite F. Qed.

(** A guarded assignment of an address, as the next write. *)
Lemma href_step (n : nat) (id : string) (v : JsVal) (text : string) (release : JsVal)
      (doc : gmap string Element) (w : World) :
  nth_error written_ids n = Some id ->
  (forall el, with_href v el = shown text release id el) ->
  (if has_element doc id
   then assign_href id v (with_document (stage n text release doc) w)
   else (Ok tt, with_document (stage n text release doc) w))
  = if has_element doc id && negb (coercible v)
    then (Throw TypeError, with_document (stage n text release doc) w)
    else (Ok tt, with_document (stage (S n) text release doc) w).
Proof.
  intros Hn Hf. unfold has_element.
  destruct (doc !! id) as [el|] eqn:D; cbn [andb].
  - rewrite assign_href_run. destruct (coercible v); [|reflexivity]. cbn [negb].
    cbn [document with_document]. now rewrite (stage_write n id) by assumption.
  - now rewrite (stage_skip n id) by assumption.
Qed.

Lemma text_step (n : nat) (id : string) (s : string) (text : string) (release : JsVal)
      (doc : gmap string Element) (w : World) :
  nth_error written_ids n = Some id ->
  (forall el, with_text s el = shown text release id el) ->
  setTextSafe id s (with_document (stage n text release doc) w)
  = (Ok tt, with_document (stage (S n) text release doc) w).
Proof.
  intros Hn Hf. rewrite setTextSafe_run. cbn [document with_document].
  now rewrite (stage_write n id) by assumption.
Qed.

(** [updateReleaseUI] with a truthy release, step by step. *)
Lemma updateReleaseUI_run (release : JsVal) (w : World) :
  truthy release = true -> updateReleaseUI release w = presentation release w.
Proof.
  intros T. unfold updateReleaseUI, presentation, tag_text. rewrite T. cbn [negb].
  cbv zeta. unfold bind at 1, lift at 1.
  destruct (ToString (js_or (get_prop release "tag_name") (JStr ""))) as [text|e] eqn:TT;
    [|now rewrite (ToString_throw _ _ TT)].
  fold (cleaned_of text). fold (page_url release). fold (download_url release).
  set (doc := document w).
  rewrite <- (with_document_same w) at 1. fold doc.
  rewrite <- (stage_0 text release doc) at 1.
  unfold bind at 1. rewrite (text_step 0 ELEMENTS.badgeText) by reflexivity.
  (* the badge's address *)
  unfold bind at 1.
  assert (A : (badgeLink <- getElementById ELEMENTS.badgeLink ;;
               match badgeLink with
               | Some _ => assign_href ELEMENTS.badgeLink (page_url release)
               | None => ret tt
               end) (with_document (stage 1 text release doc) w)
              = if has_element doc ELEMENTS.badgeLink
                then assign_href ELEMENTS.badgeLink (page_url release)
                       (with_document (stage 1 text release doc) w)
                else (Ok tt, with_document (stage 1 text release doc) w)).
  { unfold bind, getElementById. cbn [document with_document].
    rewrite <- (has_element_stage 1 text release doc). unfold has_element.
    now destruct (stage 1 text release doc !! ELEMENTS.badgeLink). }
  rewrite A, (href_step 1 ELEMENTS.badgeLink) by reflexivity. clear A.
  unfold failing_write. fold doc.
  destruct (has_element doc ELEMENTS.badgeLink && negb (coercible (page_url release)));
    [reflexivity|].
  (* the version text *)
  unfold bind at 1.
  assert (B : forall s,
             (forall el, with_text s el = shown text release ELEMENTS.versionText el) ->
             (versionText <- getElementById ELEMENTS.versionText ;;
               match versionText with
               | Some _ => setTextSafe ELEMENTS.versionText s
               | None => ret tt
               end) (with_document (stage 2 text release doc) w)
              = (Ok tt, with_document (stage 3 text release doc) w)).
  { intros s Hs. unfold bind, getElementById. cbn [document with_document].
    destruct (stage 2 text release doc !! ELEMENTS.versionText) as [el|] eqn:E.
    - now apply text_step.
    - rewrite lookup_stage in E. unfold ret.
      rewrite (stage_skip 2 ELEMENTS.versionText); [reflexivity..|].
      now destruct (doc !! ELEMENTS.versionText). }
  rewrite B by reflexivity. clear B.
  (* the download buttons *)
  pose proof (download_url_truthy release) as D.
  unfold bind at 1. rewrite (setHrefSafe_truthy _ _ _ D).
  cbn [document with_document]. rewrite has_element_stage.
  rewrite (href_step 3 ELEMENTS.heroDownload (download_url release)) by reflexivity.
  destruct (has_element doc ELEMENTS.heroDownload) eqn:Hh; cbn [andb orb].
  - destruct (coercible (download_url release)) eqn:C; cbn [negb]; [|reflexivity].
    rewrite (setHrefSafe_truthy _ _ _ D).
    cbn [document with_document]. rewrite has_element_stage.
    rewrite (href_step 4 ELEMENTS.windowsDownload (download_url release)) by reflexivity.
    now rewrite C, andb_false_r.
  - rewrite (setHrefSafe_truthy _ _ _ D).
    cbn [document with_document]. rewrite has_element_stage.
    rewrite (href_step 4 ELEMENTS.windowsDownload (download_url release)) by reflexivity.
    destruct (has_element doc ELEMENTS.windowsDownload && _); [|reflexivity].
    rewrite (stage_skip 3 ELEMENTS.heroDownload); [reflexivity..|].
    unfold has_element in Hh. now destruct (doc !! ELEMENTS.heroDownload).
Qed.

Lemma failing_write_cases (release : JsVal) (doc : gmap string Element) (n : nat) :
  failing_write release doc = Some n -> (n <= 3)%nat.
Proof.
  unfold failing_write. destruct (_ && _); [intros [= <-]; lia|].
  destruct (_ && _); [intros [= <-]; lia | discriminate].
Qed.

Lemma failing_write_stage (release : JsVal) (doc : gmap string Element)
      (n : nat) (text : string) (r : JsVal) :
  failing_write release (stage n text r doc) = failing_write release doc.
Proof. unfold failing_write. now rewrite !has_element_stage. Qed.

(** What [updateReleaseUI] does in every case: it makes the first [n] of
    its five writes, all five when it runs to its end with a truthy release,
    at most three when it raises, and what it raises is a [TypeError]. *)
Lemma updateReleaseUI_outcome (release : JsVal) (w : World) :
  exists n text r,
    updateReleaseUI release w = (r, with_document (stage n text release (document w)) w)
    /\ (r = Ok tt \/ (r = Throw TypeError /\ truthy release = true /\ (n <= 3)%nat))
    /\ (truthy release = true -> r = Ok tt ->
        n = 5%nat /\ tag_text release = Ok text
        /\ failing_write release (document w) = None)
    /\ (truthy release = false -> n = 0%nat).
Proof.
  destruct (truthy release) eqn:T.
  - rewrite (updateReleaseUI_run release w T). unfold presentation.
    destruct (tag_text release) as [text|e] eqn:TT.
    + destruct (failing_write release (document w)) as [n|] eqn:F.
      * exists n, text, (Throw TypeError). split; [reflexivity|].
        split; [right; split; [reflexivity|]; split; [reflexivity|];
                now apply failing_write_cases in F|].
        split; [discriminate | discriminate].
      * exists 5%nat, text, (Ok tt). split; [reflexivity|].
        split; [now left|]. split; [auto | discriminate].
    + exists 0%nat, "", (Throw e). rewrite stage_0, with_document_same.
      split; [reflexivity|]. unfold tag_text in TT.
      rewrite (ToString_throw _ _ TT).
      split; [right; split; [reflexivity|]; split; [reflexivity | lia]|].
      split; [discriminate | discriminate].
  - exists 0%nat, "", (Ok tt). rewrite stage_0, with_document_same.
    split; [now apply updateReleaseUI_falsy|]. split; [now left|].
    split; [discriminate | reflexivity].
Qed.

(** A release as the API writes it is presented to the end. *)
Lemma updateReleaseUI_plain (release : JsVal) (w : World) :
  plain_presentation release -> completes release w.
Proof.
  intros (P1 & P2 & P3). unfold completes.
  destruct (truthy release) eqn:T; [|now rewrite updateReleaseUI_falsy].
  rewrite (updateReleaseUI_run release w T). unfold presentation, tag_text.
  destruct (ToString_primitive (js_or (get_prop release "tag_name") (JStr "")))
    as (text & ->); [now apply js_or_primitive|].
  unfold failing_write.
  rewrite (coercible_primitive (page_url release))
    by now apply js_or_primitive.
  rewrite (coercible_primitive (download_url release))
    by (repeat apply js_or_primitive; auto).
  now rewrite !andb_false_r.
Qed.

Lemma lookup_page_after (release : JsVal) (w : World) :
  exists n text,
    (forall j, page_after release w !! j
               = shown_first n text release j <$> document w !! j)
    /\ (truthy release = true -> completes release w ->
        n = 5%nat /\ tag_text release = Ok text)
    /\ (~ completes release w -> (n <= 3)%nat).
Proof.
  destruct (updateReleaseUI_outcome release w) as (n & text & r & E & R & C & F).
  exists n, text. unfold page_after, completes. rewrite E. cbn [fst snd document with_document].
  split; [intros j; apply lookup_stage|]. split.
  - intros T ->. now destruct (C T eq_refl).
  - intros N. destruct R as [->|(_ & _ & L)]; [now destruct N | exact L].
Qed.

(** X6: [updateReleaseUI] neither adds nor removes an element of the page,
    leaves every element other than the five it writes as it was, never
    changes an element's fallback address, writes only the text of the two
    labels and only the address of the three links, and with a falsy release
    changes nothing at all.  This holds whether it runs to its end or
    raises; it leaves storage and console as they were, and what it raises
    is a [TypeError]. *)
Theorem updateReleaseUI_frame (release : JsVal) (w : World) :
  dom (page_after release w) = dom (document w)
  /\ (forall j, ~ In j written_ids -> page_after release w !! j = document w !! j)
  /\ (forall j el', page_after release w !! j = Some el' ->
        exists el, document w !! j = Some el
                   /\ dataset_fallbackHref el' = dataset_fallbackHref el
                   /\ (In j [ELEMENTS.badgeText; ELEMENTS.versionText] ->
                       href el' = href el)
                   /\ (In j [ELEMENTS.badgeLink; ELEMENTS.heroDownload;
                             ELEMENTS.windowsDownload] ->
                       textContent el' = textContent el))
  /\ (truthy release = false -> updateReleaseUI release w = (Ok tt, w))
  /\ storage (snd (updateReleaseUI release w)) = storage w
  /\ console (snd (updateReleaseUI release w)) = console w
  /\ (forall e, fst (updateReleaseUI release w) = Throw e -> e = TypeError).
Proof.
  destruct (lookup_page_after release w) as (n & text & L & _).
  split; [|split; [|split; [|split; [apply updateReleaseUI_falsy|]]]].
  - apply set_eq. intros j. rewrite !elem_of_dom, L. now rewrite fmap_is_Some.
  - intros j N. rewrite L. destruct (document w !! j) as [el|]; [|reflexivity].
    simpl. now rewrite shown_first_other.
  - intros j el'. rewrite L. destruct (document w !! j) as [el|]; [|discriminate].
    intros [= <-]. exists el. split; [reflexivity|].
    split; [apply shown_first_dataset|].
    split; [apply shown_first_href | apply shown_first_text].
  - destruct (updateReleaseUI_outcome release w) as (n' & text' & r & -> & R & _).
    split; [reflexivity|]. split; [reflexivity|]. intros e. cbn [fst].
    destruct R as [->|(-> & _)]; [discriminate | now intros [= <-]].
Qed.

Lemma download_url_cases (release : JsVal) :
  download_url release
  = (let asset_url := get_prop (pickWindowsAsset (get_prop release "assets"))
                               "browser_download_url" in
     let page_url := get_prop release "html_url" in
     if truthy asset_url then asset_url
     else if truthy page_url then page_url
     else JStr URLS.latestRelease).
Proof.
  unfold download_url, js_or. cbv zeta.
  destruct (truthy (get_prop (pickWindowsAsset _) _)) eqn:A; [now rewrite A|].
  destruct (truthy (get_prop release "html_url")) eqn:B; now rewrite ?B.
Qed.

(** X7: for a truthy release whose update runs to its end, each download
    button the page has gets the same address, and it is never falsy: the
    address of the installer [pickWindowsAsset] picks among the release's
    assets when that is truthy, else the release's page when that is truthy,
    else the page of the latest release; the button's fallback address is
    not used, and its text stays.  The update runs to its end on a release
    as the API writes it; when it does not, it has raised a [TypeError] and
    the button is as it was. *)
Theorem updateReleaseUI_download_links
        (release : JsVal) (w : World) (j : string) (el : Element) :
  truthy release = true ->
  j = ELEMENTS.heroDownload \/ j = ELEMENTS.windowsDownload ->
  document w !! j = Some el ->
  (completes release w ->
   exists el',
     page_after release w !! j = Some el'
     /\ textContent el' = textContent el
     /\ truthy (href el') = true
     /\ (let asset_url := get_prop (pickWindowsAsset (get_prop release "assets"))
                                   "browser_download_url" in
         let page_url := get_prop release "html_url" in
         href el' = if truthy asset_url then asset_url
                    else if truthy page_url then page_url
                    else JStr URLS.latestRelease))
  /\ (plain_presentation release -> completes release w)
  /\ (~ completes release w ->
      fst (updateReleaseUI release w) = Throw TypeError
      /\ page_after release w !! j = Some el).
Proof.
  intros T J D.
  destruct (lookup_page_after release w) as (n & text & L & C & N).
  split; [|split; [apply updateReleaseUI_plain|]].
  - intros Hc. destruct (C T Hc) as [-> _]. rewrite L, D. simpl.
    rewrite shown_first_5.
    exists (shown text release j el). split; [reflexivity|].
    assert (E : shown text release j el = with_href (download_url release) el)
      by (destruct J as [->| ->]; reflexivity).
    rewrite E. simpl. split; [reflexivity|]. split; [apply download_url_truthy|].
    apply download_url_cases.
  - intros Hn. split.
    + destruct (updateReleaseUI_outcome release w) as (n' & text' & r & E & R & _).
      unfold completes in Hn. rewrite E in *. cbn [fst] in *.
      destruct R as [->|(-> & _)]; [now destruct Hn | reflexivity].
    + rewrite L, D. simpl. f_equal. specialize (N Hn).
      unfold shown_first.
      destruct n as [|[|[|[|n]]]]; [| | | |lia];
        destruct J as [->| ->]; reflexivity.
Qed.

Lemma stage_absorb (n : nat) (t1 t2 : string) (r1 r2 : JsVal) (doc : gmap string Element) :
  stage 5 t2 r2 (stage n t1 r1 doc) = stage 5 t2 r2 doc.
Proof.
  apply map_eq. intros j. rewrite !lookup_stage.
  destruct (doc !! j) as [el|]; [|reflexivity]. simpl.
  now rewrite !shown_first_5, shown_absorbs.
Qed.

Lemma stage_same (n : nat) (text : string) (release : JsVal) (doc : gmap string Element) :
  stage n text release (stage n text release doc) = stage n text release doc.
Proof.
  apply map_eq. intros j. rewrite !lookup_stage.
  destruct (doc !! j) as [el|]; [|reflexivity]. simpl.
  now rewrite shown_first_same.
Qed.

Lemma updateReleaseUI_absorb (a b : JsVal) (w : World) :
  truthy b = true -> completes b w ->
  updateReleaseUI b (snd (updateReleaseUI a w)) = updateReleaseUI b w.
Proof.
  intros Tb Cb.
  destruct (updateReleaseUI_outcome a w) as (n & text & r & -> & _). cbn [snd].
  destruct (updateReleaseUI_outcome b w) as (m & tb & rb & Eb & _ & Cm & _).
  unfold completes in Cb. rewrite Eb in Cb. cbn [fst] in Cb. subst rb.
  destruct (Cm Tb eq_refl) as (-> & TT & F). rewrite Eb.
  rewrite (updateReleaseUI_run b _ Tb). unfold presentation. rewrite TT.
  cbn [document with_document]. rewrite failing_write_stage, F.
  now rewrite with_document_twice, stage_absorb.
Qed.

Lemma updateReleaseUI_idem (release : JsVal) (w : World) :
  updateReleaseUI release (snd (updateReleaseUI release w)) = updateReleaseUI release w.
Proof.
  destruct (truthy release) eqn:T; [|now rewrite !updateReleaseUI_falsy].
  rewrite !(updateReleaseUI_run release _ T). unfold presentation.
  destruct (tag_text release) as [text|e]; [|reflexivity].
  destruct (failing_write release (document w)) as [n|] eqn:F; cbn [snd];
    cbn [document with_document]; rewrite failing_write_stage, F;
    now rewrite with_document_twice, stage_same.
Qed.

(** X8: the last update wins.  Updating with a truthy release, when that
    runs to its end, after any other update gives the page that update alone
    gives; so does updating twice with the same release, however it ends.
    An update runs to its end on a release as the API writes it. *)
Theorem updateReleaseUI_last_wins (r1 r2 : JsVal) (w : World) :
  (truthy r2 = true -> completes r2 w ->
   updateReleaseUI r2 (snd (updateReleaseUI r1 w)) = updateReleaseUI r2 w)
  /\ updateReleaseUI r1 (snd (updateReleaseUI r1 w)) = updateReleaseUI r1 w
  /\ (plain_presentation r2 -> completes r2 w).
Proof.
  split; [apply updateReleaseUI_absorb|].
  split; [apply updateReleaseUI_idem | apply updateReleaseUI_plain].
Qed.

(** X9: [setHrefSafe] gives a link an address that is never falsy.  When
    the page has the element, the address is the given one if that is
    truthy, else the element's fallback address if that is truthy, else the
    page of the latest release; when that value converts to text the
    element has it, its text and fallback stay, and no other element
    changes; when it does not, a [TypeError] is raised and nothing changes.
    When the page has no such element nothing changes. *)
Theorem setHrefSafe_spec (id : string) (h : JsVal) (w : World) :
  (document w !! id = None -> setHrefSafe id h w = (Ok tt, w))
  /\ (forall el, document w !! id = Some el ->
        let value := if truthy h then h
                     else if truthy (dataset_fallbackHref el)
                          then dataset_fallbackHref el
                          else JStr URLS.latestRelease in
        truthy value = true
        /\ (coercible value = true ->
            fst (setHrefSafe id h w) = Ok tt
            /\ exists el',
                 document (snd (setHrefSafe id h w)) !! id = Some el'
                 /\ truthy (href el') = true
                 /\ href el' = value
                 /\ textContent el' = textContent el
                 /\ dataset_fallbackHref el' = dataset_fallbackHref el)
        /\ (coercible value = false -> setHrefSafe id h w = (Throw TypeError, w))
        /\ (primitive h = true -> primitive (dataset_fallbackHref el) = true ->
            coercible value = true))
  /\ (forall j, j <> id ->
        document (snd (setHrefSafe id h w)) !! j = document w !! j)
  /\ dom (document (snd (setHrefSafe id h w))) = dom (document w)
  /\ storage (snd (setHrefSafe id h w)) = storage w
  /\ console (snd (setHrefSafe id h w)) = console w.
Proof.
  rewrite setHrefSafe_run.
  assert (V : forall el,
             js_or (js_or h (dataset_fallbackHref el)) (JStr URLS.latestRelease)
             = if truthy h then h
               else if truthy (dataset_fallbackHref el) then dataset_fallbackHref el
                    else JStr URLS.latestRelease).
  { intros el. unfold js_or. destruct (truthy h) eqn:A; [now rewrite A|].
    destruct (truthy (dataset_fallbackHref el)) eqn:B; now rewrite ?B. }
  split; [intros E; now rewrite E|].
  split; [|destruct (document w !! id) as [el|] eqn:E].
  - intros el E value. rewrite E, assign_href_run, (V el). fold value.
    assert (Tv : truthy value = true)
      by (unfold value; rewrite <- V; apply js_or_truthy_r, latestRelease_truthy).
    split; [exact Tv|]. split; [|split].
    + intros ->. split; [reflexivity|]. cbn [snd document with_document].
      unfold write_element. rewrite E, lookup_insert_eq.
      eexists. split; [reflexivity|]. simpl. auto.
    + now intros ->.
    + intros Ph Pf. apply coercible_primitive. unfold value.
      destruct (truthy h); [exact Ph|]. now destruct (truthy _).
  - rewrite assign_href_run.
    destruct (coercible _); cbn [snd document with_document storage console].
    + split; [|split; [|split; reflexivity]].
      * intros j N. rewrite lookup_write_element.
        destruct (decide (id = j)); [congruence | reflexivity].
      * unfold write_element. rewrite E, dom_insert_L.
        apply subseteq_union_1_L, singleton_subseteq_l. apply elem_of_dom. eauto.
    + repeat split.
  - repeat split.
Qed.

End PresentationFacts.

(* ===================================================================== *)
(** ** The cache *)
(* ===================================================================== *)

Section CacheFacts.
Context `{Platform}.

(** [getCachedRelease] ends normally, whatever the storage does and
    whatever the test of the entry raises, and leaves the page as it was. *)
Lemma getCachedRelease_run (now : Z) (w : World) :
  getCachedRelease now w = (Ok (cached_value now (storage w)), w).
Proof.
  unfold getCachedRelease, cached_value, fresh, try_catch, bind, localStorage_getItem.
  destruct (available (storage w)); [|reflexivity].
  destruct (items (storage w) !! CONFIG.cacheKey) as [raw|]; [|reflexivity].
  simpl. destruct (String.eqb raw ""); [reflexivity|]. simpl.
  unfold JSON_parse_M. destruct (JSON_parse raw) as [cached|]; [|reflexivity].
  unfold ret, lift. destruct (isValid now cached) as [valid|e]; reflexivity.
Qed.

(** [cacheRelease] ends normally too; it changes the page only by a write
    that storage takes. *)
Lemma cacheRelease_run (now : Z) (release : JsVal) (w : World) :
  cacheRelease now release w =
    (Ok tt, if write_accepted now release w then stored now release w else w).
Proof.
  unfold cacheRelease, write_accepted, stored, try_catch, localStorage_setItem,
    cache_entry.
  destruct (available (storage w)); [|reflexivity]. simpl.
  destruct (_ <=? _)%nat; reflexivity.
Qed.

(** The test of an entry passes when its [ts] is truthy, converts to a
    number less than the time to live away, and its [release] is truthy. *)
Lemma fresh_spec (now : Z) (cached : JsVal) :
  fresh now cached =
    truthy (get_prop cached "ts")
    && match ToNumber (get_prop cached "ts") with
       | Ok n => num_lt (num_sub (Some now) n) (Some CONFIG.cacheTTL)
       | Throw _ => false
       end
    && truthy (get_prop cached "release").
Proof.
  unfold fresh, isValid, js_and.
  destruct (truthy (get_prop cached "ts")) eqn:T; simpl; [|exact T].
  destruct (ToNumber (get_prop cached "ts")) as [n|e]; simpl; [|reflexivity].
  destruct (num_lt _ _); reflexivity.
Qed.

(** With an entry in storage that decodes, the result is decided by the
    test. *)
Lemma cached_value_decoded (now : Z) (st : Storage) (raw : string) (cached : JsVal) :
  available st = true -> items st !! CONFIG.cacheKey = Some raw ->
  JSON_parse raw = Some cached ->
  cached_value now st =
    if fresh now cached then get_prop cached "release" else JNull.
Proof.
  intros A I P. unfold cached_value. rewrite A, I.
  destruct (String.eqb_spec raw "") as [->|_].
  - rewrite JSON_parse_empty in P. discriminate.
  - now rewrite P.
Qed.

(** A result that is not absent comes from such an entry, one that passes
    the test. *)
Lemma cached_value_inv (now : Z) (st : Storage) :
  cached_value now st <> JNull ->
  exists raw cached,
    available st = true /\ items st !! CONFIG.cacheKey = Some raw
    /\ JSON_parse raw = Some cached
    /\ fresh now cached = true
    /\ cached_value now st = get_prop cached "release".
Proof.
  unfold cached_value. destruct (available st); [|congruence].
  destruct (items st !! CONFIG.cacheKey) as [raw|]; [|congruence].
  destruct (String.eqb raw ""); [congruence|].
  destruct (JSON_parse raw) as [cached|] eqn:P; [|congruence].
  destruct (fresh now cached) eqn:V; [|congruence].
  intros _. now exists raw, cached.
Qed.

End CacheFacts.

(* ===================================================================== *)
(** ** The cache: properties *)
(* ===================================================================== *)

Section CacheProperties.
Context `{Platform}.

(** Whatever is run inside [try] and however it fails, a [catch] that only
    returns ends normally. *)
Lemma try_catch_ret {A} (body : M A) (a : A) (w : World) :
  exists r w', try_catch body (fun _ => ret a) w = (Ok r, w').
Proof.
  unfold try_catch, ret. destruct (body w) as [[r|e] w']; eauto.
Qed.

(** C9: no failure of storage leaves the cache.  [getCachedRelease] ends
    normally for every state of storage and every platform, with absent
    when storage is unavailable or holds text that does not decode, and
    changes nothing; [cacheRelease] ends normally too, and when storage is
    unavailable or the entry does not fit it changes nothing.  The two
    [catch] blocks end normally whatever the [try] blocks do. *)
Theorem cache_swallows_failures (now : Z) (release : JsVal) (w : World) :
  (forall body : M JsVal,
     exists v w', try_catch body (fun _ => ret JNull) w = (Ok v, w'))
  /\ (forall body : M unit,
        exists w', try_catch body (fun _ => ret tt) w = (Ok tt, w'))
  /\ (exists v, getCachedRelease now w = (Ok v, w))
  /\ (available (storage w) = false -> getCachedRelease now w = (Ok JNull, w))
  /\ (forall raw, items (storage w) !! CONFIG.cacheKey = Some raw ->
        JSON_parse raw = None -> getCachedRelease now w = (Ok JNull, w))
  /\ (items (storage w) !! CONFIG.cacheKey = None ->
        getCachedRelease now w = (Ok JNull, w))
  /\ (exists w', cacheRelease now release w = (Ok tt, w')
                 /\ document w' = document w /\ console w' = console w)
  /\ (available (storage w) = false -> cacheRelease now release w = (Ok tt, w))
  /\ ((capacity (storage w)
       < usage (<[CONFIG.cacheKey := JSON_stringify (cache_entry now release)]>
                  (items (storage w))))%nat ->
      cacheRelease now release w = (Ok tt, w)).
Proof.
  rewrite getCachedRelease_run, cacheRelease_run.
  split; [intros body; apply try_catch_ret|].
  split; [intros body; destruct (try_catch_ret body tt w) as ([] & w' & E); eauto|].
  split; [eauto|]. split; [|split; [|split; [|split; [|split]]]].
  - intros A. unfold cached_value. now rewrite A.
  - intros raw I P. unfold cached_value. rewrite I, P.
    destruct (available (storage w)); [|reflexivity].
    now destruct (String.eqb raw "").
  - intros I. unfold cached_value. rewrite I.
    now destruct (available (storage w)).
  - destruct (write_accepted now release w); eauto.
  - intros A. unfold write_accepted. now rewrite A.
  - intros Q. unfold write_accepted.
    destruct (Nat.leb_spec
                (usage (<[CONFIG.cacheKey := JSON_stringify (cache_entry now release)]>
                          (items (storage w))))
                (capacity (storage w))) as [L|_]; [lia|].
    now rewrite andb_false_r.
Qed.

(** C10: [getCachedRelease] gives a release only from an entry that decodes
    and whose [ts] and [release] are both truthy (and it is that [release]).
    An entry that decodes with [ts] 0, or with a falsy [release], gives
    absent, whatever the time. *)
Theorem cached_release_needs_truthy_fields (now : Z) (w : World) :
  (forall v, getCachedRelease now w = (Ok v, w) -> v <> JNull ->
     exists raw cached,
       items (storage w) !! CONFIG.cacheKey = Some raw
       /\ JSON_parse raw = Some cached
       /\ truthy (get_prop cached "ts") = true
       /\ truthy (get_prop cached "release") = true
       /\ v = get_prop cached "release")
  /\ (forall raw cached,
        items (storage w) !! CONFIG.cacheKey = Some raw ->
        JSON_parse raw = Some cached ->
        get_prop cached "ts" = JNum 0 ->
        getCachedRelease now w = (Ok JNull, w))
  /\ (forall raw cached,
        items (storage w) !! CONFIG.cacheKey = Some raw ->
        JSON_parse raw = Some cached ->
        truthy (get_prop cached "release") = false ->
        getCachedRelease now w = (Ok JNull, w)).
Proof.
  rewrite getCachedRelease_run. split; [|split].
  - intros v [= <-] Hv.
    destruct (cached_value_inv now (storage w) Hv) as (raw & cached & _ & I & P & V & E).
    rewrite fresh_spec in V.
    apply andb_true_iff in V as [[T _]%andb_true_iff R].
    now exists raw, cached.
  - intros raw cached I P T.
    destruct (available (storage w)) eqn:A.
    + rewrite (cached_value_decoded now _ raw cached A I P), fresh_spec, T.
      reflexivity.
    + unfold cached_value. now rewrite A.
  - intros raw cached I P R.
    destruct (available (storage w)) eqn:A.
    + rewrite (cached_value_decoded now _ raw cached A I P), fresh_spec, R.
      now rewrite andb_false_r.
    + unfold cached_value. now rewrite A.
Qed.

Lemma stored_lookup (now : Z) (release : JsVal) (w : World) :
  items (storage (stored now release w)) !! CONFIG.cacheKey
  = Some (JSON_stringify (cache_entry now release)).
Proof. unfold stored. simpl. apply lookup_insert_eq. Qed.

Lemma fresh_entry (now_get now_put : Z) (release : JsVal) :
  fresh now_get (cache_entry now_put release) =
    negb (now_put =? 0) && (now_get - now_put <? CONFIG.cacheTTL) && truthy release.
Proof. rewrite fresh_spec. reflexivity. Qed.

(** The reading after a write that storage took, of an entry that decodes
    to itself. *)
Lemma get_after_put (now_put now_get : Z) (release : JsVal) (w : World) :
  write_accepted now_put release w = true ->
  JSON_parse (JSON_stringify (cache_entry now_put release))
    = Some (cache_entry now_put release) ->
  fst (getCachedRelease now_get (snd (cacheRelease now_put release w))) =
    Ok (if negb (now_put =? 0) && (now_get - now_put <? CONFIG.cacheTTL)
           && truthy release
        then release else JNull).
Proof.
  intros W P. rewrite cacheRelease_run, W. cbn [snd].
  rewrite getCachedRelease_run. cbn [fst]. f_equal.
  rewrite (cached_value_decoded now_get (storage (stored now_put release w)) _ _
             eq_refl (stored_lookup _ _ _) P).
  now rewrite fresh_entry.
Qed.

(** C6, as the script has it: [cacheRelease] and then [getCachedRelease],
    before the time to live of 6 hours has passed, gives the release back
    when storage took the write, the entry decodes to itself, and the time
    written as [ts] is not 0 (the release, an object, is truthy).  Whatever
    wrote the entry, once [now - ts] reaches the time to live the result is
    absent. *)
Theorem cache_round_trip :
  CONFIG.cacheTTL = 6 * 60 * 60 * 1000
  /\ (forall now_put now_get release w,
        write_accepted now_put release w = true ->
        JSON_parse (JSON_stringify (cache_entry now_put release))
          = Some (cache_entry now_put release) ->
        truthy release = true ->
        now_put <> 0 ->
        now_get - now_put < CONFIG.cacheTTL ->
        fst (getCachedRelease now_get (snd (cacheRelease now_put release w)))
          = Ok release)
  /\ (forall now_put now_get release w,
        write_accepted now_put release w = true ->
        JSON_parse (JSON_stringify (cache_entry now_put release))
          = Some (cache_entry now_put release) ->
        CONFIG.cacheTTL <= now_get - now_put ->
        fst (getCachedRelease now_get (snd (cacheRelease now_put release w)))
          = Ok JNull)
  /\ (forall now w raw cached ts,
        items (storage w) !! CONFIG.cacheKey = Some raw ->
        JSON_parse raw = Some cached ->
        ToNumber (get_prop cached "ts") = Ok (Some ts) ->
        CONFIG.cacheTTL <= now - ts ->
        getCachedRelease now w = (Ok JNull, w)).
Proof.
  split; [reflexivity|]. split; [|split].
  - intros now_put now_get release w W P T N L.
    rewrite (get_after_put _ _ _ _ W P), T.
    destruct (Z.eqb_spec now_put 0); [contradiction|].
    destruct (Z.ltb_spec (now_get - now_put) CONFIG.cacheTTL); [reflexivity | lia].
  - intros now_put now_get release w W P L.
    rewrite (get_after_put _ _ _ _ W P).
    destruct (Z.ltb_spec (now_get - now_put) CONFIG.cacheTTL); [lia|].
    now rewrite andb_false_r.
  - intros now w raw cached ts I P N L. rewrite getCachedRelease_run.
    destruct (available (storage w)) eqn:A.
    + rewrite (cached_value_decoded now _ raw cached A I P), fresh_spec, N.
      simpl. destruct (Z.ltb_spec (now - ts) CONFIG.cacheTTL); [lia|].
      now rewrite andb_false_r.
    + unfold cached_value. now rewrite A.
Qed.

End CacheProperties.

(* ===================================================================== *)
(** ** The cache: more properties *)
(* ===================================================================== *)

Section CacheMore.
Context `{Platform}.

Lemma fresh_earlier (now now' : Z) (cached : JsVal) :
  now <= now' -> fresh now' cached = true -> fresh now cached = true.
Proof.
  intros L. rewrite !fresh_spec.
  intros [[T A]%andb_true_iff R]%andb_true_iff. rewrite T, R.
  destruct (ToNumber (get_prop cached "ts")) as [[t|]|]; try discriminate. simpl in *.
  destruct (Z.ltb_spec (now' - t) CONFIG.cacheTTL); [|discriminate].
  destruct (Z.ltb_spec (now - t) CONFIG.cacheTTL); [reflexivity | lia].
Qed.

Lemma cached_value_earlier (now now' : Z) (st : Storage) :
  now <= now' -> cached_value now' st <> JNull ->
  cached_value now st = cached_value now' st.
Proof.
  intros L N.
  destruct (cached_value_inv now' st N) as (raw & cached & A & I & P & V & E).
  rewrite E, (cached_value_decoded now st raw cached A I P).
  now rewrite (fresh_earlier now now' cached L V).
Qed.

(** X10: an entry that is fresh at some time was fresh at every earlier
    time: what [getCachedRelease] gives at a time it gives at all times
    before.  So once an entry has gone stale it stays stale until it is
    written again. *)
Theorem getCachedRelease_fresh_earlier (now now' : Z) (w : World) (v : JsVal) :
  now <= now' ->
  getCachedRelease now' w = (Ok v, w) ->
  v <> JNull ->
  getCachedRelease now w = (Ok v, w).
Proof.
  rewrite !getCachedRelease_run. intros L [= <-] N.
  now rewrite (cached_value_earlier now now' (storage w) L N).
Qed.

Lemma cached_value_truthy (now : Z) (st : Storage) :
  cached_value now st = JNull \/ truthy (cached_value now st) = true.
Proof.
  destruct (JsVal_is_null (cached_value now st)) eqn:Z0;
    [left; now destruct (cached_value now st) | right].
  assert (N : cached_value now st <> JNull) by (intros E; rewrite E in Z0; discriminate).
  destruct (cached_value_inv now st N) as (raw & cached & _ & _ & _ & V & E).
  rewrite E. rewrite fresh_spec in V. now apply andb_true_iff in V as [_ R].
Qed.

Lemma pickBestRelease_truthy (releases r : JsVal) :
  pickBestRelease releases = Ok r -> r = JNull \/ truthy r = true.
Proof.
  intros [[-> _]|(rs & -> & Hin)]%pickBestRelease_Ok; [now left | right].
  apply candidates_nonDraft in Hin as [_ Hnd]. now apply nonDraft_truthy.
Qed.

Lemma installer_truthy (a : JsVal) : is_installer a -> truthy a = true.
Proof.
  intros (name & E & _). unfold asset_name in E.
  destruct a as [| | | | | |fields]; try discriminate. reflexivity.
Qed.

Lemma pickWindowsAsset_truthy (assets : JsVal) :
  pickWindowsAsset assets = JNull \/ truthy (pickWindowsAsset assets) = true.
Proof.
  destruct assets as [| | | | | l |]; try (now left).
  destruct (pickWindowsAsset_tiers l) as [[E _]|[F|[[_ F]|[_ F]]]];
    [now left | right; apply first_with_In in F as [_ I] ..];
    apply installer_truthy; solve [apply I | exact I].
Qed.

(** X11: the three lookups give absent ([null]) or a truthy value, never a
    falsy value of another kind ([undefined], 0, the empty string, false);
    so the truthiness tests their callers make tell exactly "absent".
    [pickBestRelease] gives a value on releases as the API writes them. *)
Theorem absent_or_truthy :
  (forall now w v, getCachedRelease now w = (Ok v, w) ->
     v = JNull \/ truthy v = true)
  /\ (forall releases r, pickBestRelease releases = Ok r ->
        r = JNull \/ truthy r = true)
  /\ (forall releases,
        (forall rs c, releases = JArr rs -> In c (candidates_of rs) -> plain_release c) ->
        exists r, pickBestRelease releases = Ok r /\ (r = JNull \/ truthy r = true))
  /\ (forall assets,
        pickWindowsAsset assets = JNull \/ truthy (pickWindowsAsset assets) = true).
Proof.
  split; [|split; [exact pickBestRelease_truthy | split; [|exact pickWindowsAsset_truthy]]].
  - intros now w v. rewrite getCachedRelease_run. intros [= <-]. apply cached_value_truthy.
  - intros releases Pl. destruct (pickBestRelease_returns releases Pl) as (r & E).
    exists r. split; [exact E | now apply pickBestRelease_truthy in E].
Qed.

(** What a write does to the world, whether storage takes it or not. *)
Lemma cacheRelease_effect (now : Z) (release : JsVal) (w : World) :
  let w' := snd (cacheRelease now release w) in
  document w' = document w /\ console w' = console w
  /\ available (storage w') = available (storage w)
  /\ capacity (storage w') = capacity (storage w)
  /\ (forall k, k <> CONFIG.cacheKey ->
        items (storage w') !! k = items (storage w) !! k)
  /\ (write_accepted now release w = true ->
        items (storage w') !! CONFIG.cacheKey
        = Some (JSON_stringify (cache_entry now release)))
  /\ (write_accepted now release w = false -> w' = w).
Proof.
  rewrite cacheRelease_run. cbn [snd]. cbv zeta.
  destruct (write_accepted now release w) eqn:W.
  - apply andb_true_iff in W as [A _]. unfold stored. simpl.
    split; [reflexivity|]. split; [reflexivity|]. split; [now rewrite A|].
    split; [reflexivity|]. split; [intros k N; now apply lookup_insert_ne|].
    split; [intros _; apply lookup_insert_eq | discriminate].
  - split; [reflexivity|]. split; [reflexivity|]. split; [reflexivity|].
    split; [reflexivity|]. split; [reflexivity|].
    split; [discriminate | reflexivity].
Qed.

(** X12: [cacheRelease] touches one key of storage and nothing else: the
    document, the console and every other key stay as they were, whether
    storage takes the write or not.  A write storage takes replaces
    whatever was under the key; a write it refuses changes nothing. *)
Theorem cacheRelease_touches_one_key (now : Z) (release : JsVal) (w : World) :
  document (snd (cacheRelease now release w)) = document w
  /\ console (snd (cacheRelease now release w)) = console w
  /\ (forall k, k <> CONFIG.cacheKey ->
        items (storage (snd (cacheRelease now release w))) !! k
        = items (storage w) !! k)
  /\ (write_accepted now release w = true ->
        items (storage (snd (cacheRelease now release w))) !! CONFIG.cacheKey
        = Some (JSON_stringify (cache_entry now release)))
  /\ (write_accepted now release w = false -> snd (cacheRelease now release w) = w).
Proof.
  destruct (cacheRelease_effect now release w) as (D & C & _ & _ & K & A & R).
  repeat split; assumption.
Qed.

End CacheMore.

(* ===================================================================== *)
(** ** fetchLatestRelease *)
(* ===================================================================== *)

Section OrchestratorFacts.
Context `{Platform}.

Lemma cache_miss_value (now : Z) (w : World) :
  cache_miss now w <-> truthy (cached_value now (storage w)) = false.
Proof.
  unfold cache_miss. rewrite getCachedRelease_run. split.
  - now intros (v & [= <-] & T).
  - intros T. eauto.
Qed.

(** A hit: the cached release is presented, and that is all; what the
    presentation raises leaves the function. *)
Lemma fetchLatestRelease_hit (now_get now_put : Z) (net : FetchOutcome) (w : World) :
  truthy (cached_value now_get (storage w)) = true ->
  fetchLatestRelease now_get now_put net w
  = updateReleaseUI (cached_value now_get (storage w)) w.
Proof.
  intros T. unfold fetchLatestRelease, bind.
  rewrite getCachedRelease_run, T. reflexivity.
Qed.

(** A miss, by how the request settles; what the selection or the
    presentation raises is caught and logged. *)
Lemma fetchLatestRelease_miss (now_get now_put : Z) (net : FetchOutcome) (w : World) :
  truthy (cached_value now_get (storage w)) = false ->
  fetchLatestRelease now_get now_put net w =
    match net with
    | Rejected =>
        console_warn (WarnError "Failed to fetch releases:" NetworkError) w
    | Resolved r =>
        if negb (ok r) then
          console_warn (WarnStatus "GitHub API request failed:" (status r)) w
        else
          match body r with
          | None => console_warn (WarnError "Failed to fetch releases:" SyntaxError) w
          | Some releases =>
              match pickBestRelease releases with
              | Throw e => console_warn (WarnError "Failed to fetch releases:" e) w
              | Ok best =>
                  if negb (truthy best) then
                    console_warn (WarnPlain "No suitable release found") w
                  else
                    match updateReleaseUI best w with
                    | (Ok _, w1) => cacheRelease now_put best w1
                    | (Throw e, w1) =>
                        console_warn (WarnError "Failed to fetch releases:" e) w1
                    end
              end
          end
    end.
Proof.
  intros T. unfold fetchLatestRelease, bind at 1.
  rewrite getCachedRelease_run, T. unfold try_catch, bind at 1.
  destruct net as [|r]; [reflexivity|]. simpl.
  destruct (ok r); simpl; [|reflexivity].
  unfold bind at 1, await_json. destruct (body r) as [releases|]; [|reflexivity].
  unfold ret. unfold bind at 1, lift.
  destruct (pickBestRelease releases) as [best|e]; [|reflexivity].
  destruct (truthy best); simpl; [|reflexivity].
  unfold bind. destruct (updateReleaseUI best w) as [[[]|e] w1]; [|reflexivity].
  now rewrite cacheRelease_run.
Qed.

(** C7: on a cache miss, when the request fails in transport,
    [fetchLatestRelease] ends normally having written one warning to the
    console and nothing else: the document and the storage are as they
    were. *)
Theorem fetchLatestRelease_transport_failure
        (now_get now_put : Z) (net : FetchOutcome) (w : World) :
  cache_miss now_get w ->
  transport_failure net ->
  exists warning,
    fetchLatestRelease now_get now_put net w
    = (Ok tt, mkWorld (storage w) (document w) (console w ++ [warning])).
Proof.
  intros M%cache_miss_value F.
  rewrite (fetchLatestRelease_miss _ _ _ _ M).
  destruct F as [->|(r & -> & Hok)].
  - now exists (WarnError "Failed to fetch releases:" NetworkError).
  - rewrite Hok. now exists (WarnStatus "GitHub API request failed:" (status r)).
Qed.

End OrchestratorFacts.

(* ===================================================================== *)
(** ** fetchLatestRelease: every path *)
(* ===================================================================== *)

Section OrchestratorMore.
Context `{Platform}.

Lemma write_accepted_storage (now : Z) (release : JsVal) (w w' : World) :
  storage w' = storage w -> write_accepted now release w' = write_accepted now release w.
Proof. intros E. unfold write_accepted. now rewrite E. Qed.

(** An update that runs to its end, as a world. *)
Lemma completes_run (release : JsVal) (w : World) :
  completes release w ->
  updateReleaseUI release w = (Ok tt, with_document (page_after release w) w).
Proof.
  unfold completes, page_after.
  destruct (updateReleaseUI_outcome release w) as (n & text & r & -> & _).
  cbn [fst snd]. now intros ->.
Qed.

(** An update that does not: it has raised a [TypeError]. *)
Lemma not_completes_run (release : JsVal) (w : World) :
  ~ completes release w ->
  updateReleaseUI release w = (Throw TypeError, with_document (page_after release w) w).
Proof.
  unfold completes, page_after.
  destruct (updateReleaseUI_outcome release w) as (n & text & r & -> & R & _).
  cbn [fst snd]. destruct R as [->|(-> & _)]; [now intros [] | reflexivity].
Qed.

Lemma completes_dec (release : JsVal) (w : World) :
  completes release w \/ ~ completes release w.
Proof.
  unfold completes. destruct (fst (updateReleaseUI release w)) as [[]|e];
    [now left | right; discriminate].
Qed.

Lemma dom_page_after (release : JsVal) (w : World) :
  dom (page_after release w) = dom (document w).
Proof.
  unfold page_after.
  destruct (updateReleaseUI_outcome release w) as (n & text & r & -> & _).
  apply dom_stage.
Qed.

(** The run on a miss, when the response is a success and a release is
    selected and presented. *)
Lemma fetchLatestRelease_selected
      (now_get now_put : Z) (r : Response) (releases best : JsVal) (w : World) :
  truthy (cached_value now_get (storage w)) = false ->
  ok r = true -> body r = Some releases ->
  pickBestRelease releases = Ok best -> truthy best = true ->
  completes best w ->
  fetchLatestRelease now_get now_put (Resolved r) w =
    cacheRelease now_put best (with_document (page_after best w) w).
Proof.
  intros M O B E T C.
  rewrite (fetchLatestRelease_miss _ _ _ _ M), O, B, E, T. cbn [negb].
  now rewrite (completes_run best w C).
Qed.

(** X13: a cache hit makes no request.  When [getCachedRelease] gives a
    truthy release, [fetchLatestRelease] presents it and does nothing else,
    however the request would have settled: storage and console stay as
    they were.  The presentation is outside the [try]: when it runs to its
    end, as it does on a release as the API writes it, the function ends
    normally; when it raises, its [TypeError] leaves the function. *)
Theorem fetchLatestRelease_cache_hit
        (now_get now_put : Z) (net : FetchOutcome) (w : World) (cached : JsVal) :
  getCachedRelease now_get w = (Ok cached, w) ->
  truthy cached = true ->
  fetchLatestRelease now_get now_put net w = updateReleaseUI cached w
  /\ storage (snd (fetchLatestRelease now_get now_put net w)) = storage w
  /\ console (snd (fetchLatestRelease now_get now_put net w)) = console w
  /\ (completes cached w ->
      fetchLatestRelease now_get now_put net w
      = (Ok tt, mkWorld (storage w) (page_after cached w) (console w)))
  /\ (~ completes cached w ->
      fetchLatestRelease now_get now_put net w
      = (Throw TypeError, mkWorld (storage w) (page_after cached w) (console w)))
  /\ (plain_presentation cached -> completes cached w).
Proof.
  rewrite getCachedRelease_run. intros [= <-] T.
  rewrite (fetchLatestRelease_hit _ _ _ _ T).
  split; [reflexivity|].
  destruct (updateReleaseUI_outcome (cached_value now_get (storage w)) w)
    as (n & text & r & E & _).
  split; [now rewrite E|]. split; [now rewrite E|].
  split; [apply completes_run|]. split; [apply not_completes_run|].
  apply updateReleaseUI_plain.
Qed.

(** X14: on a miss, a successful response from which a release is selected
    and presented to the end is cached, and nothing is logged: the document
    is updated with the selected release, the console stays, and storage
    holds the new entry when it takes the write and is unchanged when it
    refuses it.  A release as the API writes it is presented to the end. *)
Theorem fetchLatestRelease_success
        (now_get now_put : Z) (r : Response) (releases best : JsVal) (w : World) :
  cache_miss now_get w ->
  ok r = true ->
  body r = Some releases ->
  pickBestRelease releases = Ok best ->
  truthy best = true ->
  (completes best w ->
   exists w',
     fetchLatestRelease now_get now_put (Resolved r) w = (Ok tt, w')
     /\ document w' = page_after best w
     /\ console w' = console w
     /\ (write_accepted now_put best w = true ->
           items (storage w') !! CONFIG.cacheKey
           = Some (JSON_stringify (cache_entry now_put best)))
     /\ (write_accepted now_put best w = false -> storage w' = storage w))
  /\ (plain_presentation best -> completes best w).
Proof.
  intros M%cache_miss_value O B E T. split; [|apply updateReleaseUI_plain].
  intros C. rewrite (fetchLatestRelease_selected _ _ _ _ _ _ M O B E T C).
  set (w0 := with_document (page_after best w) w).
  destruct (cacheRelease_effect now_put best w0) as (D & Cn & _ & _ & _ & A & R).
  assert (W : write_accepted now_put best w0 = write_accepted now_put best w)
    by (now apply write_accepted_storage).
  exists (snd (cacheRelease now_put best w0)).
  split; [now rewrite cacheRelease_run|]. split; [exact D|]. split; [exact Cn|].
  rewrite <- W. split; [exact A|]. intros F. now rewrite (R F).
Qed.

(** X15: on a miss, a successful response that yields no release changes
    nothing but the console, which gets one warning: "Failed to fetch
    releases:" when the body is not JSON, "No suitable release found" when
    [pickBestRelease] gives absent. *)
Theorem fetchLatestRelease_nothing_selected
        (now_get now_put : Z) (r : Response) (w : World) :
  cache_miss now_get w ->
  ok r = true ->
  (body r = None
   \/ exists releases, body r = Some releases /\ pickBestRelease releases = Ok JNull) ->
  exists warning,
    fetchLatestRelease now_get now_put (Resolved r) w
    = (Ok tt, mkWorld (storage w) (document w) (console w ++ [warning]))
    /\ (body r = None -> warning = WarnError "Failed to fetch releases:" SyntaxError)
    /\ (body r <> None -> warning = WarnPlain "No suitable release found").
Proof.
  intros M%cache_miss_value O S.
  rewrite (fetchLatestRelease_miss _ _ _ _ M), O. cbn [negb].
  destruct S as [B|(releases & B & E)]; rewrite B.
  - eexists. split; [reflexivity|]. split; [reflexivity | congruence].
  - rewrite E. eexists. split; [reflexivity|]. split; [discriminate | reflexivity].
Qed.

(** X23: on a miss, what the selection or the presentation raises is caught:
    the function ends normally with one warning, "Failed to fetch
    releases:" with the [TypeError], and nothing is cached.  When the
    selection raised, the document is as it was; when the presentation
    raised, the document has the writes made before. *)
Theorem fetchLatestRelease_raised_inside
        (now_get now_put : Z) (r : Response) (releases : JsVal) (w : World) :
  cache_miss now_get w ->
  ok r = true ->
  body r = Some releases ->
  (forall e, pickBestRelease releases = Throw e ->
     fetchLatestRelease now_get now_put (Resolved r) w
     = (Ok tt, mkWorld (storage w) (document w)
                 (console w ++ [WarnError "Failed to fetch releases:" TypeError])))
  /\ (forall best, pickBestRelease releases = Ok best -> truthy best = true ->
        ~ completes best w ->
        fetchLatestRelease now_get now_put (Resolved r) w
        = (Ok tt, mkWorld (storage w) (page_after best w)
                    (console w ++ [WarnError "Failed to fetch releases:" TypeError]))).
Proof.
  intros M%cache_miss_value O B.
  rewrite (fetchLatestRelease_miss _ _ _ _ M), O, B. cbn [negb]. split.
  - intros e E. rewrite E. now rewrite (pickBestRelease_throw _ _ E).
  - intros best E T N. rewrite E, T. cbn [negb].
    now rewrite (not_completes_run best w N).
Qed.

(** X16: [fetchLatestRelease] ends normally on every miss, whatever the
    network answers and whatever is raised inside; on a hit it ends normally
    or with the [TypeError] of the presentation.  What it does stays within
    bounds: it adds or removes no element of the document, changes no key of
    storage but its own, and logs at most one warning; and when it logs a
    warning it has not changed storage, and has changed the document only if
    the warning is that of a [TypeError] caught. *)
Theorem fetchLatestRelease_contained
        (now_get now_put : Z) (net : FetchOutcome) (w : World) :
  exists r w',
    fetchLatestRelease now_get now_put net w = (r, w')
    /\ (r = Ok tt
        \/ (r = Throw TypeError /\ ~ cache_miss now_get w
            /\ storage w' = storage w /\ console w' = console w))
    /\ (cache_miss now_get w -> r = Ok tt)
    /\ dom (document w') = dom (document w)
    /\ (forall k, k <> CONFIG.cacheKey ->
          items (storage w') !! k = items (storage w) !! k)
    /\ available (storage w') = available (storage w)
    /\ capacity (storage w') = capacity (storage w)
    /\ (console w' = console w
        \/ exists warning,
             console w' = console w ++ [warning]
             /\ storage w' = storage w
             /\ (document w' = document w
                 \/ warning = WarnError "Failed to fetch releases:" TypeError)).
Proof.
  assert (Warn : forall x,
    exists r w', console_warn x w = (r, w')
      /\ (r = Ok tt
          \/ (r = Throw TypeError /\ ~ cache_miss now_get w
              /\ storage w' = storage w /\ console w' = console w))
      /\ (cache_miss now_get w -> r = Ok tt)
      /\ dom (document w') = dom (document w)
      /\ (forall k, k <> CONFIG.cacheKey ->
            items (storage w') !! k = items (storage w) !! k)
      /\ available (storage w') = available (storage w)
      /\ capacity (storage w') = capacity (storage w)
      /\ (console w' = console w
          \/ exists warning,
               console w' = console w ++ [warning]
               /\ storage w' = storage w
               /\ (document w' = document w
                   \/ warning = WarnError "Failed to fetch releases:" TypeError))).
  { intros x. eexists _, _. split; [reflexivity|]. simpl.
    split; [now left|]. repeat (split; [reflexivity|]).
    right. exists x. repeat split. now left. }
  destruct (truthy (cached_value now_get (storage w))) eqn:T.
  - rewrite (fetchLatestRelease_hit _ _ _ _ T).
    assert (NM : ~ cache_miss now_get w)
      by (intros M%cache_miss_value; congruence).
    set (cached := cached_value now_get (storage w)).
    destruct (completes_dec cached w) as [C|C];
      [rewrite (completes_run _ _ C) | rewrite (not_completes_run _ _ C)];
      eexists _, _; (split; [reflexivity|]); simpl.
    + split; [now left|]. split; [reflexivity|].
      split; [apply dom_page_after|]. repeat (split; [reflexivity|]). now left.
    + split; [right; repeat split; exact NM|]. split; [intros M; now destruct NM|].
      split; [apply dom_page_after|]. repeat (split; [reflexivity|]). now left.
  - rewrite (fetchLatestRelease_miss _ _ _ _ T).
    destruct net as [|r]; [apply Warn|].
    destruct (ok r); cbn [negb]; [|apply Warn].
    destruct (body r) as [releases|]; [|apply Warn].
    destruct (pickBestRelease releases) as [best|e]; [|apply Warn].
    destruct (truthy best) eqn:B; cbn [negb]; [|apply Warn].
    destruct (completes_dec best w) as [C|C].
    + rewrite (completes_run _ _ C).
      set (w0 := with_document (page_after best w) w).
      destruct (cacheRelease_effect now_put best w0) as (D & Cn & A & Q & K & _ & _).
      exists (Ok tt), (snd (cacheRelease now_put best w0)).
      split; [now rewrite cacheRelease_run|]. split; [now left|].
      split; [reflexivity|].
      split; [rewrite D; apply dom_page_after|].
      split; [exact K|]. split; [exact A|]. split; [exact Q|]. left. exact Cn.
    + rewrite (not_completes_run _ _ C).
      eexists _, _. split; [reflexivity|]. simpl. split; [now left|].
      split; [reflexivity|]. split; [apply dom_page_after|].
      repeat (split; [reflexivity|]). right. eexists. split; [reflexivity|].
      split; [reflexivity | now right].
Qed.

(** Presenting depends on the document alone. *)
Lemma updateReleaseUI_shown (release : JsVal) (w : World) (st : Storage) :
  completes release w ->
  updateReleaseUI release (mkWorld st (page_after release w) (console w))
  = (Ok tt, mkWorld st (page_after release w) (console w)).
Proof.
  intros C. destruct (truthy release) eqn:T; [|now apply updateReleaseUI_falsy].
  unfold page_after.
  destruct (updateReleaseUI_outcome release w) as (n & text & r & E & _ & Cm & _).
  unfold completes in C. rewrite E in *. cbn [fst snd] in *. subst r.
  destruct (Cm T eq_refl) as (-> & TT & F).
  rewrite (updateReleaseUI_run release _ T). unfold presentation. rewrite TT.
  cbn [document with_document]. rewrite failing_write_stage, F.
  unfold with_document. cbn [storage document console]. now rewrite stage_same.
Qed.

(** X17: after a visit that fetched, selected, presented and cached a
    release, a second visit within the time to live changes nothing and asks
    nothing of the network: when storage took the write, the entry decodes
    to itself and the time written is not 0, [fetchLatestRelease] run again
    before six hours have passed ends with the world as the first visit left
    it, however the request would settle.  A release as the API writes it is
    presented to the end. *)
Theorem fetchLatestRelease_second_visit
        (now1 t now2 now3 : Z) (r : Response) (releases best : JsVal)
        (net : FetchOutcome) (w : World) :
  cache_miss now1 w ->
  ok r = true ->
  body r = Some releases ->
  pickBestRelease releases = Ok best ->
  truthy best = true ->
  write_accepted t best w = true ->
  JSON_parse (JSON_stringify (cache_entry t best)) = Some (cache_entry t best) ->
  t <> 0 ->
  now2 - t < CONFIG.cacheTTL ->
  (completes best w ->
   fetchLatestRelease now2 now3 net
     (snd (fetchLatestRelease now1 t (Resolved r) w))
   = (Ok tt, snd (fetchLatestRelease now1 t (Resolved r) w)))
  /\ (plain_presentation best -> completes best w).
Proof.
  intros M%cache_miss_value O B E T W P N L. split; [|apply updateReleaseUI_plain].
  intros C. rewrite (fetchLatestRelease_selected _ _ _ _ _ _ M O B E T C).
  set (w0 := with_document (page_after best w) w).
  assert (W0 : write_accepted t best w0 = true)
    by (rewrite <- W; now apply write_accepted_storage).
  rewrite cacheRelease_run, W0. cbn [snd].
  assert (V : cached_value now2 (storage (stored t best w0)) = best).
  { rewrite (cached_value_decoded now2 (storage (stored t best w0)) _ _
               eq_refl (stored_lookup _ _ _) P), fresh_entry, T.
    destruct (Z.eqb_spec t 0); [contradiction|].
    destruct (Z.ltb_spec (now2 - t) CONFIG.cacheTTL); [reflexivity | lia]. }
  rewrite fetchLatestRelease_hit; rewrite V; [|exact T].
  unfold stored, w0, with_document. cbn [storage document console].
  now apply updateReleaseUI_shown.
Qed.

End OrchestratorMore.

(* ===================================================================== *)
(** ** compareSemver is an order *)
(* ===================================================================== *)

(** [cmp > 0] is false exactly when the first version is not the greater. *)
Lemma compareSemver_not_positive (a b : Semver) :
  numeric a -> numeric b ->
  (is_positive (compareSemver a b) = false <-> ~ lex_lt b a).
Proof.
  intros Na Nb. rewrite <- (compareSemver_positive a b Na Nb).
  destruct (is_positive _); split; intros E; try discriminate; try reflexivity.
  now destruct E.
Qed.

(** "Not greater" is transitive. *)
Lemma lex_le_trans (a b c : Semver) :
  numeric a -> numeric b ->
  ~ lex_lt b a -> ~ lex_lt c b -> ~ lex_lt c a.
Proof.
  intros Na Nb L1 L2 L.
  destruct (lex_lt_trichotomy a b Na Nb) as [Lab|[->|Lba]].
  - apply L2. eapply lex_lt_trans; eauto.
  - now apply L2.
  - now apply L1.
Qed.

Section OrderProperties.
Context `{Platform}.

(** X1: on the versions [parseSemver] gives, none of whose numbers is
    [NaN], [compareSemver] compares as the order by major, minor and patch
    does: the result is negative exactly when the first version comes before
    the second and positive exactly when it comes after; it is zero exactly
    when they are equal with a finite patch number, and [NaN] exactly when
    they are equal with an infinite one; swapping the arguments gives the
    opposite; "not greater" and "less" are transitive. *)
Theorem compareSemver_total_order :
  (forall tag v, parseSemver tag = Ok (Some v) -> numeric v)
  /\ (forall a b, numeric a -> numeric b ->
        (Double_lt (compareSemver a b) (Finite 0) <-> lex_lt a b)
        /\ (is_positive (compareSemver a b) = true <-> lex_lt b a)
        /\ (is_zero (compareSemver a b) = true <-> a = b /\ finite (patch a))
        /\ (compareSemver a b = NaN <-> a = b /\ ~ finite (patch a))
        /\ compareSemver b a = Double_opp (compareSemver a b))
  /\ (forall a b c, numeric a -> numeric b -> numeric c ->
        is_positive (compareSemver a b) = false ->
        is_positive (compareSemver b c) = false ->
        is_positive (compareSemver a c) = false)
  /\ (forall a b c, numeric a -> numeric b -> numeric c ->
        Double_lt (compareSemver a b) (Finite 0) ->
        Double_lt (compareSemver b c) (Finite 0) ->
        Double_lt (compareSemver a c) (Finite 0)).
Proof.
  split; [exact parseSemver_numeric|]. split; [|split].
  - intros a b Na Nb.
    split; [now apply compareSemver_negative|].
    split; [now apply compareSemver_positive|].
    split; [now apply compareSemver_zero|].
    split; [now apply compareSemver_NaN | now apply compareSemver_swap].
  - intros a b c Na Nb Nc.
    rewrite !compareSemver_not_positive by assumption.
    intros L1 L2. now apply (lex_le_trans a b c).
  - intros a b c Na Nb Nc.
    rewrite !compareSemver_negative by assumption. apply lex_lt_trans.
Qed.

End OrderProperties.

(* ===================================================================== *)
(** ** pickBestRelease ranks *)
(* ===================================================================== *)

Section RankingFacts.
Context `{Platform}.

Lemma version_of_numeric (c : JsVal) (v : Semver) :
  version_of c = Ok (Some v) -> numeric v.
Proof. apply parseSemver_numeric. Qed.

(** One turn of the loop never lowers the version held, and ends with a
    version the candidate's is not above. *)
Lemma consider_version (b x : JsVal) (vb : Semver) (b' : option (JsVal * Semver)) :
  numeric vb ->
  consider (Some (b, vb)) x = Ok b' ->
  exists r vr,
    b' = Some (r, vr) /\ numeric vr /\ ~ lex_lt vr vb
    /\ (forall vx, version_of x = Ok (Some vx) -> ~ lex_lt vr vx)
    /\ ((r = b /\ vr = vb) \/ (r = x /\ version_of x = Ok (Some vr))).
Proof.
  intros Nb E.
  destruct (consider_Ok _ _ _ E)
    as [[Vx ->]|(vx & Vx & [[[=] _]|(b0 & vb0 & [= <- <-] & C)])].
  - exists b, vb. split; [reflexivity|]. split; [exact Nb|].
    split; [apply lex_lt_irrefl|]. split; [congruence | now left].
  - pose proof (version_of_numeric x vx Vx) as Nx.
    assert (Keep : ~ lex_lt vb vx ->
              exists r vr,
                Some (b, vb) = Some (r, vr) /\ numeric vr /\ ~ lex_lt vr vb
                /\ (forall vx0, version_of x = Ok (Some vx0) -> ~ lex_lt vr vx0)
                /\ ((r = b /\ vr = vb) \/ (r = x /\ version_of x = Ok (Some vr)))).
    { intros L. exists b, vb. split; [reflexivity|]. split; [exact Nb|].
      split; [apply lex_lt_irrefl|]. split; [|now left].
      intros vx0 Vx0. rewrite Vx in Vx0. now injection Vx0 as <-. }
    assert (Take : ~ lex_lt vx vb ->
              exists r vr,
                Some (x, vx) = Some (r, vr) /\ numeric vr /\ ~ lex_lt vr vb
                /\ (forall vx0, version_of x = Ok (Some vx0) -> ~ lex_lt vr vx0)
                /\ ((r = b /\ vr = vb) \/ (r = x /\ version_of x = Ok (Some vr)))).
    { intros L. exists x, vx. split; [reflexivity|]. split; [exact Nx|].
      split; [exact L|]. split; [|now right].
      intros vx0 Vx0. rewrite Vx in Vx0. injection Vx0 as <-. apply lex_lt_irrefl. }
    destruct C as [[P ->]|[(P & Z0 & aTime & bTime & _ & _ & ->)|(P & _ & ->)]].
    + apply Take. apply (compareSemver_positive vx vb Nx Nb) in P.
      intros L. apply (lex_lt_irrefl vb). eapply lex_lt_trans; eauto.
    + apply (compareSemver_zero vx vb Nx Nb) in Z0 as [-> _].
      destruct (num_gt aTime bTime); [apply Take | apply Keep]; apply lex_lt_irrefl.
    + apply Keep. now apply (compareSemver_not_positive vx vb Nx Nb).
Qed.

(** The loop never lowers the version it holds, and ends with a version no
    candidate's version is above. *)
Lemma scan_max (l : list JsVal) (b r : JsVal) (vb vr : Semver) :
  numeric vb ->
  scan (Some (b, vb)) l = Ok (Some (r, vr)) ->
  numeric vr /\ ~ lex_lt vr vb
  /\ forall c vc, In c l -> version_of c = Ok (Some vc) -> ~ lex_lt vr vc.
Proof.
  revert b vb. induction l as [|x l IH]; intros b vb Nb; simpl.
  - intros [= <- <-]. split; [exact Nb|]. split; [apply lex_lt_irrefl | intros c vc []].
  - destruct (consider (Some (b, vb)) x) as [b1|e] eqn:E; simpl; [|discriminate].
    destruct (consider_version b x vb b1 Nb E) as (r1 & v1 & -> & N1 & L1 & Lx & _).
    intros S. destruct (IH r1 v1 N1 S) as (Nr & L2 & Hl).
    split; [exact Nr|]. split; [now apply (lex_le_trans vb v1 vr)|].
    intros c vc [<-|Hc] Vc; [|eauto].
    apply (lex_le_trans vc v1 vr);
      [exact (version_of_numeric _ _ Vc) | exact N1 | now apply Lx | exact L2].
Qed.

(** The loop from [null]: it passes the candidates without a version and
    takes up the first one that has a version. *)
Lemma scan_start (l : list JsVal) (b' : option (JsVal * Semver)) :
  scan None l = Ok b' ->
  (b' = None /\ forall c, In c l -> version_of c = Ok None)
  \/ exists skipped x vx rest,
       l = skipped ++ x :: rest
       /\ (forall c, In c skipped -> version_of c = Ok None)
       /\ version_of x = Ok (Some vx)
       /\ scan (Some (x, vx)) rest = Ok b'.
Proof.
  induction l as [|y l IH]; simpl.
  - intros [= <-]. left. split; [reflexivity | intros c []].
  - destruct (consider None y) as [b1|e] eqn:E; simpl; [|discriminate].
    destruct (consider_Ok _ _ _ E) as [[Vy ->]|(vy & Vy & [[_ ->]|(b & vb & [=] & _)])].
    + intros S. destruct (IH S) as [[-> N]|(skipped & x & vx & rest & -> & N & Vx & S')].
      * left. split; [reflexivity|]. intros c [<-|Hc]; auto.
      * right. exists (y :: skipped), x, vx, rest. repeat split; try assumption.
        intros c [<-|Hc]; auto.
    + intros S. right. exists [], y, vy, l. repeat split; try assumption. intros c [].
Qed.

(** The result's version, when some candidate has a version: the result has
    one, and no candidate has a greater one. *)
Lemma pickBestRelease_max (rs : list JsVal) (c r : JsVal) (vc : Semver) :
  In c (candidates_of rs) -> version_of c = Ok (Some vc) ->
  pickBestRelease (JArr rs) = Ok r ->
  exists vr, version_of r = Ok (Some vr)
             /\ In r (candidates_of rs)
             /\ numeric vr
             /\ forall c' vc', In c' (candidates_of rs) ->
                               version_of c' = Ok (Some vc') -> ~ lex_lt vr vc'.
Proof.
  intros Hc Vc. rewrite pickBestRelease_array.
  destruct (scan None (candidates_of rs)) as [b'|e] eqn:S; simpl; [|discriminate].
  destruct (scan_start _ _ S) as [[_ N]|(skipped & x & vx & rest & El & N & Vx & S')].
  { rewrite (N c Hc) in Vc. discriminate. }
  destruct (scan_keeps _ _ _ S') as ([r' vr] & ->). intros [= <-].
  pose proof (version_of_numeric x vx Vx) as Nx.
  destruct (scan_max _ _ _ _ _ Nx S') as (Nr & L1 & L2).
  assert (Hmax : forall c' vc', In c' (candidates_of rs) ->
                   version_of c' = Ok (Some vc') -> ~ lex_lt vr vc').
  { intros c' vc' Hc' Vc'. rewrite El in Hc'.
    apply in_app_or in Hc' as [Hc'|[<-|Hc']].
    - rewrite (N c' Hc') in Vc'. discriminate.
    - rewrite Vx in Vc'. injection Vc' as <-. exact L1.
    - eauto. }
  destruct (scan_pick _ _ _ _ S') as [[= <- <-]|[Hr Vr]].
  - exists vx. split; [exact Vx|].
    split; [rewrite El; apply in_or_app; right; now left|]. now split.
  - exists vr. split; [exact Vr|].
    split; [rewrite El; apply in_or_app; right; now right|]. now split.
Qed.

(** X2: when a candidate of the pool has a tag that parses, the release
    [pickBestRelease] returns has one too: a candidate without a version
    never wins over one with a version, and no candidate's version compares
    greater than the result's.  A release is returned when the tags and
    dates of the pool are not objects. *)
Theorem pickBestRelease_highest_version (rs : list JsVal) (c : JsVal) (vc : Semver) :
  In c (candidates_of rs) ->
  version_of c = Ok (Some vc) ->
  (forall r, pickBestRelease (JArr rs) = Ok r ->
     exists vr,
       version_of r = Ok (Some vr)
       /\ In r (candidates_of rs)
       /\ is_positive (compareSemver vc vr) = false
       /\ forall c' vc', In c' (candidates_of rs) -> version_of c' = Ok (Some vc') ->
                         is_positive (compareSemver vc' vr) = false
                         /\ ~ lex_lt vr vc')
  /\ ((forall c', In c' (candidates_of rs) -> plain_release c') ->
      exists r, pickBestRelease (JArr rs) = Ok r).
Proof.
  intros Hc Vc. split.
  - intros r E.
    destruct (pickBestRelease_max rs c r vc Hc Vc E) as (vr & Vr & Hr & Nr & Hmax).
    assert (Hcmp : forall c' vc', In c' (candidates_of rs) ->
                     version_of c' = Ok (Some vc') ->
                     is_positive (compareSemver vc' vr) = false /\ ~ lex_lt vr vc').
    { intros c' vc' Hc' Vc'. split; [|eauto].
      apply compareSemver_not_positive; eauto using version_of_numeric. }
    exists vr. split; [exact Vr|]. split; [exact Hr|].
    split; [now apply (Hcmp c)| exact Hcmp].
  - intros Pl. apply pickBestRelease_returns. intros ? c' [= <-]. apply Pl.
Qed.

End RankingFacts.

Section FirstMaximum.
Context `{Platform}.

(** Ranking above, on versions none of whose numbers is [NaN]: a greater
    version, or the same version with a finite patch number and a later
    time. *)
Lemma ranks_above_iff (k1 k2 : Semver * Z) :
  numeric (fst k1) -> numeric (fst k2) ->
  (ranks_above k1 k2 <->
   lex_lt (fst k2) (fst k1)
   \/ (fst k1 = fst k2 /\ finite (patch (fst k1)) /\ snd k1 > snd k2)).
Proof.
  intros N1 N2. unfold ranks_above.
  rewrite (compareSemver_positive _ _ N1 N2), (compareSemver_zero _ _ N1 N2). tauto.
Qed.

Lemma ranks_above_trans (k1 k2 k3 : Semver * Z) :
  numeric (fst k1) -> numeric (fst k2) -> numeric (fst k3) ->
  ranks_above k1 k2 -> ranks_above k2 k3 -> ranks_above k1 k3.
Proof.
  intros N1 N2 N3. rewrite !ranks_above_iff by assumption.
  intros [L1|(E1 & F1 & T1)] [L2|(E2 & F2 & T2)].
  - left. eapply lex_lt_trans; eauto.
  - left. now rewrite <- E2.
  - left. now rewrite E1.
  - right. split; [congruence|]. split; [exact F1 | lia].
Qed.

Lemma ranks_above_not_below (k1 k2 k3 : Semver * Z) :
  numeric (fst k1) -> numeric (fst k2) -> numeric (fst k3) ->
  ranks_above k1 k2 -> ~ ranks_above k3 k2 -> ranks_above k1 k3.
Proof.
  intros N1 N2 N3. rewrite !ranks_above_iff by assumption.
  intros R1 R3.
  destruct (lex_lt_trichotomy (fst k2) (fst k3) N2 N3) as [L|[E|L]].
  - destruct R3. now left.
  - destruct R1 as [L1|(E1 & F1 & T1)].
    + left. now rewrite <- E.
    + right. split; [congruence|]. split; [exact F1|].
      destruct (Z_le_gt_dec (snd k3) (snd k2)) as [Le|Gt]; [lia|].
      destruct R3. right. split; [congruence|]. split; [|exact Gt].
      rewrite <- E, <- E1. exact F1.
  - destruct R1 as [L1|(E1 & F1 & T1)].
    + left. eapply lex_lt_trans; eauto.
    + left. now rewrite E1.
Qed.

Lemma rank_of_Some (c : JsVal) (v : Semver) (t : Z) :
  rank_of c = Some (v, t)
  <-> version_of c = Ok (Some v) /\ published_time c = Ok (Some t).
Proof.
  unfold rank_of.
  destruct (version_of c) as [[v'|]|], (published_time c) as [[t'|]|];
    (split; [intros E; split; congruence | intros [E1 E2]; congruence]).
Qed.

Lemma rank_of_version (c : JsVal) (k : Semver * Z) :
  rank_of c = Some k -> version_of c = Ok (Some (fst k)).
Proof. destruct k as [v t]. now intros [? _]%rank_of_Some. Qed.

Lemma rank_of_numeric (c : JsVal) (k : Semver * Z) :
  rank_of c = Some k -> numeric (fst k).
Proof. intros E%rank_of_version. now apply version_of_numeric in E. Qed.

(** One turn of the loop on dated releases: the candidate replaces the best
    exactly when it ranks above it. *)
Lemma consider_ranked (b x : JsVal) (kb kx : Semver * Z) :
  rank_of b = Some kb -> rank_of x = Some kx ->
  (ranks_above kx kb /\ consider (Some (b, fst kb)) x = Ok (Some (x, fst kx)))
  \/ (~ ranks_above kx kb /\ consider (Some (b, fst kb)) x = Ok (Some (b, fst kb))).
Proof.
  destruct kb as [vb tb], kx as [vx tx].
  intros [Vb Tb]%rank_of_Some [Vx Tx]%rank_of_Some. simpl.
  unfold ranks_above, consider. unfold version_of in Vx. rewrite Vx. simpl.
  destruct (is_positive (compareSemver vx vb)) eqn:P; [left; auto|].
  destruct (is_zero (compareSemver vx vb)) eqn:Z0.
  - rewrite Tx, Tb. simpl. destruct (Z.gtb_spec tx tb) as [G|G].
    + left. split; [right; split; [reflexivity | lia] | reflexivity].
    + right. split; [|reflexivity]. intros [?|[_ ?]]; [discriminate | lia].
  - right. split; [|reflexivity]. intros [?|[? _]]; discriminate.
Qed.

(** The loop on dated releases ends with the first of those that no other
    ranks above: either the best it started with, which no candidate ranks
    above, or a candidate that ranks above the starting best and above every
    dated candidate before it, and that no later candidate ranks above. *)
Lemma scan_first_max (l : list JsVal) (b r : JsVal) (kb : Semver * Z) (vr : Semver) :
  all_dated l -> rank_of b = Some kb ->
  scan (Some (b, fst kb)) l = Ok (Some (r, vr)) ->
  (r = b /\ vr = fst kb
   /\ forall c kc, In c l -> rank_of c = Some kc -> ~ ranks_above kc kb)
  \/ exists before after kr,
       l = before ++ r :: after /\ rank_of r = Some kr /\ vr = fst kr
       /\ ranks_above kr kb
       /\ (forall c kc, In c before -> rank_of c = Some kc -> ranks_above kr kc)
       /\ (forall c kc, In c after -> rank_of c = Some kc -> ~ ranks_above kc kr).
Proof.
  revert b kb. induction l as [|x l IH]; intros b kb D Kb; simpl.
  - intros [= <- <-]. left. repeat split. intros c kc [].
  - assert (Dl : all_dated l) by (intros c v Hc; apply D; now right).
    pose proof (rank_of_numeric _ _ Kb) as Nb.
    destruct (consider (Some (b, fst kb)) x) as [b1|e] eqn:E; simpl; [|discriminate].
    destruct (version_of x) as [[vx|]|e] eqn:Vx.
    + destruct (D x vx (or_introl eq_refl) Vx) as (tx & Tx).
      assert (Kx : rank_of x = Some (vx, tx)) by now apply rank_of_Some.
      pose proof (rank_of_numeric _ _ Kx) as Nx.
      destruct (consider_ranked b x kb (vx, tx) Kb Kx) as [[R Ex]|[R Ex]];
        rewrite Ex in E; injection E as <-; intros E.
      * destruct (IH x (vx, tx) Dl Kx E)
          as [(-> & -> & Hl)|(before & after & kr & -> & Kr & -> & Rx & Hb & Ha)].
        -- right. exists [], l, (vx, tx). repeat split; try assumption.
           intros c kc [].
        -- right. exists (x :: before), after, kr. repeat split; try assumption.
           ++ apply (ranks_above_trans kr (vx, tx) kb);
                [exact (rank_of_numeric _ _ Kr) | exact Nx | exact Nb | exact Rx | exact R].
           ++ intros c kc [<-|Hc] Kc; [|eauto]. rewrite Kx in Kc. now injection Kc as <-.
      * destruct (IH b kb Dl Kb E)
          as [(-> & -> & Hl)|(before & after & kr & -> & Kr & -> & Rb & Hb & Ha)].
        -- left. repeat split. intros c kc [<-|Hc] Kc; [|eauto].
           rewrite Kx in Kc. now injection Kc as <-.
        -- right. exists (x :: before), after, kr. repeat split; try assumption.
           intros c kc [<-|Hc] Kc; [|eauto]. rewrite Kx in Kc. injection Kc as <-.
           apply (ranks_above_not_below kr kb (vx, tx));
             [exact (rank_of_numeric _ _ Kr) | exact Nb | exact Nx | exact Rb | exact R].
    + rewrite (consider_unparsed _ x Vx) in E. injection E as <-. intros E.
      destruct (IH b kb Dl Kb E)
        as [(-> & -> & Hl)|(before & after & kr & -> & Kr & -> & Rb & Hb & Ha)].
      * left. repeat split. intros c kc [<-|Hc] Kc; [|eauto].
        apply rank_of_version in Kc. congruence.
      * right. exists (x :: before), after, kr. repeat split; try assumption.
        intros c kc [<-|Hc] Kc; [|eauto].
        apply rank_of_version in Kc. congruence.
    + unfold consider in E. unfold version_of in Vx. rewrite Vx in E. discriminate.
Qed.

(** X3: when every candidate whose tag parses has a publication time that
    is a number, and some candidate's tag parses, the release
    [pickBestRelease] returns is the first candidate of the pool, in the
    pool's order, that none ranks above (by version, then by time, as the
    loop compares them): it ranks above every dated candidate before it, and
    no candidate after it ranks above it.  A release is returned when the
    tags and dates of the pool are not objects. *)
Theorem pickBestRelease_first_maximum (rs : list JsVal) (c : JsVal) (vc : Semver) :
  all_dated (candidates_of rs) ->
  In c (candidates_of rs) ->
  version_of c = Ok (Some vc) ->
  (forall r, pickBestRelease (JArr rs) = Ok r ->
     exists before after kr,
       candidates_of rs = before ++ r :: after
       /\ rank_of r = Some kr
       /\ (forall c' kc, In c' before -> rank_of c' = Some kc -> ranks_above kr kc)
       /\ (forall c' kc, In c' after -> rank_of c' = Some kc -> ~ ranks_above kc kr))
  /\ ((forall c', In c' (candidates_of rs) -> plain_release c') ->
      exists r, pickBestRelease (JArr rs) = Ok r).
Proof.
  intros D Hc Vc. split.
  2:{ intros Pl. apply pickBestRelease_returns. intros ? c' [= <-]. apply Pl. }
  intros r0. rewrite pickBestRelease_array.
  destruct (scan None (candidates_of rs)) as [b'|e] eqn:S; simpl; [|discriminate].
  destruct (scan_start _ _ S) as [[_ N]|(skipped & x & vx & rest & El & N & Vx & S')].
  { rewrite (N c Hc) in Vc. discriminate. }
  destruct (scan_keeps _ _ _ S') as ([r vr] & ->). intros [= <-].
  rewrite El in *.
  destruct (D x vx) as (tx & Tx); [apply in_or_app; right; now left | exact Vx|].
  assert (Kx : rank_of x = Some (vx, tx)) by now apply rank_of_Some.
  assert (Dr : all_dated rest).
  { intros y v Hy. apply D. apply in_or_app. right. now right. }
  destruct (scan_first_max rest x r (vx, tx) vr Dr Kx S')
    as [(-> & -> & Hl)|(before & after & kr & -> & Kr & -> & Rx & Hb & Ha)].
  - exists skipped, rest, (vx, tx). repeat split; try assumption.
    intros c' kc Hc' Kc. apply rank_of_version in Kc.
    rewrite (N c' Hc') in Kc. discriminate.
  - exists (skipped ++ x :: before), after, kr.
    split; [now rewrite <- app_assoc|]. split; [exact Kr|]. split; [|exact Ha].
    intros c' kc Hc' Kc. apply in_app_or in Hc' as [Hc'|[<-|Hc']].
    + apply rank_of_version in Kc. rewrite (N c' Hc') in Kc. discriminate.
    + rewrite Kx in Kc. now injection Kc as <-.
    + eauto.
Qed.

End FirstMaximum.

Section PoolFacts.
Context `{Platform}.

Lemma filter_Permutation_bool {A} (f : A -> bool) (l l' : list A) :
  Permutation l l' -> Permutation (List.filter f l) (List.filter f l').
Proof.
  induction 1 as [|x l l' _ IH|x y l|l l' l'' _ IH1 _ IH2]; simpl.
  - constructor.
  - destruct (f x); [now constructor | exact IH].
  - destruct (f x), (f y); try reflexivity. constructor.
  - etransitivity; eauto.
Qed.

Lemma candidates_Permutation (rs rs' : list JsVal) :
  Permutation rs rs' -> Permutation (candidates_of rs) (candidates_of rs').
Proof.
  intros P. unfold candidates_of.
  pose proof (filter_Permutation_bool is_nonDraft _ _ P) as Pn.
  pose proof (filter_Permutation_bool is_stable _ _ Pn) as Ps.
  rewrite (Permutation_length Ps). now destruct (0 <? _)%nat.
Qed.

Lemma filter_filter_same {A} (f : A -> bool) (l : list A) :
  List.filter f (List.filter f l) = List.filter f l.
Proof.
  induction l as [|x l IH]; simpl; [reflexivity|].
  destruct (f x) eqn:E; simpl; [rewrite E; now f_equal | exact IH].
Qed.

Lemma filter_all {A} (f : A -> bool) (l : list A) :
  (forall x, In x l -> f x = true) -> List.filter f l = l.
Proof.
  induction l as [|x l IH]; simpl; intros Hall; [reflexivity|].
  rewrite (Hall x (or_introl eq_refl)). f_equal. apply IH. intros y Hy. apply Hall. now right.
Qed.

(** The pool of the pool is the pool. *)
Lemma candidates_idem (rs : list JsVal) :
  candidates_of (candidates_of rs) = candidates_of rs.
Proof.
  assert (Hn : List.filter is_nonDraft (candidates_of rs) = candidates_of rs).
  { apply filter_all. intros c Hc. now apply candidates_nonDraft in Hc. }
  unfold candidates_of at 1. rewrite Hn.
  unfold candidates_of.
  destruct (List.filter is_stable (List.filter is_nonDraft rs)) as [|y l] eqn:E.
  - cbn [length Nat.ltb Nat.leb]. rewrite E. reflexivity.
  - cbn [length Nat.ltb Nat.leb]. rewrite <- E, filter_filter_same, E. reflexivity.
Qed.

(** The pool does not change when an entry that is a draft (or falsy) is
    taken out of the input. *)
Lemma candidates_without (l1 l2 : list JsVal) (d : JsVal) :
  is_nonDraft d = false -> candidates_of (l1 ++ d :: l2) = candidates_of (l1 ++ l2).
Proof.
  intros Hd. unfold candidates_of.
  rewrite !List.filter_app. simpl. rewrite Hd. reflexivity.
Qed.

(** The version of the result, for a pool in which no tag parses. *)
Lemma pickBestRelease_no_version (rs : list JsVal) (r : JsVal) :
  (forall c, In c (candidates_of rs) -> version_of c = Ok None) ->
  pickBestRelease (JArr rs) = Ok r ->
  version_of r = Ok None.
Proof.
  intros N E. destruct (candidates_of rs) as [|c l] eqn:Ec.
  - rewrite (pickBestRelease_empty_pool rs Ec) in E. now injection E as <-.
  - apply N. rewrite <- Ec. apply pickBestRelease_in_pool; [|exact E].
    rewrite Ec. discriminate.
Qed.

(** What the result's version is: that of no candidate when none parses,
    else one no candidate's is above. *)
Lemma pickBestRelease_version (rs : list JsVal) (r : JsVal) :
  pickBestRelease (JArr rs) = Ok r ->
  (version_of r = Ok None /\ forall c, In c (candidates_of rs) -> version_of c = Ok None)
  \/ exists vr, version_of r = Ok (Some vr) /\ In r (candidates_of rs) /\ numeric vr
       /\ forall c' vc', In c' (candidates_of rs) ->
                         version_of c' = Ok (Some vc') -> ~ lex_lt vr vc'.
Proof.
  intros E. pose proof E as E'. rewrite pickBestRelease_array in E'.
  destruct (scan None (candidates_of rs)) as [b'|e] eqn:S; simpl in E'; [|discriminate].
  destruct (scan_start _ _ S) as [[_ N]|(skipped & x & vx & rest & El & N & Vx & _)].
  - left. split; [now apply (pickBestRelease_no_version rs) | exact N].
  - right. apply (pickBestRelease_max rs x r vx); [|exact Vx | exact E].
    rewrite El. apply in_or_app. right. now left.
Qed.

(** X4: the version of the release [pickBestRelease] returns does not depend
    on the order of the input list: on two lists with the same entries, two
    results carry the same parsed version, or both none.  Both lists give a
    result when the tags and dates of the pool are not objects. *)
Theorem pickBestRelease_version_order_free (rs rs' : list JsVal) :
  Permutation rs rs' ->
  (forall r r', pickBestRelease (JArr rs) = Ok r -> pickBestRelease (JArr rs') = Ok r' ->
     version_of r = version_of r' /\ exists v, version_of r = Ok v)
  /\ ((forall c, In c (candidates_of rs) -> plain_release c) ->
      (exists r, pickBestRelease (JArr rs) = Ok r)
      /\ (exists r', pickBestRelease (JArr rs') = Ok r')).
Proof.
  intros P%candidates_Permutation. split.
  - intros r r' E E'.
    destruct (pickBestRelease_version rs r E) as [[V N]|(vr & Vr & Ir & Nr & Mr)];
      destruct (pickBestRelease_version rs' r' E') as [[V' N']|(vr' & Vr' & Ir' & Nr' & Mr')].
    + rewrite V, V'. eauto.
    + rewrite (N r') in Vr'; [discriminate|].
      eapply Permutation_in; [symmetry; exact P | exact Ir'].
    + rewrite (N' r) in Vr; [discriminate|]. eapply Permutation_in; eauto.
    + rewrite Vr, Vr'. split; [|eauto]. do 2 f_equal.
      assert (L1 : ~ lex_lt vr' vr).
      { apply (Mr' r); [|exact Vr]. eapply Permutation_in; eauto. }
      assert (L2 : ~ lex_lt vr vr').
      { apply (Mr r'); [|exact Vr']. eapply Permutation_in; [symmetry; exact P | exact Ir']. }
      destruct (lex_lt_trichotomy vr vr' Nr Nr') as [L|[E0|L]]; [now destruct L2 | exact E0 | now destruct L1].
  - intros Pl. split; apply pickBestRelease_returns; intros ? c [= <-] Hc; apply Pl;
      [exact Hc | eapply Permutation_in; [symmetry; exact P | exact Hc]].
Qed.

(** X5: only the pool counts.  Taking a draft (or a falsy entry) out of the
    input does not change what [pickBestRelease] returns, and selecting
    again among the pool returns the same release. *)
Theorem pickBestRelease_only_pool :
  (forall l1 l2 d, is_nonDraft d = false ->
     pickBestRelease (JArr (l1 ++ d :: l2)) = pickBestRelease (JArr (l1 ++ l2)))
  /\ (forall rs rs', candidates_of rs = candidates_of rs' ->
        pickBestRelease (JArr rs) = pickBestRelease (JArr rs'))
  /\ (forall rs, pickBestRelease (JArr (candidates_of rs)) = pickBestRelease (JArr rs)).
Proof.
  split; [|split].
  - intros l1 l2 d Hd. now rewrite !pickBestRelease_array, (candidates_without l1 l2 d Hd).
  - intros rs rs' E. now rewrite !pickBestRelease_array, E.
  - intros rs. now rewrite !pickBestRelease_array, candidates_idem.
Qed.

End PoolFacts.

(* ===================================================================== *)
(** ** pickWindowsAsset: only installers count *)
(* ===================================================================== *)

Lemma find_ext_bool {A} (f g : A -> bool) (l : list A) :
  (forall x, f x = g x) -> List.find f l = List.find g l.
Proof.
  intros E. induction l as [|x l IH]; simpl; [reflexivity|]. now rewrite E, IH.
Qed.

Lemma find_without {A} (f : A -> bool) (l1 l2 : list A) (x : A) :
  f x = false -> List.find f (l1 ++ x :: l2) = List.find f (l1 ++ l2).
Proof.
  intros F. induction l1 as [|y l1 IH]; simpl; [now rewrite F|].
  destruct (f y); [reflexivity | exact IH].
Qed.

Lemma pickWindowsAsset_isExe (l : list JsVal) :
  pickWindowsAsset (JArr l) = JNull \/ isExe (pickWindowsAsset (JArr l)) = true.
Proof.
  destruct (pickWindowsAsset_tiers l) as [[E _]|[F|[[_ F]|[_ F]]]];
    [now left | right; apply first_with_In in F as [_ I] ..];
    apply isExe_iff; solve [apply I | exact I].
Qed.

(** X18: only the assets whose name ends with ".exe" count.  Taking the
    others out of the list, all of them or any one, does not change what
    [pickWindowsAsset] returns; and selecting again from the asset it
    returned returns that asset. *)
Theorem pickWindowsAsset_only_installers :
  (forall l, pickWindowsAsset (JArr (List.filter isExe l)) = pickWindowsAsset (JArr l))
  /\ (forall l1 l2 x, isExe x = false ->
        pickWindowsAsset (JArr (l1 ++ x :: l2)) = pickWindowsAsset (JArr (l1 ++ l2)))
  /\ (forall l, pickWindowsAsset (JArr [pickWindowsAsset (JArr l)])
                = pickWindowsAsset (JArr l)).
Proof.
  split; [|split].
  - intros l. rewrite !pickWindowsAsset_array, !find_filter.
    rewrite (find_ext_bool (fun y => isExe y && isExe y) isExe)
      by (intros x; now destruct (isExe x)).
    rewrite (find_ext_bool
               (fun y => isExe y && (isExe y && (is_opendrop y && has_role y)))
               (fun a => isExe a && (is_opendrop a && has_role a)))
      by (intros x; now destruct (isExe x)).
    rewrite (find_ext_bool (fun y => isExe y && (isExe y && is_opendrop y))
                           (fun a => isExe a && is_opendrop a))
      by (intros x; now destruct (isExe x)).
    reflexivity.
  - intros l1 l2 x F. rewrite !pickWindowsAsset_array.
    rewrite !(find_without _ l1 l2 x); [reflexivity | now rewrite F ..].
  - intros l. destruct (pickWindowsAsset_isExe l) as [E|E].
    + rewrite E. reflexivity.
    + rewrite (pickWindowsAsset_array [_]). cbn [List.find]. rewrite E. cbn [andb].
      destruct (is_opendrop _); [destruct (has_role _)|]; reflexivity.
Qed.

(* ===================================================================== *)
(** ** parseSemver: what the tag's surroundings do not change *)
(* ===================================================================== *)

Lemma space_not_digit (c : ascii) : is_space c = true -> is_digit c = false.
Proof. destruct c as [[] [] [] [] [] [] [] []]; (reflexivity || discriminate). Qed.

Lemma space_not_dot (c : ascii) : is_space c = true -> c <> "."%char.
Proof. intros S ->. discriminate. Qed.

Lemma match_here_nondigit (c : ascii) (s : string) :
  is_digit c = false -> match_here (String c s) = None.
Proof. intros D. unfold match_here. simpl. now rewrite D. Qed.

Lemma regex_match_skip (c : ascii) (s : string) :
  is_digit c = false -> regex_match (String c s) = regex_match s.
Proof.
  intros D. cbn [regex_match]. now rewrite (match_here_nondigit c s D).
Qed.

Lemma regex_match_trim_start (s : string) : regex_match (trim_start s) = regex_match s.
Proof.
  induction s as [|c s IH]; [reflexivity|]. cbn [trim_start].
  destruct (is_space c) eqn:S; [|reflexivity].
  now rewrite IH, (regex_match_skip c s (space_not_digit c S)).
Qed.

Lemma regex_match_strip_v (s : string) : regex_match (strip_v s) = regex_match s.
Proof.
  destruct s as [|c s]; [reflexivity|]. unfold strip_v.
  destruct (ci_eqb "v" c) eqn:V; [|reflexivity].
  symmetry. apply regex_match_skip. rewrite ci_eqb_v in V.
  apply orb_true_iff in V as [->%Ascii.eqb_eq| ->%Ascii.eqb_eq]; reflexivity.
Qed.

Lemma regex_match_spaces (r : string) : all_space r = true -> regex_match r = None.
Proof.
  induction r as [|c r IH]; [reflexivity|]. simpl all_space.
  intros [S R]%andb_true_iff.
  now rewrite (regex_match_skip c r (space_not_digit c S)), IH.
Qed.

(** White space after a string does not change the run of digits at its
    head. *)
Lemma span_digits_app_space (s r : string) :
  all_space r = true ->
  span_digits (s +:+ r) = (fst (span_digits s), snd (span_digits s) +:+ r).
Proof.
  intros R. induction s as [|c s IH]; simpl.
  - destruct r as [|x r]; [reflexivity|]. simpl in R.
    apply andb_true_iff in R as [S _]. simpl. now rewrite (space_not_digit x S).
  - destruct (is_digit c); [|reflexivity].
    rewrite IH. now destruct (span_digits s).
Qed.

Lemma match_here_app_space (s r : string) :
  all_space r = true -> match_here (s +:+ r) = match_here s.
Proof.
  intros R. unfold match_here.
  rewrite (span_digits_app_space s r R).
  destruct (span_digits s) as [d1 t1]. cbn [fst snd].
  destruct d1 as [|c1 d1]; [reflexivity|].
  destruct t1 as [|x1 t1].
  { simpl. destruct r as [|y r]; [reflexivity|]. simpl in R.
    apply andb_true_iff in R as [S _].
    destruct y as [[] [] [] [] [] [] [] []]; try reflexivity; discriminate. }
  simpl. destruct x1 as [[] [] [] [] [] [] [] []]; try reflexivity.
  rewrite (span_digits_app_space t1 r R).
  destruct (span_digits t1) as [d2 t2]. cbn [fst snd].
  destruct d2 as [|c2 d2]; [reflexivity|].
  destruct t2 as [|x2 t2].
  { simpl. destruct r as [|y r]; [reflexivity|]. simpl in R.
    apply andb_true_iff in R as [S _].
    destruct y as [[] [] [] [] [] [] [] []]; try reflexivity; discriminate. }
  simpl. destruct x2 as [[] [] [] [] [] [] [] []]; try reflexivity.
  rewrite (span_digits_app_space t2 r R).
  destruct (span_digits t2) as [d3 t3]. cbn [fst snd]. reflexivity.
Qed.

Lemma regex_match_app_space (s r : string) :
  all_space r = true -> regex_match (s +:+ r) = regex_match s.
Proof.
  intros R. induction s as [|c s IH].
  - simpl. now apply regex_match_spaces.
  - change (String c s +:+ r) with (String c (s +:+ r)). cbn [regex_match].
    change (String c (s +:+ r)) with (String c s +:+ r).
    now rewrite (match_here_app_space (String c s) r R), IH.
Qed.

Lemma regex_match_trim (s : string) : regex_match (trim s) = regex_match s.
Proof.
  unfold trim. transitivity (regex_match (trim_start s)); [|apply regex_match_trim_start].
  destruct (trim_end_spec (trim_start s)) as (r & E & R & _).
  rewrite <- (regex_match_app_space (trim_end (trim_start s)) r R). now rewrite <- E.
Qed.

Section ParseMore.
Context `{Platform}.

(** [parseSemver] searches the text of the tag as it is. *)
Lemma parseSemver_raw (tag : JsVal) (text : string) :
  truthy tag = true -> ToString tag = Ok text ->
  parseSemver tag =
    Ok match regex_match text with
       | Some (m1, m2, m3) => Some (semver_of m1 m2 m3)
       | None => None
       end.
Proof.
  intros T E.
  now rewrite (parseSemver_unfold tag text T E), regex_match_strip_v, regex_match_trim.
Qed.

(** X19: trimming and dropping the leading "v" change nothing of the result:
    [parseSemver] gives what the search for digits.digits.digits gives on
    the text of the tag as written.  So a tag parses the same with or
    without any one leading character that is not a digit, and with or
    without white space after it. *)
Theorem parseSemver_surroundings :
  (forall tag text, truthy tag = true -> ToString tag = Ok text ->
     parseSemver tag =
       Ok match regex_match text with
          | Some (m1, m2, m3) =>
              Some (mkSemver (Number_digits m1) (Number_digits m2) (Number_digits m3))
          | None => None
          end)
  /\ (forall c s, s <> EmptyString -> is_digit c = false ->
        parseSemver (JStr (String c s)) = parseSemver (JStr s))
  /\ (forall s r, s <> EmptyString -> all_space r = true ->
        parseSemver (JStr (s +:+ r)) = parseSemver (JStr s))
  /\ (forall s, exists r, parseSemver (JStr s) = Ok r).
Proof.
  split; [exact parseSemver_raw|]. split; [|split].
  - intros c s N D.
    rewrite (parseSemver_raw (JStr (String c s)) (String c s)) by reflexivity.
    rewrite (parseSemver_raw (JStr s) s); [|now destruct s | reflexivity].
    now rewrite (regex_match_skip c s D).
  - intros s r N R.
    rewrite (parseSemver_raw (JStr (s +:+ r)) (s +:+ r)); [|now destruct s | reflexivity].
    rewrite (parseSemver_raw (JStr s) s); [|now destruct s | reflexivity].
    now rewrite (regex_match_app_space s r R).
  - intros s. now apply parseSemver_primitive.
Qed.

(** X20: a tag that is written as three runs of digits with dots between,
    with or without a leading "v" or "V", and followed by anything that does
    not start with a digit, parses to the three numbers those digits write:
    for each run the double nearest to the integer it writes in base ten,
    which is that integer when it is below 2^53. *)
Theorem parseSemver_well_formed (d1 d2 d3 post : string) :
  digits d1 -> digits d2 -> digits d3 ->
  head_is is_digit post = false ->
  let v := mkSemver (Double_of_Z (decimal_value d1)) (Double_of_Z (decimal_value d2))
                    (Double_of_Z (decimal_value d3)) in
  parseSemver (JStr (d1 +:+ "." +:+ d2 +:+ "." +:+ d3 +:+ post)) = Ok (Some v)
  /\ parseSemver (JStr ("v" +:+ d1 +:+ "." +:+ d2 +:+ "." +:+ d3 +:+ post)) = Ok (Some v)
  /\ parseSemver (JStr ("V" +:+ d1 +:+ "." +:+ d2 +:+ "." +:+ d3 +:+ post)) = Ok (Some v)
  /\ (decimal_value d1 < 2 ^ 53 -> decimal_value d2 < 2 ^ 53 -> decimal_value d3 < 2 ^ 53 ->
      v = mkSemver (Finite (decimal_value d1)) (Finite (decimal_value d2))
                   (Finite (decimal_value d3)))
  /\ decimal_value "" = 0
  /\ (forall ds c, decimal_value (ds +:+ String c "")
                   = 10 * decimal_value ds + digit_value c).
Proof.
  intros D1 D2 D3 Hp v.
  assert (M : match_here (d1 +:+ "." +:+ d2 +:+ "." +:+ d3 +:+ post) = Some (d1, d2, d3)).
  { apply (match_here_exact _ _ _ _ post); [|exact Hp].
    split; [reflexivity|]. split; [exact D1|]. split; [exact D2 | exact D3]. }
  assert (R : regex_match (d1 +:+ "." +:+ d2 +:+ "." +:+ d3 +:+ post) = Some (d1, d2, d3)).
  { destruct D1 as [N1 _]. destruct d1 as [|c d1]; [contradiction|].
    change (String c d1 +:+ "." +:+ d2 +:+ "." +:+ d3 +:+ post)
      with (String c (d1 +:+ "." +:+ d2 +:+ "." +:+ d3 +:+ post)) in *.
    cbn [regex_match]. now rewrite M. }
  assert (T : truthy (JStr (d1 +:+ "." +:+ d2 +:+ "." +:+ d3 +:+ post)) = true).
  { destruct D1 as [N1 _]. now destruct d1. }
  split; [|split; [|split; [|split; [|split]]]].
  - rewrite (parseSemver_raw _ _ T eq_refl). now rewrite R.
  - rewrite (parseSemver_raw (JStr ("v" +:+ d1 +:+ "." +:+ d2 +:+ "." +:+ d3 +:+ post))
               ("v" +:+ d1 +:+ "." +:+ d2 +:+ "." +:+ d3 +:+ post) eq_refl eq_refl).
    change ("v" +:+ ?x) with (String "v" x).
    rewrite regex_match_skip by reflexivity. now rewrite R.
  - rewrite (parseSemver_raw (JStr ("V" +:+ d1 +:+ "." +:+ d2 +:+ "." +:+ d3 +:+ post))
               ("V" +:+ d1 +:+ "." +:+ d2 +:+ "." +:+ d3 +:+ post) eq_refl eq_refl).
    change ("V" +:+ ?x) with (String "V" x).
    rewrite regex_match_skip by reflexivity. now rewrite R.
  - intros B1 B2 B3. unfold v.
    pose proof (decimal_value_nonneg d1 (proj2 D1)).
    pose proof (decimal_value_nonneg d2 (proj2 D2)).
    pose proof (decimal_value_nonneg d3 (proj2 D3)).
    rewrite !Double_of_Z_exact by lia. reflexivity.
  - reflexivity.
  - exact decimal_value_snoc.
Qed.

End ParseMore.

(* ===================================================================== *)
(** ** The navigation bar *)
(* ===================================================================== *)

Module CommonFacts.
Import Common.

Lemma Qgt_bool_iff (a b : Q) : Qgt_bool a b = true <-> (b < a)%Q.
Proof.
  unfold Qgt_bool. rewrite negb_true_iff. split.
  - intros F. apply Qnot_le_lt. intros L. apply Qle_bool_iff in L. congruence.
  - intros L. destruct (Qle_bool a b) eqn:E; [|reflexivity].
    apply Qle_bool_iff in E. exfalso. now apply (Qlt_not_le b a).
Qed.

Lemma In_classList_add (token t : string) (classes : list string) :
  In t (classList_add token classes) <-> t = token \/ In t classes.
Proof.
  unfold classList_add. destruct (existsb _ classes) eqn:E.
  - split; [now right|]. intros [->|I]; [|exact I].
    apply existsb_exists in E as (x & Hx & ->%String.eqb_eq). exact Hx.
  - rewrite in_app_iff. simpl. split; [intros [I|[<-|[]]]; auto | intros [->|I]; auto].
Qed.

Lemma In_classList_remove (token t : string) (classes : list string) :
  In t (classList_remove token classes) <-> t <> token /\ In t classes.
Proof.
  unfold classList_remove. rewrite filter_In, negb_true_iff, String.eqb_neq. tauto.
Qed.

Lemma remove_add (token : string) (classes : list string) :
  classList_remove token (classList_add token classes) = classList_remove token classes.
Proof.
  unfold classList_add. destruct (existsb _ classes); [reflexivity|].
  unfold classList_remove. rewrite List.filter_app. simpl.
  rewrite String.eqb_refl. simpl. apply app_nil_r.
Qed.

Lemma remove_remove (token : string) (classes : list string) :
  classList_remove token (classList_remove token classes) = classList_remove token classes.
Proof.
  unfold classList_remove. induction classes as [|c l IH]; simpl; [reflexivity|].
  destruct (negb (String.eqb c token)) eqn:E; simpl; [rewrite E; now f_equal | exact IH].
Qed.

Lemma add_add (token : string) (classes : list string) :
  classList_add token (classList_add token classes) = classList_add token classes.
Proof.
  unfold classList_add. destruct (existsb (String.eqb token) classes) eqn:E.
  - now rewrite E.
  - rewrite existsb_app, E. cbn [existsb]. now rewrite String.eqb_refl.
Qed.

Lemma NoDup_filter_bool {A} (f : A -> bool) (l : list A) :
  NoDup l -> NoDup (List.filter f l).
Proof.
  induction 1 as [|x l Hx _ IH]; simpl; [constructor|].
  destruct (f x); [|exact IH]. constructor; [|exact IH].
  rewrite list_elem_of_In, filter_In. rewrite list_elem_of_In in Hx. tauto.
Qed.

Lemma NoDup_classList_add (token : string) (classes : list string) :
  NoDup classes -> NoDup (classList_add token classes).
Proof.
  intros N. unfold classList_add. destruct (existsb _ classes) eqn:E; [exact N|].
  apply NoDup_app. split; [exact N|]. split; [|apply NoDup_singleton].
  intros x Hx [->|[]%not_elem_of_nil]%elem_of_cons.
  assert (T : existsb (String.eqb token) classes = true).
  { apply existsb_exists. exists token. split; [now apply list_elem_of_In|].
    apply String.eqb_refl. }
  congruence.
Qed.

Lemma updateNav_remove (y : Q) (classes : list string) :
  classList_remove "scrolled" (updateNav y classes) = classList_remove "scrolled" classes.
Proof.
  unfold updateNav. destruct (Qgt_bool y SCROLL_THRESHOLD);
    [apply remove_add | apply remove_remove].
Qed.

Lemma updateNav_scrolled (y : Q) (classes : list string) :
  In "scrolled" (updateNav y classes) <-> (SCROLL_THRESHOLD < y)%Q.
Proof.
  unfold updateNav. destruct (Qgt_bool y SCROLL_THRESHOLD) eqn:G.
  - rewrite In_classList_add. apply Qgt_bool_iff in G. tauto.
  - rewrite In_classList_remove. split; [tauto|]. intros L%Qgt_bool_iff. congruence.
Qed.

Lemma updateNav_idem (y : Q) (classes : list string) :
  updateNav y (updateNav y classes) = updateNav y classes.
Proof.
  unfold updateNav. destruct (Qgt_bool y SCROLL_THRESHOLD);
    [apply add_add | apply remove_remove].
Qed.

Lemma updateNav_iter (n : nat) (y : Q) (classes : list string) :
  Nat.iter (S n) (updateNav y) classes = updateNav y classes.
Proof.
  induction n as [|n IH]; [reflexivity|].
  change (Nat.iter (S (S n)) (updateNav y) classes)
    with (updateNav y (Nat.iter (S n) (updateNav y) classes)).
  now rewrite IH, updateNav_idem.
Qed.

(** X21: [updateNav] makes the class "scrolled" follow the threshold and
    touches nothing else: after it the [nav] element has the class exactly
    when the page is scrolled further than 50, its other classes are the
    same and in the same order, a class list without repeats stays without
    repeats, and running it again at the same position changes nothing. *)
Theorem updateNav_spec (y : Q) (classes : list string) :
  (In "scrolled" (updateNav y classes) <-> (50 < y)%Q)
  /\ (forall t, t <> "scrolled" -> (In t (updateNav y classes) <-> In t classes))
  /\ classList_remove "scrolled" (updateNav y classes)
     = classList_remove "scrolled" classes
  /\ (NoDup classes -> NoDup (updateNav y classes))
  /\ updateNav y (updateNav y classes) = updateNav y classes.
Proof.
  split; [apply updateNav_scrolled|]. split; [|split; [apply updateNav_remove|split]].
  - intros t N. unfold updateNav. destruct (Qgt_bool y SCROLL_THRESHOLD).
    + rewrite In_classList_add. tauto.
    + rewrite In_classList_remove. tauto.
  - intros N. unfold updateNav. destruct (Qgt_bool y SCROLL_THRESHOLD).
    + now apply NoDup_classList_add.
    + now apply NoDup_filter_bool.
  - apply updateNav_idem.
Qed.

Lemma initNavScroll_in_step (win : Window) (classes : list string) :
  nav win = Some classes -> nav_in_step classes (initNavScroll win).
Proof.
  intros E. unfold initNavScroll. rewrite E. split; [simpl; lia|].
  exists (updateNav (scrollY win) classes). simpl.
  split; [reflexivity|]. split; [apply updateNav_scrolled | apply updateNav_remove].
Qed.

Lemma scroll_in_step (classes : list string) (y : Q) (win : Window) :
  nav_in_step classes win -> nav_in_step classes (scroll y win).
Proof.
  intros (L & cl & E & _ & R). unfold scroll. rewrite E. split; [exact L|].
  destruct (scroll_listeners win) as [|n]; [lia|].
  exists (updateNav y cl). split.
  - change (Some (Nat.iter (S n) (updateNav y) cl) = Some (updateNav y cl)).
    now rewrite updateNav_iter.
  - split; [apply updateNav_scrolled|]. now rewrite updateNav_remove.
Qed.

Lemma last_cons_default {A} (l : list A) (x d d' : A) :
  List.last (x :: l) d = List.last (x :: l) d'.
Proof.
  revert x. induction l as [|y l IH]; intros x; [reflexivity|].
  change (List.last (y :: l) d = List.last (y :: l) d'). apply IH.
Qed.

(** X22: once [initNavScroll] has run on a page that has a [nav] element,
    the element has the class "scrolled" exactly when the page is scrolled
    further than 50, at once and after any scrolling, and its other classes
    stay as they were; on a page without a [nav] element [initNavScroll]
    does nothing. *)
Theorem initNavScroll_follows_scroll :
  (forall win, nav win = None -> initNavScroll win = win)
  /\ (forall win classes positions,
        nav win = Some classes ->
        let final := fold_left (fun w y => scroll y w) positions (initNavScroll win) in
        exists now_classes,
          nav final = Some now_classes
          /\ (In "scrolled" now_classes <-> (50 < scrollY final)%Q)
          /\ classList_remove "scrolled" now_classes
             = classList_remove "scrolled" classes
          /\ scrollY final = List.last positions (scrollY win)).
Proof.
  split.
  - intros win E. unfold initNavScroll. now rewrite E.
  - intros win classes positions E. cbv zeta.
    assert (S0 : nav_in_step classes (initNavScroll win)) by now apply initNavScroll_in_step.
    assert (Y0 : scrollY (initNavScroll win) = scrollY win)
      by (unfold initNavScroll; now rewrite E).
    rewrite <- Y0. clear Y0 E.
    generalize dependent (initNavScroll win). clear win.
    induction positions as [|y l IH]; intros w Sw.
    + destruct Sw as (_ & cl & E & I & R). exists cl. simpl. auto.
    + cbn [fold_left].
      destruct (IH (scroll y w) (scroll_in_step classes y w Sw)) as (cl & E & I & R & Y).
      exists cl. repeat split; try assumption; try apply I.
      rewrite Y. destruct l as [|q l]; [reflexivity|].
      change (List.last (y :: q :: l) (scrollY w)) with (List.last (q :: l) (scrollY w)).
      apply last_cons_default.
Qed.

End CommonFacts.

(* ===================================================================== *)
(** ** The properties on the sample data *)
(* ===================================================================== *)

Section OnSamples.
Local Abbreviation P := Reference.platform.

(** The numbers of C3 are not the integers the digits write: the first
    number of the wide tag is one more than 2^53 and parses to 2^53, and the
    patch number of the long tag, 309 nines, parses to [Infinity]. *)
Lemma parseSemver_spec_counterexample :
  decimal_value "9007199254740993" = 9007199254740993
  /\ @parseSemver P (JStr Sample.wide_tag)
     = Ok (Some (mkSemver (Finite 9007199254740992) (Finite 0) (Finite 0)))
  /\ all_digits (Sample.nines 309) = true
  /\ @parseSemver P (JStr Sample.long_tag)
     = Ok (Some (mkSemver (Finite 1) (Finite 0) PosInf)).
Proof. vm_compute. repeat split. Qed.


(** The round trip of C6 does not hold as the specification words it: at
    time 0 storage takes the write of a release that decodes to itself, and
    the reading that follows at once is absent; and when storage has no room
    the write is dropped, and the reading is absent as well. *)
Lemma cache_round_trip_counterexample :
  @JSON_parse P (@JSON_stringify P (cache_entry 0 Sample.release))
    = Some (cache_entry 0 Sample.release)
  /\ truthy Sample.release = true
  /\ @write_accepted P 0 Sample.release Sample.world = true
  /\ fst (@getCachedRelease P 0 (snd (@cacheRelease P 0 Sample.release Sample.world)))
     = Ok JNull
  /\ @write_accepted P Sample.noon Sample.release Sample.full_world = false
  /\ fst (@getCachedRelease P Sample.noon
            (snd (@cacheRelease P Sample.noon Sample.release Sample.full_world)))
     = Ok JNull.
Proof. vm_compute. repeat split. Qed.

Lemma pickBestRelease_never_draft_witness :
  In Sample.release [Sample.draft; Sample.release]
  /\ truthy Sample.release = true
  /\ truthy (get_prop Sample.release "draft") = false.
Proof.
  apply (proj1 (proj2 (@pickBestRelease_never_draft P
                         (JArr [Sample.draft; Sample.release])))
           [Sample.draft; Sample.release] Sample.release Sample.release);
    [reflexivity | right; left; reflexivity | reflexivity | reflexivity].
Defined.

Lemma pickBestRelease_prefers_stable_witness :
  In Sample.release [Sample.beta; Sample.release; Sample.draft]
  /\ is_nonDraft Sample.release = true
  /\ truthy (get_prop Sample.release "prerelease") = false.
Proof.
  apply (proj1 (proj2 (@pickBestRelease_prefers_stable P))
           [Sample.beta; Sample.release; Sample.draft] Sample.release Sample.release);
    [right; left; reflexivity | reflexivity | reflexivity | reflexivity].
Defined.

Lemma pickBestRelease_fallback_witness :
  @pickBestRelease P (JArr [Sample.draft; Sample.nightly; Sample.latest])
  = Ok Sample.nightly.
Proof.
  apply (proj1 (proj2 (proj2 (@pickBestRelease_fallback P
                                [Sample.draft; Sample.nightly; Sample.latest])))
           Sample.nightly [Sample.latest]); [reflexivity|].
  intros c [<-|[<-|[]]]; reflexivity.
Defined.


Lemma pickWindowsAsset_spec_witness :
  In (pickWindowsAsset (get_prop Sample.release "assets"))
     [JObj [("name", JStr "notes.txt")]; Sample.portable; Sample.installer]
  /\ is_installer (pickWindowsAsset (get_prop Sample.release "assets"))
  /\ pickWindowsAsset (get_prop Sample.release "assets") = Sample.installer.
Proof.
  assert (I : is_installer Sample.installer).
  { exists "OpenDrop-Setup.exe". split; [reflexivity|].
    now exists "OpenDrop-Setup", ".exe". }
  destruct (proj1 (proj2 (proj2 (pickWindowsAsset_spec (get_prop Sample.release "assets"))))
              [JObj [("name", JStr "notes.txt")]; Sample.portable; Sample.installer]
              eq_refl
              (ex_intro _ Sample.installer (conj (or_intror (or_intror (or_introl eq_refl))) I)))
    as (Hin & Hi & _).
  split; [exact Hin|]. split; [exact Hi | reflexivity].
Defined.

Lemma cache_swallows_failures_witness :
  @getCachedRelease P Sample.noon Sample.blocked_world = (Ok JNull, Sample.blocked_world)
  /\ @cacheRelease P Sample.noon Sample.release Sample.blocked_world
     = (Ok tt, Sample.blocked_world)
  /\ @cacheRelease P Sample.noon Sample.release Sample.full_world
     = (Ok tt, Sample.full_world).
Proof.
  pose proof (@cache_swallows_failures P Sample.noon Sample.release Sample.blocked_world)
    as (_ & _ & _ & G & _ & _ & _ & C & _).
  pose proof (@cache_swallows_failures P Sample.noon Sample.release Sample.full_world)
    as (_ & _ & _ & _ & _ & _ & _ & _ & Q).
  split; [exact (G eq_refl)|]. split; [exact (C eq_refl)|].
  apply Q. vm_compute. lia.
Defined.

Lemma cached_release_needs_truthy_fields_witness :
  @getCachedRelease P Sample.noon Sample.epoch_world = (Ok JNull, Sample.epoch_world).
Proof.
  apply (proj1 (proj2 (@cached_release_needs_truthy_fields P Sample.noon Sample.epoch_world))
           Sample.epoch_text (cache_entry 0 Sample.release));
    [reflexivity | vm_compute; reflexivity | reflexivity].
Defined.

Lemma cache_round_trip_witness :
  fst (@getCachedRelease P (Sample.noon + 1000)
         (snd (@cacheRelease P Sample.noon Sample.release Sample.world)))
  = Ok Sample.release.
Proof.
  apply (proj1 (proj2 (@cache_round_trip P)));
    [vm_compute; reflexivity | vm_compute; reflexivity | reflexivity
    | discriminate | reflexivity].
Defined.

Lemma sample_world_misses : @cache_miss P Sample.noon Sample.world.
Proof. exists JNull. split; reflexivity. Qed.

Lemma fetchLatestRelease_transport_failure_witness :
  @cache_miss P Sample.noon Sample.world
  /\ transport_failure (Resolved Sample.rate_limited)
  /\ exists warning,
       @fetchLatestRelease P Sample.noon Sample.noon (Resolved Sample.rate_limited)
         Sample.world
       = (Ok tt, mkWorld (storage Sample.world) (document Sample.world)
                         (console Sample.world ++ [warning])).
Proof.
  assert (F : transport_failure (Resolved Sample.rate_limited))
    by (right; exists Sample.rate_limited; split; reflexivity).
  split; [exact sample_world_misses|]. split; [exact F|].
  exact (@fetchLatestRelease_transport_failure P Sample.noon Sample.noon
           (Resolved Sample.rate_limited) Sample.world sample_world_misses F).
Defined.

(** The comparisons of the specification, and one of two equal versions
    whose patch number is [Infinity]. *)
Example compareSemver_examples :
  compareSemver (mkSemver (Finite 1) (Finite 2) (Finite 3))
                (mkSemver (Finite 1) (Finite 3) (Finite 0)) = Finite (-1)
  /\ compareSemver (mkSemver (Finite 2) (Finite 0) (Finite 0))
                   (mkSemver (Finite 1) (Finite 9) (Finite 9)) = Finite 1
  /\ compareSemver (mkSemver (Finite 1) (Finite 2) (Finite 3))
                   (mkSemver (Finite 1) (Finite 2) (Finite 3)) = Finite 0
  /\ compareSemver (mkSemver (Finite 1) (Finite 0) PosInf)
                   (mkSemver (Finite 1) (Finite 0) PosInf) = NaN
  /\ compareSemver (mkSemver (Finite 1) (Finite 0) PosInf)
                   (mkSemver (Finite 1) (Finite 0) (Finite 7)) = PosInf.
Proof. repeat split. Qed.

Example ToString_examples :
  @ToString P (JArr [JNum (-12); JNull; JBool true; JArr [JStr "a"; JNum 0]])
  = Ok "-12,,true,a,0"
  /\ @ToString P (JObj [("a", JNum 1)]) = Ok "[object Object]"
  /\ @ToString P (JObj [("toString", JNum 1)]) = Throw TypeError
  /\ @ToString P (JArr [JNum 1; JObj [("toString", JNum 1)]]) = Throw TypeError
  /\ @ToString P (JNum (10 ^ 21 - 1)) = Ok "999999999999999999999"
  /\ @ToString P (JNum (10 ^ 21)) = Ok "1e+21"
  /\ @parseSemver P (JArr [JStr " V1.2.3 "])
     = Ok (Some (mkSemver (Finite 1) (Finite 2) (Finite 3))).
Proof. vm_compute. repeat split. Qed.

(** A first visit: the cache is empty, the request succeeds, the stable
    release is presented and cached, nothing is logged. *)
Example first_visit :
  let w1 := snd (@fetchLatestRelease P Sample.noon Sample.noon
                   (Resolved Sample.listing) Sample.world) in
  textContent <$> document w1 !! ELEMENTS.badgeText
    = Some ("Version 1.2.0 " +:+ bullet +:+ " Now Available")
  /\ textContent <$> document w1 !! ELEMENTS.versionText
     = Some ("v1.2.0 " +:+ bullet +:+ " 64-bit")
  /\ href <$> document w1 !! ELEMENTS.badgeLink
     = Some (get_prop Sample.release "html_url")
  /\ href <$> document w1 !! ELEMENTS.heroDownload
     = Some (get_prop Sample.installer "browser_download_url")
  /\ href <$> document w1 !! ELEMENTS.windowsDownload
     = Some (get_prop Sample.installer "browser_download_url")
  /\ items (storage w1) !! CONFIG.cacheKey
     = Some (Reference.stringify (cache_entry Sample.noon Sample.release))
  /\ console w1 = [].
Proof. vm_compute. repeat split. Qed.

(** A later visit: within six hours the cache answers and no request is
    made; after six hours it does not, and a failed request leaves the page
    as the first visit left it, with one warning. *)
Example later_visits :
  let w1 := snd (@fetchLatestRelease P Sample.noon Sample.noon
                   (Resolved Sample.listing) Sample.world) in
  let soon := Sample.noon + CONFIG.cacheTTL - 1 in
  let late := Sample.noon + CONFIG.cacheTTL in
  @fetchLatestRelease P soon soon Rejected w1 = (Ok tt, w1)
  /\ @fetchLatestRelease P late late Rejected w1
     = (Ok tt, mkWorld (storage w1) (document w1)
                       [WarnError "Failed to fetch releases:" NetworkError]).
Proof. vm_compute. repeat split. Qed.

(** A release whose page address does not convert to text.  From the cache
    it is presented outside the [try]: the label of the badge is written and
    the [TypeError] of the address leaves the function.  From the network
    the same is caught: one warning, nothing cached. *)
Example odd_visits :
  let hit := @fetchLatestRelease P (Sample.noon + 5) (Sample.noon + 5) Rejected
               Sample.odd_world in
  let miss := @fetchLatestRelease P Sample.noon Sample.noon
                (Resolved MoreSamples.odd_listing) Sample.world in
  fst hit = Throw TypeError
  /\ textContent <$> document (snd hit) !! ELEMENTS.badgeText
     = Some ("Version 1.2.0 " +:+ bullet +:+ " Now Available")
  /\ href <$> document (snd hit) !! ELEMENTS.badgeLink = Some (JStr URLS.releasesPage)
  /\ textContent <$> document (snd hit) !! ELEMENTS.versionText = Some "64-bit"
  /\ console (snd hit) = []
  /\ fst miss = Ok tt
  /\ textContent <$> document (snd miss) !! ELEMENTS.badgeText
     = Some ("Version 1.2.0 " +:+ bullet +:+ " Now Available")
  /\ href <$> document (snd miss) !! ELEMENTS.badgeLink = Some (JStr URLS.releasesPage)
  /\ items (storage (snd miss)) !! CONFIG.cacheKey = None
  /\ console (snd miss) = [WarnError "Failed to fetch releases:" TypeError].
Proof. vm_compute. repeat split. Qed.

End OnSamples.

(* ===================================================================== *)
(** ** More properties on the sample data *)
(* ===================================================================== *)

Section OnMoreSamples.
Local Abbreviation P := Reference.platform.

Lemma feed_pool :
  @candidates_of MoreSamples.feed
  = [Sample.nightly; Sample.first_build; Sample.release; Sample.rebuilt; Sample.undated].
Proof. reflexivity. Qed.

Lemma feed_all_dated : @all_dated P (candidates_of MoreSamples.feed).
Proof.
  rewrite feed_pool. intros c v [<-|[<-|[<-|[<-|[<-|[]]]]]] V; vm_compute; eauto.
Qed.

Lemma feed_result : @pickBestRelease P (JArr MoreSamples.feed) = Ok Sample.rebuilt.
Proof. reflexivity. Qed.

Lemma pickBestRelease_highest_version_witness :
  exists vr,
    @version_of P Sample.rebuilt = Ok (Some vr)
    /\ In Sample.rebuilt (candidates_of MoreSamples.feed)
    /\ is_positive (compareSemver (mkSemver (Finite 1) (Finite 2) (Finite 0)) vr) = false
    /\ forall c' vc', In c' (candidates_of MoreSamples.feed) ->
                      @version_of P c' = Ok (Some vc') ->
                      is_positive (compareSemver vc' vr) = false /\ ~ lex_lt vr vc'.
Proof.
  apply (proj1 (@pickBestRelease_highest_version P MoreSamples.feed Sample.release
                  (mkSemver (Finite 1) (Finite 2) (Finite 0))
                  (or_intror (or_intror (or_introl eq_refl))) eq_refl)
           Sample.rebuilt feed_result).
Defined.

Lemma pickBestRelease_first_maximum_witness :
  exists before after kr,
    candidates_of MoreSamples.feed = before ++ Sample.rebuilt :: after
    /\ @rank_of P Sample.rebuilt = Some kr
    /\ (forall c' kc, In c' before -> @rank_of P c' = Some kc -> ranks_above kr kc)
    /\ (forall c' kc, In c' after -> @rank_of P c' = Some kc -> ~ ranks_above kc kr).
Proof.
  apply (proj1 (@pickBestRelease_first_maximum P MoreSamples.feed Sample.release
                  (mkSemver (Finite 1) (Finite 2) (Finite 0))
                  feed_all_dated (or_intror (or_intror (or_introl eq_refl))) eq_refl)
           Sample.rebuilt feed_result).
Defined.

Lemma pickBestRelease_version_order_free_witness :
  @version_of P Sample.first_build = @version_of P Sample.first_build
  /\ exists v, @version_of P Sample.first_build = Ok v.
Proof.
  apply (proj1 (@pickBestRelease_version_order_free P
                  [Sample.first_build; Sample.beta; Sample.draft]
                  [Sample.beta; Sample.first_build; Sample.draft]
                  (perm_swap _ _ _))
           Sample.first_build Sample.first_build); reflexivity.
Defined.

Lemma updateReleaseUI_download_links_witness :
  exists el',
    @page_after P Sample.release Sample.world !! ELEMENTS.heroDownload = Some el'
    /\ textContent el' = "Download"
    /\ truthy (href el') = true
    /\ href el' = get_prop Sample.installer "browser_download_url".
Proof.
  destruct (proj1 (@updateReleaseUI_download_links P Sample.release Sample.world
                     ELEMENTS.heroDownload
                     (mkElement "Download" (JStr "#download") (JStr URLS.releasesPage))
                     eq_refl (or_introl eq_refl) eq_refl)
              eq_refl)
    as (el' & E & T & H & U).
  exists el'. split; [exact E|]. split; [exact T|]. split; [exact H | exact U].
Defined.

Lemma getCachedRelease_fresh_earlier_witness :
  @getCachedRelease P (Sample.noon + 5) MoreSamples.visited
  = (Ok Sample.release, MoreSamples.visited).
Proof.
  apply (@getCachedRelease_fresh_earlier P (Sample.noon + 5) (Sample.noon + 1000)
           MoreSamples.visited Sample.release);
    [discriminate | vm_compute; reflexivity | discriminate].
Defined.

Lemma fetchLatestRelease_cache_hit_witness :
  @fetchLatestRelease P (Sample.noon + 5) (Sample.noon + 5) Rejected MoreSamples.visited
  = (Ok tt, mkWorld (storage MoreSamples.visited)
                    (@page_after P Sample.release MoreSamples.visited)
                    (console MoreSamples.visited))
  /\ @fetchLatestRelease P (Sample.noon + 5) (Sample.noon + 5) Rejected Sample.odd_world
     = (Throw TypeError,
        mkWorld (storage Sample.odd_world)
                (@page_after P Sample.odd_release Sample.odd_world)
                (console Sample.odd_world)).
Proof.
  split.
  - apply (@fetchLatestRelease_cache_hit P (Sample.noon + 5) (Sample.noon + 5) Rejected
             MoreSamples.visited Sample.release);
      [vm_compute; reflexivity | reflexivity | vm_compute; reflexivity].
  - apply (@fetchLatestRelease_cache_hit P (Sample.noon + 5) (Sample.noon + 5) Rejected
             Sample.odd_world Sample.odd_release);
      [vm_compute; reflexivity | reflexivity | vm_compute; discriminate].
Defined.

Lemma fetchLatestRelease_success_witness :
  exists w',
    @fetchLatestRelease P Sample.noon Sample.noon (Resolved Sample.listing) Sample.world
    = (Ok tt, w')
    /\ document w' = @page_after P Sample.release Sample.world
    /\ console w' = console Sample.world
    /\ items (storage w') !! CONFIG.cacheKey
       = Some (Reference.stringify (cache_entry Sample.noon Sample.release)).
Proof.
  destruct (proj1 (@fetchLatestRelease_success P Sample.noon Sample.noon Sample.listing
                     (JArr [Sample.draft; Sample.beta; Sample.release]) Sample.release
                     Sample.world sample_world_misses eq_refl eq_refl eq_refl eq_refl)
              eq_refl)
    as (w' & E & D & C & A & _).
  exists w'. split; [exact E|]. split; [exact D|]. split; [exact C|].
  apply A. vm_compute. reflexivity.
Defined.

Lemma fetchLatestRelease_nothing_selected_witness :
  @fetchLatestRelease P Sample.noon Sample.noon (Resolved MoreSamples.only_a_draft)
    Sample.world
  = (Ok tt, mkWorld (storage Sample.world) (document Sample.world)
                    (console Sample.world ++ [WarnPlain "No suitable release found"])).
Proof.
  destruct (@fetchLatestRelease_nothing_selected P Sample.noon Sample.noon
              MoreSamples.only_a_draft Sample.world sample_world_misses eq_refl
              (or_intror (ex_intro _ (JArr [Sample.draft]) (conj eq_refl eq_refl))))
    as (warning & E & _ & W).
  rewrite E, W; [reflexivity | discriminate].
Defined.

Lemma fetchLatestRelease_raised_inside_witness :
  @fetchLatestRelease P Sample.noon Sample.noon (Resolved MoreSamples.odd_tags)
    Sample.world
  = (Ok tt, mkWorld (storage Sample.world) (document Sample.world)
              (console Sample.world ++ [WarnError "Failed to fetch releases:" TypeError]))
  /\ @fetchLatestRelease P Sample.noon Sample.noon (Resolved MoreSamples.odd_listing)
       Sample.world
     = (Ok tt, mkWorld (storage Sample.world)
                 (@page_after P Sample.odd_release Sample.world)
                 (console Sample.world ++ [WarnError "Failed to fetch releases:" TypeError])).
Proof.
  split.
  - apply (proj1 (@fetchLatestRelease_raised_inside P Sample.noon Sample.noon
                    MoreSamples.odd_tags (JArr [Sample.odd_tag; Sample.rebuilt])
                    Sample.world sample_world_misses eq_refl eq_refl)
             TypeError).
    reflexivity.
  - apply (proj2 (@fetchLatestRelease_raised_inside P Sample.noon Sample.noon
                    MoreSamples.odd_listing (JArr [Sample.odd_release])
                    Sample.world sample_world_misses eq_refl eq_refl)
             Sample.odd_release); [reflexivity | reflexivity | vm_compute; discriminate].
Defined.

Lemma fetchLatestRelease_second_visit_witness :
  @fetchLatestRelease P (Sample.noon + 1000) (Sample.noon + 1000) Rejected
    MoreSamples.visited
  = (Ok tt, MoreSamples.visited).
Proof.
  apply (proj1 (@fetchLatestRelease_second_visit P Sample.noon Sample.noon
                  (Sample.noon + 1000) (Sample.noon + 1000) Sample.listing
                  (JArr [Sample.draft; Sample.beta; Sample.release]) Sample.release
                  Rejected Sample.world
                  sample_world_misses eq_refl eq_refl eq_refl eq_refl
                  ltac:(vm_compute; reflexivity) ltac:(vm_compute; reflexivity)
                  ltac:(discriminate) eq_refl)).
  vm_compute. reflexivity.
Defined.

Lemma parseSemver_well_formed_witness :
  @parseSemver P (JStr "2.0.10-beta")
  = Ok (Some (mkSemver (Finite 2) (Finite 0) (Finite 10)))
  /\ @parseSemver P (JStr "v2.0.10-beta")
     = Ok (Some (mkSemver (Finite 2) (Finite 0) (Finite 10)))
  /\ @parseSemver P (JStr "V2.0.10-beta")
     = Ok (Some (mkSemver (Finite 2) (Finite 0) (Finite 10))).
Proof.
  destruct (@parseSemver_well_formed P "2" "0" "10" "-beta")
    as (A & B & C & _);
    try (split; [discriminate | reflexivity]); [reflexivity|].
  split; [exact A|]. split; [exact B | exact C].
Defined.

(** The navigation bar of the sample page through some scrolling. *)
Example nav_bar_scrolling :
  Common.nav (Common.initNavScroll MoreSamples.window) = Some ["navbar"; "dark"]
  /\ Common.nav (Common.scroll 51%Q (Common.initNavScroll MoreSamples.window))
     = Some ["navbar"; "dark"; "scrolled"]
  /\ Common.nav (Common.scroll 50%Q
                   (Common.scroll 300%Q (Common.initNavScroll MoreSamples.window)))
     = Some ["navbar"; "dark"]
  /\ Common.nav (Common.scroll (101 # 2)
                   (Common.initNavScroll (Common.initNavScroll MoreSamples.window)))
     = Some ["navbar"; "dark"; "scrolled"].
Proof. repeat split. Qed.

End OnMoreSamples.
